(** * Timeline engine of Sched_v5: coordinate mapping, row packing, ticks, gestures

    Shallow embedding of the pure helpers ([getTaskPosition], [assignRows],
    [generateTicks]) and of the event handlers and derived values of the
    [Timeline] component.

    Numbers.  Instants are the results of [Date.getTime()]: integral
    milliseconds, modelled in [Z].  Pixel positions, pointer coordinates and
    the per-zoom ratios are JavaScript numbers; they are modelled as exact
    rationals in [Q], compared up to [Qeq].  Where the source divides by a
    ratio that it computes ([getTaskPosition], called by the sub-timeline)
    the result is a [Num]: a finite rational, the negative zero, an infinity
    or NaN.  ISO strings are identified with the instant they denote.  The
    clock is an argument of what reads it: every render takes its own
    reading of [Date.now()].

    Effects.  A handler is a function from the state it reads to the state it
    sets and the list of calls it makes on [onTaskScheduleUpdate]; events are
    handled one at a time, each on the state the previous one left.  The
    [while] loop of [generateTicks] takes fuel, and is shown to end. *)

From Stdlib Require Import ZArith QArith Qround Qabs Qminmax Lqa Lia.
From Stdlib Require Import List String Bool Permutation.
Import ListNotations.

Open Scope Q_scope.
Set Warnings "-register-all".

(** ** JavaScript number helpers *)

(** [a <= b] and [a < b] on numbers. *)
Definition Qleb (a b : Q) : bool := Qle_bool a b.
Definition Qltb (a b : Q) : bool := negb (Qle_bool b a).

(** [Math.round]: nearest integer, ties towards +infinity. *)
Definition Math_round (x : Q) : Z := Qfloor (x + (1 # 2)).

(** A number where a division can leave the finite values: a finite value,
    held exactly ([Fin 0] is the positive zero), the negative zero, an
    infinity or NaN. *)
Inductive Num := Fin (q : Q) | NegZero | Infinity | NegInfinity | NaN.

(** The sign bit of a number that is not NaN. *)
Definition signBit (x : Num) : bool :=
  match x with
  | Fin q => Qltb q 0
  | NegZero | NegInfinity => true
  | Infinity | NaN => false
  end.

Definition signedZero (negative : bool) : Num := if negative then NegZero else Fin 0.

Definition signedInfinity (negative : bool) : Num :=
  if negative then NegInfinity else Infinity.

(** [a / b]: NaN for [0 / 0] and for an infinity over an infinity, an
    infinity for any other division by a zero, a zero for a finite number over
    an infinity; the sign is the product of the signs. *)
Definition Num_div (a b : Num) : Num :=
  let s := xorb (signBit a) (signBit b) in
  match a, b with
  | NaN, _ | _, NaN => NaN
  | (Infinity | NegInfinity), (Infinity | NegInfinity) => NaN
  | (Infinity | NegInfinity), _ => signedInfinity s
  | _, (Infinity | NegInfinity) => signedZero s
  | Fin p, Fin q =>
      if Qeq_bool q 0 then (if Qeq_bool p 0 then NaN else signedInfinity s)
      else if Qeq_bool p 0 then signedZero s
      else Fin (p / q)
  | NegZero, Fin q => if Qeq_bool q 0 then NaN else signedZero s
  | Fin p, NegZero => if Qeq_bool p 0 then NaN else signedInfinity s
  | NegZero, NegZero => NaN
  end.

(** [a - b]. *)
Definition Num_sub (a b : Num) : Num :=
  match a, b with
  | NaN, _ | _, NaN => NaN
  | Infinity, Infinity | NegInfinity, NegInfinity => NaN
  | Infinity, _ | _, NegInfinity => Infinity
  | NegInfinity, _ | _, Infinity => NegInfinity
  | Fin p, Fin q => Fin (p - q)
  | Fin p, NegZero => Fin p
  | NegZero, Fin q => if Qeq_bool q 0 then NegZero else Fin (- q)
  | NegZero, NegZero => Fin 0
  end.

(** [a + b]. *)
Definition Num_add (a b : Num) : Num :=
  match a, b with
  | NaN, _ | _, NaN => NaN
  | Infinity, NegInfinity | NegInfinity, Infinity => NaN
  | Infinity, _ | _, Infinity => Infinity
  | NegInfinity, _ | _, NegInfinity => NegInfinity
  | Fin p, Fin q => Fin (p + q)
  | Fin p, NegZero | NegZero, Fin p => Fin p
  | NegZero, NegZero => NegZero
  end.

(** [Math.min(a, b)] and [Math.max(a, b)]: NaN when an argument is NaN; the
    negative zero is below the positive one. *)
Definition Math_min (a b : Num) : Num :=
  match a, b with
  | NaN, _ | _, NaN => NaN
  | NegInfinity, _ | _, NegInfinity => NegInfinity
  | Infinity, x | x, Infinity => x
  | Fin p, Fin q => Fin (Qmin p q)
  | NegZero, Fin q | Fin q, NegZero => if Qltb q 0 then Fin q else NegZero
  | NegZero, NegZero => NegZero
  end.

Definition Math_max (a b : Num) : Num :=
  match a, b with
  | NaN, _ | _, NaN => NaN
  | Infinity, _ | _, Infinity => Infinity
  | NegInfinity, x | x, NegInfinity => x
  | Fin p, Fin q => Fin (Qmax p q)
  | NegZero, Fin q | Fin q, NegZero => if Qltb q 0 then NegZero else Fin q
  | NegZero, NegZero => NegZero
  end.

(** The value of a finite number; both zeros are 0.  Used only where the
    number is finite. *)
Definition Num_value (x : Num) : Q :=
  match x with
  | Fin q => q
  | _ => 0
  end.

(** [a < b] and [a <= b]: false when an argument is NaN. *)
Definition Num_ltb (a b : Num) : bool :=
  match a, b with
  | NaN, _ | _, NaN => false
  | _, NegInfinity | Infinity, _ => false
  | NegInfinity, _ | _, Infinity => true
  | _, _ => Qltb (Num_value a) (Num_value b)
  end.

Definition Num_leb (a b : Num) : bool :=
  match a, b with
  | NaN, _ | _, NaN => false
  | NegInfinity, _ | _, Infinity => true
  | _, NegInfinity | Infinity, _ => false
  | _, _ => Qleb (Num_value a) (Num_value b)
  end.

(** ** Zoom model *)

Inductive ZoomLevel := months | weeks | days | hours | minutes.

(** The [format] argument is a string in the source; the five formats of the
    zoom table are named, every other string takes the [default] branches. *)
Inductive Format := Fmonth | Fweek | Fday | Fhour | Fminute | Fother.

Record ZoomConfig := {
  msPerPixel : Q;
  tickInterval : Z;
  format : Format;
  minTickSpacing : Q
}.

Definition ZOOM_CONFIGS (z : ZoomLevel) : ZoomConfig :=
  match z with
  | months  => {| msPerPixel := inject_Z (86400000 * 7); tickInterval := 86400000 * 30;
                  format := Fmonth; minTickSpacing := 50 |}
  | weeks   => {| msPerPixel := 86400000; tickInterval := 86400000 * 7;
                  format := Fweek; minTickSpacing := 45 |}
  | days    => {| msPerPixel := 86400000 / 40; tickInterval := 86400000;
                  format := Fday; minTickSpacing := 35 |}
  | hours   => {| msPerPixel := 3600000 / 40; tickInterval := 3600000;
                  format := Fhour; minTickSpacing := 35 |}
  | minutes => {| msPerPixel := 60000 / 35; tickInterval := 60000;
                  format := Fminute; minTickSpacing := 30 |}
  end.

Definition TOUCH_MOVE_THRESHOLD : Q := 10.

(** [zoomConfig.tickInterval / 4].  The quotient is exact at every zoom level
    (see [snapInterval_exact]), so the integer division is the source's. *)
Definition snapInterval (z : ZoomLevel) : Z := (tickInterval (ZOOM_CONFIGS z) / 4)%Z.

(** ** Schedules and tasks *)

Inductive Schedule :=
| ScheduleRange (start_iso end_iso : Z)
| SchedulePoint (point_iso : Z).

Inductive Task := mkTask {
  id : string;
  color : string;
  schedule : option Schedule;
  subtasks : list Task
}.

Inductive Mode := move | resize_start | resize_end.

(** ** Drag gestures *)

Record DragState := {
  drag_taskId : string;
  drag_mode : Mode;
  startMouseX : Q;
  drag_originalSchedule : Schedule
}.

Record TouchState := {
  touch_taskId : string;
  touch_mode : Mode;
  startTouchX : Q;
  startTouchY : Q;
  touch_originalSchedule : Schedule;
  isActive : bool
}.

(** One call of [onTaskScheduleUpdate(taskId, schedule)]. *)
Definition Update : Type := string * Schedule.

(** [Math.round(deltaMs / snapInterval) * snapInterval] with
    [deltaMs = -deltaX * zoomConfig.msPerPixel]. *)
Definition snappedDeltaMs (z : ZoomLevel) (deltaX : Q) : Z :=
  let deltaMs := - deltaX * msPerPixel (ZOOM_CONFIGS z) in
  (Math_round (deltaMs / inject_Z (snapInterval z)) * snapInterval z)%Z.

(** The body shared verbatim by [handleMouseMove] and [handleTouchMove] from
    [const original = ...] on: the schedule passed to the callback. *)
Definition draggedSchedule (z : ZoomLevel) (mode : Mode) (original : Schedule)
    (snapped : Z) : Schedule :=
  match original with
  | ScheduleRange start_iso end_iso =>
      let newStart := start_iso in
      let newEnd := end_iso in
      match mode with
      | move => ScheduleRange (newStart + snapped) (newEnd + snapped)
      | resize_start =>
          let newStart := (newStart + snapped)%Z in
          let newStart := if (newStart >=? newEnd)%Z
                          then (newEnd - snapInterval z)%Z else newStart in
          ScheduleRange newStart newEnd
      | resize_end =>
          let newEnd := (newEnd + snapped)%Z in
          let newEnd := if (newEnd <=? newStart)%Z
                        then (newStart + snapInterval z)%Z else newEnd in
          ScheduleRange newStart newEnd
      end
  | SchedulePoint point_iso => SchedulePoint (point_iso + snapped)
  end.

(** [handleMouseMove] of the drag effect.  [hasCallback] says whether the
    optional prop [onTaskScheduleUpdate] was supplied; the result lists the
    calls made on it. *)
Definition handleMouseMove (hasCallback : bool) (z : ZoomLevel)
    (dragState : option DragState) (clientX : Q) : list Update :=
  match dragState with
  | None => []
  | Some ds =>
      if negb hasCallback then [] else
      let deltaX := clientX - startMouseX ds in
      [(drag_taskId ds,
        draggedSchedule z (drag_mode ds) (drag_originalSchedule ds)
          (snappedDeltaMs z deltaX))]
  end.

(** The touch side of the component: the [touchState] cell and whether the
    long-press timer stored in [touchTimeoutRef] is still pending. *)
Record TouchCell := {
  touchState : option TouchState;
  timerPending : bool
}.

Definition clearTouchTimeout (c : TouchCell) : TouchCell :=
  {| touchState := touchState c; timerPending := false |}.

Definition setTouchState (s : option TouchState) (c : TouchCell) : TouchCell :=
  {| touchState := s; timerPending := timerPending c |}.

Definition activate (ts : TouchState) : TouchState :=
  {| touch_taskId := touch_taskId ts; touch_mode := touch_mode ts;
     startTouchX := startTouchX ts; startTouchY := startTouchY ts;
     touch_originalSchedule := touch_originalSchedule ts; isActive := true |}.

(** [handleTaskTouchStart]. *)
Definition handleTaskTouchStart (isLocked : bool) (task : Task) (mode : Mode)
    (clientX clientY : Q) (c : TouchCell) : TouchCell :=
  match schedule task with
  | None => c
  | Some sch =>
      if negb isLocked then c else
      {| touchState := Some {| touch_taskId := id task; touch_mode := mode;
                               startTouchX := clientX; startTouchY := clientY;
                               touch_originalSchedule := sch; isActive := false |};
         timerPending := true |}
  end.

(** The long-press timer callback:
    [setTouchState(prev => prev ? { ...prev, isActive: true } : null)]. *)
Definition longPressFires (c : TouchCell) : TouchCell :=
  {| touchState := option_map activate (touchState c); timerPending := false |}.

(** [handleTouchMove]: the new cell and the calls made on the callback. *)
Definition handleTouchMove (hasCallback : bool) (z : ZoomLevel)
    (clientX clientY : Q) (c : TouchCell) : TouchCell * list Update :=
  match touchState c with
  | None => (c, [])
  | Some ts =>
      if negb hasCallback then (c, []) else
      let deltaX := clientX - startTouchX ts in
      let deltaY := clientY - startTouchY ts in
      let emit (c' : TouchCell) :=
        (c', [(touch_taskId ts,
               draggedSchedule z (touch_mode ts) (touch_originalSchedule ts)
                 (snappedDeltaMs z deltaX))]) in
      if negb (isActive ts) then
        if Qltb TOUCH_MOVE_THRESHOLD (Qabs deltaX)
           || Qltb TOUCH_MOVE_THRESHOLD (Qabs deltaY)
        then
          if Qltb (Qabs deltaX) (Qabs deltaY)
          then (clearTouchTimeout (setTouchState None c), [])
          else emit (clearTouchTimeout (setTouchState (Some (activate ts)) c))
        else (c, [])
      else emit c
  end.

(** [handleTouchEnd]. *)
Definition handleTouchEnd (c : TouchCell) : TouchCell :=
  clearTouchTimeout (setTouchState None c).

(** Events of one touch interaction after its [touchstart]. *)
Inductive TouchEvent :=
| TouchMove (clientX clientY : Q)
| TouchEnd
| LongPress.

Definition touchStep (hasCallback : bool) (z : ZoomLevel) (ev : TouchEvent)
    (c : TouchCell) : TouchCell * list Update :=
  match ev with
  | TouchMove x y => handleTouchMove hasCallback z x y c
  | TouchEnd => (handleTouchEnd c, [])
  | LongPress => if timerPending c then (longPressFires c, []) else (c, [])
  end.

(** All calls made while the events of [evs] are delivered in order. *)
Fixpoint touchRun (hasCallback : bool) (z : ZoomLevel) (evs : list TouchEvent)
    (c : TouchCell) : TouchCell * list Update :=
  match evs with
  | [] => (c, [])
  | ev :: rest =>
      let '(c1, out1) := touchStep hasCallback z ev c in
      let '(c2, out2) := touchRun hasCallback z rest c1 in
      (c2, out1 ++ out2)
  end.

(** ** Sorting

    [Array.prototype.sort] is stable; with a consistent comparator its result
    is the unique stable ordering, computed here by insertion.  [leb a b]
    stands for [compare(a, b) <= 0]. *)

Section Sort.
Context {A : Type} (leb : A -> A -> bool).

Fixpoint insert (a : A) (l : list A) : list A :=
  match l with
  | [] => [a]
  | b :: l' => if leb a b then a :: b :: l' else b :: insert a l'
  end.

Fixpoint sort (l : list A) : list A :=
  match l with
  | [] => []
  | a :: l' => insert a (sort l')
  end.
End Sort.

(** ** Projection of a schedule to pixels *)

Record Position := {
  pos_startX : Num;
  pos_endX : Num;
  pos_isPoint : bool
}.

(** [getTaskPosition].  The start and the width of the timeline are finite
    at every call; the ratio is the zoom table's at the main timeline and a
    quotient, which need not be finite or non-zero, at the sub-timeline. *)
Definition getTaskPosition (task : Task) (timelineStart : Q) (msPerPixel : Num)
    (timelineWidth : Q) : option Position :=
  match schedule task with
  | None => None
  | Some (ScheduleRange taskStart taskEnd) =>
      let startX := Num_sub (Fin timelineWidth)
                      (Num_div (Fin (inject_Z taskStart - timelineStart)) msPerPixel) in
      let endX := Num_sub (Fin timelineWidth)
                    (Num_div (Fin (inject_Z taskEnd - timelineStart)) msPerPixel) in
      Some {| pos_startX := Math_min startX endX; pos_endX := Math_max startX endX;
              pos_isPoint := false |}
  | Some (SchedulePoint pointTime) =>
      let x := Num_sub (Fin timelineWidth)
                 (Num_div (Fin (inject_Z pointTime - timelineStart)) msPerPixel) in
      Some {| pos_startX := Num_sub x (Fin 4); pos_endX := Num_add x (Fin 4);
              pos_isPoint := true |}
  end.

(** ** Task bars and row packing *)

(** [Omit<TaskBar, 'row'>]. *)
Record Bar := {
  bar_task : Task;
  startX : Q;
  endX : Q;
  bar_color : string;
  isPoint : bool
}.

Record TaskBar := {
  bar : Bar;
  row : nat
}.

(** The [for] loop of the callback: the first index [i] with
    [rows[i].endX <= bar.startX], if any.  A row is its tracked [endX]. *)
Fixpoint firstFit (rows : list Q) (barStartX : Q) : option nat :=
  match rows with
  | [] => None
  | rowEndX :: rest =>
      if Qleb rowEndX barStartX then Some O
      else option_map S (firstFit rest barStartX)
  end.

(** [l[i] = v] for an index inside the array. *)
Fixpoint setNth {A : Type} (l : list A) (i : nat) (v : A) : list A :=
  match l, i with
  | [], _ => []
  | _ :: rest, O => v :: rest
  | a :: rest, S i' => a :: setNth rest i' v
  end.

(** The callback of [sorted.map] run over the sorted bars, threading the
    mutable [rows] array: [rows[i].endX = bar.endX] or [rows.push]. *)
Fixpoint assignLoop (rows : list Q) (sorted : list Bar) : list TaskBar :=
  match sorted with
  | [] => []
  | b :: rest =>
      match firstFit rows (startX b) with
      | Some i => {| bar := b; row := i |} :: assignLoop (setNth rows i (endX b)) rest
      | None => {| bar := b; row := List.length rows |} :: assignLoop (rows ++ [endX b]) rest
      end
  end.

(** The [rows] array once the loop is over. *)
Fixpoint rowsAfter (rows : list Q) (sorted : list Bar) : list Q :=
  match sorted with
  | [] => rows
  | b :: rest =>
      match firstFit rows (startX b) with
      | Some i => rowsAfter (setNth rows i (endX b)) rest
      | None => rowsAfter (rows ++ [endX b]) rest
      end
  end.

Definition sortByStartX (taskBars : list Bar) : list Bar :=
  sort (fun a b => Qleb (startX a) (startX b)) taskBars.

Definition assignRows (taskBars : list Bar) : list TaskBar :=
  assignLoop [] (sortByStartX taskBars).

(** Number of rows in use: [maxRow + 1] of the component. *)
Definition rowsUsed (tbs : list TaskBar) : nat :=
  fold_right (fun tb acc => Nat.max (S (row tb)) acc) O tbs.

Definition TASK_COLORS : list string :=
  ["#3b82f6"; "#10b981"; "#f59e0b"; "#ef4444";
   "#8b5cf6"; "#ec4899"; "#06b6d4"; "#f97316"]%string.

Record Hint := {
  hint_task : Task;
  hint_color : string
}.

(** The three arrays filled by the [tasks.forEach] of the [taskBars] memo. *)
Record Derived := {
  bars : list Bar;
  leftHintTasks : list Hint;
  rightHintTasks : list Hint
}.

Definition taskColor (task : Task) (index : nat) : string :=
  if String.eqb (color task) "auto"
  then nth (index mod List.length TASK_COLORS) TASK_COLORS ""%string
  else color task.

(** One call of the [forEach] callback.  The ratio is [zoomConfig.msPerPixel].
    A pushed bar holds finite numbers: in its branch [pos.startX] is not
    above [width] and [pos.endX] not below 0, so the maximum with 0 and the
    minimum with [width] are finite. *)
Definition visitTask (visibleStart msPerPixel width : Q) (task : Task) (index : nat)
    (acc : Derived) : Derived :=
  match schedule task with
  | None => acc
  | Some _ =>
      let color := taskColor task index in
      match getTaskPosition task visibleStart (Fin msPerPixel) width with
      | None => acc
      | Some pos =>
          if Num_leb (Fin 0) (pos_endX pos) && Num_leb (pos_startX pos) (Fin width) then
            {| bars := bars acc ++
                 [{| bar_task := task;
                     startX := Num_value (Math_max (Fin 0) (pos_startX pos));
                     endX := Num_value (Math_min (Fin width) (pos_endX pos));
                     bar_color := color;
                     isPoint := pos_isPoint pos |}];
               leftHintTasks := leftHintTasks acc;
               rightHintTasks := rightHintTasks acc |}
          else if Num_ltb (pos_endX pos) (Fin 0) then
            {| bars := bars acc;
               leftHintTasks := leftHintTasks acc ++ [{| hint_task := task; hint_color := color |}];
               rightHintTasks := rightHintTasks acc |}
          else if Num_ltb (Fin width) (pos_startX pos) then
            {| bars := bars acc;
               leftHintTasks := leftHintTasks acc;
               rightHintTasks := rightHintTasks acc ++ [{| hint_task := task; hint_color := color |}] |}
          else acc
      end
  end.

Fixpoint forEachTask (visibleStart msPerPixel width : Q) (tasks : list Task)
    (index : nat) (acc : Derived) : Derived :=
  match tasks with
  | [] => acc
  | task :: rest =>
      forEachTask visibleStart msPerPixel width rest (S index)
        (visitTask visibleStart msPerPixel width task index acc)
  end.

Definition deriveBars (tasks : list Task) (visibleStart msPerPixel width : Q) : Derived :=
  forEachTask visibleStart msPerPixel width tasks 0
    {| bars := []; leftHintTasks := []; rightHintTasks := [] |}.

(** The memo's result: [{ taskBars: assignRows(bars), leftHints, rightHints }]. *)
Definition taskBars (tasks : list Task) (visibleStart msPerPixel width : Q) : list TaskBar :=
  assignRows (bars (deriveBars tasks visibleStart msPerPixel width)).

(** ** View controller *)

Record TimeRange := {
  tr_start_iso : Z;
  tr_end_iso : Z
}.

Record ViewState := {
  zoomLevel : ZoomLevel;
  panOffset : Q;
  expandedTaskId : option string;
  focusedTaskId : option string
}.

(** [Math.max(timelineStart, Math.min(timelineEnd, now))]. *)
Definition clampedNow (timeRange : TimeRange) (now : Z) : Z :=
  Z.max (tr_start_iso timeRange) (Z.min (tr_end_iso timeRange) now).

Definition visibleDuration (width : Q) (v : ViewState) : Q :=
  width * msPerPixel (ZOOM_CONFIGS (zoomLevel v)).

Definition centerTime (timeRange : TimeRange) (now : Z) (v : ViewState) : Q :=
  inject_Z (clampedNow timeRange now) + panOffset v.

Definition visibleStart (timeRange : TimeRange) (now : Z) (width : Q) (v : ViewState) : Q :=
  centerTime timeRange now v - visibleDuration width v / 2.

Definition visibleEnd (timeRange : TimeRange) (now : Z) (width : Q) (v : ViewState) : Q :=
  centerTime timeRange now v + visibleDuration width v / 2.

(** The instant a scheduled task is sorted and centred by. *)
Definition scheduleTime (s : Schedule) : Z :=
  match s with
  | ScheduleRange start_iso _ => start_iso
  | SchedulePoint point_iso => point_iso
  end.

Record Scheduled := {
  sched_task : Task;
  time : Z
}.

Fixpoint scheduledTasks (tasks : list Task) : list Scheduled :=
  match tasks with
  | [] => []
  | t :: rest =>
      match schedule t with
      | Some s => {| sched_task := t; time := scheduleTime s |} :: scheduledTasks rest
      | None => scheduledTasks rest
      end
  end.

Definition sortedScheduledTasks (tasks : list Task) : list Scheduled :=
  sort (fun a b => (time a <=? time b)%Z) (scheduledTasks tasks).

(** [navigateToTask]: the state after the two setters ran, unchanged when the
    index is out of range. *)
Definition navigateToTask (tasks : list Task) (timeRange : TimeRange) (now : Z)
    (taskIndex : Z) (v : ViewState) : ViewState :=
  let sorted := sortedScheduledTasks tasks in
  if ((taskIndex <? 0) || (taskIndex >=? Z.of_nat (List.length sorted)))%Z then v else
  match nth_error sorted (Z.to_nat taskIndex) with
  | None => v
  | Some target =>
      let newPanOffset := (time target - clampedNow timeRange now)%Z in
      {| zoomLevel := zoomLevel v;
         panOffset := inject_Z newPanOffset;
         expandedTaskId := expandedTaskId v;
         focusedTaskId := Some (id (sched_task target)) |}
  end.

(** ** Dates

    A [Date] is its time value.  The accessors and setters follow the
    ECMAScript definitions; those of the tick loop take the local time zone
    to be UTC, [createDefaultTimeRange] takes the zone offsets of the host.
    Time values are assumed to stay inside the range of valid dates. *)

Open Scope Z_scope.

Definition msPerDay : Z := 86400000.
Definition msPerHour : Z := 3600000.
Definition msPerMinute : Z := 60000.
Definition msPerSecond : Z := 1000.

Definition Day (t : Z) : Z := t / msPerDay.
Definition TimeWithinDay (t : Z) : Z := t mod msPerDay.

Definition DayFromYear (y : Z) : Z :=
  365 * (y - 1970) + (y - 1969) / 4 - (y - 1901) / 100 + (y - 1601) / 400.

(** 1 in a leap year, else 0. *)
Definition InLeapYear (y : Z) : Z :=
  if (y mod 4 =? 0) && (negb (y mod 100 =? 0) || (y mod 400 =? 0)) then 1 else 0.

(** The year containing day [Day t], by the era decomposition of the
    proleptic Gregorian calendar (years counted from 1 March). *)
Definition YearFromTime (t : Z) : Z :=
  let z := Day t + 719468 in
  let era := z / 146097 in
  let doe := z mod 146097 in
  let yoe := (doe - doe / 1460 + doe / 36524 - doe / 146096) / 365 in
  let doy := doe - (365 * yoe + yoe / 4 - yoe / 100) in
  let mp := (5 * doy + 2) / 153 in
  if mp <? 10 then yoe + era * 400 else yoe + era * 400 + 1.

Definition DayWithinYear (t : Z) : Z := Day t - DayFromYear (YearFromTime t).

(** Day number, within its year, of the first day of month [mn] (0..11). *)
Definition monthStart (mn leap : Z) : Z :=
  if mn =? 0 then 0
  else if mn =? 1 then 31
  else if mn =? 2 then 59 + leap
  else if mn =? 3 then 90 + leap
  else if mn =? 4 then 120 + leap
  else if mn =? 5 then 151 + leap
  else if mn =? 6 then 181 + leap
  else if mn =? 7 then 212 + leap
  else if mn =? 8 then 243 + leap
  else if mn =? 9 then 273 + leap
  else if mn =? 10 then 304 + leap
  else 334 + leap.

Definition MonthFromTime (t : Z) : Z :=
  let d := DayWithinYear t in
  let leap := InLeapYear (YearFromTime t) in
  if d <? 31 then 0
  else if d <? 59 + leap then 1
  else if d <? 90 + leap then 2
  else if d <? 120 + leap then 3
  else if d <? 151 + leap then 4
  else if d <? 181 + leap then 5
  else if d <? 212 + leap then 6
  else if d <? 243 + leap then 7
  else if d <? 273 + leap then 8
  else if d <? 304 + leap then 9
  else if d <? 334 + leap then 10
  else 11.

Definition DateFromTime (t : Z) : Z :=
  DayWithinYear t - monthStart (MonthFromTime t) (InLeapYear (YearFromTime t)) + 1.

Definition WeekDay (t : Z) : Z := (Day t + 4) mod 7.
Definition HourFromTime (t : Z) : Z := (t mod msPerDay) / msPerHour.
Definition MinFromTime (t : Z) : Z := (t mod msPerHour) / msPerMinute.
Definition SecFromTime (t : Z) : Z := (t mod msPerMinute) / msPerSecond.
Definition msFromTime (t : Z) : Z := t mod msPerSecond.

Definition MakeTime (hour min sec ms : Z) : Z :=
  hour * msPerHour + min * msPerMinute + sec * msPerSecond + ms.

Definition MakeDay (year month date : Z) : Z :=
  let ym := year + month / 12 in
  let mn := month mod 12 in
  DayFromYear ym + monthStart mn (InLeapYear ym) + date - 1.

Definition MakeDate (day time : Z) : Z := day * msPerDay + time.

(** [new Date(year, month, date, hours, minutes)]; a year in 0..99 means
    1900 + year. *)
Definition newDate (year month date hours minutes : Z) : Z :=
  let yr := if (0 <=? year) && (year <=? 99) then 1900 + year else year in
  MakeDate (MakeDay yr month date) (MakeTime hours minutes 0 0).

Definition setMonth (t month : Z) : Z :=
  MakeDate (MakeDay (YearFromTime t) month (DateFromTime t)) (TimeWithinDay t).

Definition setDate (t date : Z) : Z :=
  MakeDate (MakeDay (YearFromTime t) (MonthFromTime t) date) (TimeWithinDay t).

Definition setHours (t hours : Z) : Z :=
  MakeDate (Day t) (MakeTime hours (MinFromTime t) (SecFromTime t) (msFromTime t)).

(** [setHours(0, 0, 0, 0)]. *)
Definition setHours0000 (t : Z) : Z := MakeDate (Day t) (MakeTime 0 0 0 0).

Definition setMinutes (t min : Z) : Z :=
  MakeDate (Day t) (MakeTime (HourFromTime t) min (SecFromTime t) (msFromTime t)).

(** [new Date(value)] of a number: the fractional part is dropped. *)
Definition dateOfNumber (value : Q) : Z := Z.quot (Qnum value) (Zpos (Qden value)).

Close Scope Z_scope.

(** ** Tick generation *)

(** A tick; [tick_time] is the instant [formatDate] renders as the label. *)
Record Tick := {
  tick_x : Q;
  tick_time : Z
}.

(** The first [switch] of [generateTicks]: the initial [currentDate]. *)
Definition firstTickDate (fmt : Format) (timelineStart : Q) : Z :=
  let startDate := dateOfNumber timelineStart in
  match fmt with
  | Fmonth => newDate (YearFromTime startDate) (MonthFromTime startDate) 1 0 0
  | Fweek =>
      let currentDate := startDate in
      let currentDate := setDate currentDate (DateFromTime currentDate - WeekDay currentDate) in
      setHours0000 currentDate
  | Fday =>
      newDate (YearFromTime startDate) (MonthFromTime startDate) (DateFromTime startDate) 0 0
  | Fhour =>
      newDate (YearFromTime startDate) (MonthFromTime startDate) (DateFromTime startDate)
        (HourFromTime startDate) 0
  | Fminute =>
      newDate (YearFromTime startDate) (MonthFromTime startDate) (DateFromTime startDate)
        (HourFromTime startDate) (MinFromTime startDate)
  | Fother => startDate
  end.

Definition advanceDate (fmt : Format) (date : Z) : Z :=
  let newDate := date in
  match fmt with
  | Fmonth => setMonth newDate (MonthFromTime newDate + 1)
  | Fweek => setDate newDate (DateFromTime newDate + 7)
  | Fday => setDate newDate (DateFromTime newDate + 1)
  | Fhour => setHours newDate (HourFromTime newDate + 1)
  | Fminute => setMinutes newDate (MinFromTime newDate + 1)
  | Fother => newDate
  end.

(** The variables of the [while] loop. *)
Record TickLoop := {
  currentDate : Z;
  ticks : list Tick;
  lastAddedX : option Q;
  tickCount : Z
}.

Section GenerateTicks.
Variables (timelineStart timelineEnd : Q) (fmt : Format).
Variables (timelineWidth msPerPixel_ minTickSpacing_ : Q).

Definition loopGuard (st : TickLoop) : bool :=
  Qleb (inject_Z (currentDate st)) timelineEnd && (tickCount st <? 100)%Z.

(** The loop body up to and including [currentDate = advanceDate(currentDate)]. *)
Definition loopBody (st : TickLoop) : TickLoop :=
  let time := currentDate st in
  let st1 :=
    if Qleb timelineStart (inject_Z time) then
      let x := timelineWidth - (inject_Z time - timelineStart) / msPerPixel_ in
      if Qleb 0 x && Qleb x timelineWidth then
        let shouldAdd :=
          match lastAddedX st with
          | None => true
          | Some last => Qleb minTickSpacing_ (Qabs (x - last))
          end in
        if shouldAdd then
          {| currentDate := currentDate st;
             ticks := ticks st ++ [{| tick_x := x; tick_time := time |}];
             lastAddedX := Some x;
             tickCount := (tickCount st + 1)%Z |}
        else st
      else st
    else st in
  {| currentDate := advanceDate fmt (currentDate st1);
     ticks := ticks st1;
     lastAddedX := lastAddedX st1;
     tickCount := tickCount st1 |}.

(** The [while] loop, with the number of times its body ran.  [None]: the
    loop is still running after [fuel] iterations. *)
Fixpoint whileLoop (fuel : nat) (st : TickLoop) : option (TickLoop * nat) :=
  match fuel with
  | O => None
  | S fuel' =>
      if loopGuard st then
        let st' := loopBody st in
        if (100 <? tickCount st')%Z then Some (st', 1%nat)
        else
          match whileLoop fuel' st' with
          | Some (final, n) => Some (final, S n)
          | None => None
          end
      else Some (st, O)
  end.

Definition initialLoop : TickLoop :=
  {| currentDate := firstTickDate fmt timelineStart;
     ticks := [];
     lastAddedX := None;
     tickCount := 0 |}.
End GenerateTicks.

Definition generateTicks (fuel : nat) (timelineStart timelineEnd : Q) (_tickInterval : Z)
    (fmt : Format) (timelineWidth msPerPixel_ minTickSpacing_ : Q) : option (list Tick) :=
  match whileLoop timelineStart timelineEnd fmt timelineWidth msPerPixel_ minTickSpacing_
          fuel (initialLoop timelineStart fmt) with
  | Some (final, _) => Some (ticks final)
  | None => None
  end.

(** Iterations of the loop in the same call. *)
Definition generateTicks_iterations (fuel : nat) (timelineStart timelineEnd : Q)
    (fmt : Format) (timelineWidth msPerPixel_ minTickSpacing_ : Q) : option nat :=
  match whileLoop timelineStart timelineEnd fmt timelineWidth msPerPixel_ minTickSpacing_
          fuel (initialLoop timelineStart fmt) with
  | Some (_, n) => Some n
  | None => None
  end.

(** The [ticks] memo of the component. *)
Definition timelineTicks (fuel : nat) (timeRange : TimeRange) (now : Z) (width : Q)
    (v : ViewState) : option (list Tick) :=
  let zoomConfig := ZOOM_CONFIGS (zoomLevel v) in
  generateTicks fuel (visibleStart timeRange now width v) (visibleEnd timeRange now width v)
    (tickInterval zoomConfig) (format zoomConfig) width
    (msPerPixel zoomConfig) (minTickSpacing zoomConfig).

Definition timelineTicks_iterations (fuel : nat) (timeRange : TimeRange) (now : Z) (width : Q)
    (v : ViewState) : option nat :=
  let zoomConfig := ZOOM_CONFIGS (zoomLevel v) in
  generateTicks_iterations fuel (visibleStart timeRange now width v)
    (visibleEnd timeRange now width v) (format zoomConfig) width
    (msPerPixel zoomConfig) (minTickSpacing zoomConfig).

(** ** Notions used in the statements *)

(** A step of a drag gesture in mode [mode], begun on a task whose schedule was
    [original], with the pointer [deltaX] pixels from its origin, makes the
    call [u]; through the mouse handler or through the touch handler. *)
Inductive gestureEmits (z : ZoomLevel) (mode : Mode) (original : Schedule)
    (deltaX : Q) (u : Update) : Prop :=
| mouse_emits (hasCallback : bool) (ds : DragState) (clientX : Q) :
    drag_mode ds = mode ->
    drag_originalSchedule ds = original ->
    deltaX = clientX - startMouseX ds ->
    In u (handleMouseMove hasCallback z (Some ds) clientX) ->
    gestureEmits z mode original deltaX u
| touch_emits (hasCallback : bool) (c : TouchCell) (ts : TouchState) (clientX clientY : Q) :
    touchState c = Some ts ->
    touch_mode ts = mode ->
    touch_originalSchedule ts = original ->
    deltaX = clientX - startTouchX ts ->
    In u (snd (handleTouchMove hasCallback z clientX clientY c)) ->
    gestureEmits z mode original deltaX u.

(** The cell of an abandoned touch gesture. *)
Definition touchIdle : TouchCell := {| touchState := None; timerPending := false |}.

(** Two bars overlap when each starts strictly before the other ends; bars
    that only touch ([endX <= startX], the test of the packer) do not. *)
Definition overlap (a b : Bar) : Prop := startX a < endX b /\ startX b < endX a.

(** A row labelling of bars listed in sort order that honours the
    left-to-right constraint: a bar shares a row with an earlier bar only if
    it starts at or after the earlier bar's end. *)
Definition packedInOrder (labelled : list (Bar * nat)) : Prop :=
  ForallOrdPairs
    (fun p q => snd p = snd q -> endX (fst p) <= startX (fst q)) labelled.

(** A bar clamped to the timeline. *)
Definition withinWidth (width : Q) (b : Bar) : Prop :=
  0 <= startX b /\ startX b <= endX b /\ endX b <= width.

(** Between two renders the clamped clock has moved by less than half the
    distance from the instant [t] to any other scheduled instant. *)
Definition driftBelowGaps (sorted : list Scheduled) (timeRange : TimeRange)
    (now1 now2 : Z) (t : Z) : Prop :=
  forall s, In s sorted -> time s <> t ->
    (2 * Z.abs (clampedNow timeRange now2 - clampedNow timeRange now1)
     < Z.abs (time s - t))%Z.

(** A bar is the clamped projection of its task: its ends are
    [max(0, pos.startX)] and [min(width, pos.endX)] of the task's position,
    which is finite, and it keeps the position's [isPoint]. *)
Definition clampedProjection (visibleStart_ mpp width : Q) (b : Bar) : Prop :=
  exists sx ex,
    getTaskPosition (bar_task b) visibleStart_ (Fin mpp) width
    = Some {| pos_startX := Fin sx; pos_endX := Fin ex; pos_isPoint := isPoint b |}
    /\ startX b = Qmax 0 sx /\ endX b = Qmin width ex.

(** Both: the clamped projection of its task, inside the timeline. *)
Definition clampedWithin (visibleStart_ mpp width : Q) (b : Bar) : Prop :=
  clampedProjection visibleStart_ mpp width b /\ withinWidth width b.

(** [clamp(x, lo, hi)]. *)
Definition clamp (x lo hi : Z) : Z :=
  if (x <? lo)%Z then lo else if (hi <? x)%Z then hi else x.

(** Pixel of an instant on the right-to-left axis, as the source computes it
    from a ratio that need not be finite or non-zero. *)
Definition pixelAt (timelineStart : Q) (ratio : Num) (timelineWidth : Q) (t : Z) : Num :=
  Num_sub (Fin timelineWidth) (Num_div (Fin (inject_Z t - timelineStart)) ratio).

(** Pixel of an instant on the right-to-left axis, for a finite non-zero
    ratio. *)
Definition pixelOf (timelineStart msPerPixel_ timelineWidth : Q) (t : Z) : Q :=
  timelineWidth - (inject_Z t - timelineStart) / msPerPixel_.

(** The array a projected interval is pushed to by the [forEach] callback,
    following its [if] / [else if] chain. *)
Inductive Placement := Visible | LeftHint | RightHint.

Definition placement (width : Q) (pos : Position) : option Placement :=
  if Num_leb (Fin 0) (pos_endX pos) && Num_leb (pos_startX pos) (Fin width) then Some Visible
  else if Num_ltb (pos_endX pos) (Fin 0) then Some LeftHint
  else if Num_ltb (Fin width) (pos_startX pos) then Some RightHint
  else None.

Definition Placement_eqb (p q : Placement) : bool :=
  match p, q with
  | Visible, Visible | LeftHint, LeftHint | RightHint, RightHint => true
  | _, _ => false
  end.

(** The tasks of a list whose projection is placed as [p], in list order. *)
Definition placedAs (visibleStart msPerPixel_ width : Q) (p : Placement)
    (tasks : list Task) : list Task :=
  filter (fun t =>
            match getTaskPosition t visibleStart (Fin msPerPixel_) width with
            | Some pos =>
                match placement width pos with
                | Some q => Placement_eqb p q
                | None => false
                end
            | None => false
            end) tasks.

(** Consecutive elements of a list are related by [R]. *)
Fixpoint consecutive {A : Type} (R : A -> A -> Prop) (l : list A) : Prop :=
  match l with
  | a :: (b :: _) as rest => R a b /\ consecutive R rest
  | _ => True
  end.

(** The last element of a list, if any. *)
Fixpoint lastOpt {A : Type} (l : list A) : option A :=
  match l with
  | [] => None
  | [a] => Some a
  | _ :: rest => lastOpt rest
  end.

(** What the tick loop maintains: kept ticks lie in [0, width], neighbours
    are at least the minimum spacing apart, [lastAddedX] is the position of
    the last kept tick and [tickCount] counts the kept ticks, never past the
    cap. *)
Definition tickInvariant (timelineWidth minTickSpacing_ : Q) (st : TickLoop) : Prop :=
  Forall (fun t => 0 <= tick_x t /\ tick_x t <= timelineWidth) (ticks st)
  /\ consecutive (fun a b => minTickSpacing_ <= Qabs (tick_x b - tick_x a)) (ticks st)
  /\ lastAddedX st = option_map tick_x (lastOpt (ticks st))
  /\ tickCount st = Z.of_nat (List.length (ticks st))
  /\ (tickCount st <= 100)%Z.

(** ** Fixtures for the examples *)

(** A drag fixture: a task dragged at the [days] zoom level, where the snap
    interval is six hours and ten pixels are six hours. *)
Definition nineHours : Schedule := ScheduleRange 0 32400000.

Definition dragFixture (mode : Mode) : DragState :=
  {| drag_taskId := "t1"; drag_mode := mode; startMouseX := 0;
     drag_originalSchedule := nineHours |}.

Definition scheduledTask : Task :=
  {| id := "t1"; color := "auto"; schedule := Some nineHours; subtasks := [] |}.

(** The cell right after a touch on [scheduledTask] at the origin. *)
Definition touchedCell : TouchCell :=
  handleTaskTouchStart true scheduledTask move 0 0 touchIdle.

(** Four tasks seen at the [days] zoom level from instant 0 on a timeline of
    600 pixels: one visible, one off-screen to the left, one off-screen to the
    right, one without a schedule. *)
Definition fourTasks : list Task :=
  [ {| id := "visible"; color := "auto";
       schedule := Some (ScheduleRange 0 86400000); subtasks := [] |};
    {| id := "left"; color := "auto";
       schedule := Some (ScheduleRange 1400000000 1500000000); subtasks := [] |};
    {| id := "right"; color := "#ef4444";
       schedule := Some (ScheduleRange (-200000000) (-100000000)); subtasks := [] |};
    {| id := "hidden"; color := "auto"; schedule := None; subtasks := [] |} ].

Definition january2026 : TimeRange :=
  {| tr_start_iso := 1767225600000; tr_end_iso := 1769904000000 |}.

Definition initialView (z : ZoomLevel) : ViewState :=
  {| zoomLevel := z; panOffset := 0; expandedTaskId := None; focusedTaskId := None |}.

(** The three bars of the packing example: A = [0,50], B = [30,80],
    C = [60,100]. *)
Definition barOf (name : string) (x1 x2 : Q) : Bar :=
  {| bar_task := {| id := name; color := "auto"; schedule := None; subtasks := [] |};
     startX := x1; endX := x2; bar_color := "#3b82f6"; isPoint := false |}.

Definition barsABC : list Bar := [barOf "A" 0 50; barOf "B" 30 80; barOf "C" 60 100].

(** ** View setters *)

Definition setZoomLevel (z : ZoomLevel) (v : ViewState) : ViewState :=
  {| zoomLevel := z; panOffset := panOffset v;
     expandedTaskId := expandedTaskId v; focusedTaskId := focusedTaskId v |}.

Definition setPanOffset (p : Q) (v : ViewState) : ViewState :=
  {| zoomLevel := zoomLevel v; panOffset := p;
     expandedTaskId := expandedTaskId v; focusedTaskId := focusedTaskId v |}.

Definition setExpandedTaskId (e : option string) (v : ViewState) : ViewState :=
  {| zoomLevel := zoomLevel v; panOffset := panOffset v;
     expandedTaskId := e; focusedTaskId := focusedTaskId v |}.

Definition setFocusedTaskId (f : option string) (v : ViewState) : ViewState :=
  {| zoomLevel := zoomLevel v; panOffset := panOffset v;
     expandedTaskId := expandedTaskId v; focusedTaskId := f |}.

(** ** Keyboard *)

Inductive Key := Escape | ArrowLeft | ArrowRight | ArrowUp | ArrowDown | OtherKey.

Record KeyboardEvent := {
  key : Key;
  shiftKey : bool
}.

(** Truthiness of a [string | null]: [null] and the empty string are falsy. *)
Definition truthy (s : option string) : bool :=
  match s with
  | Some s => negb (String.eqb s "")
  | None => false
  end.

(** [t.id === target] for a [string | null] target. *)
Definition hasId (target : option string) (t : Task) : bool :=
  match target with
  | Some s => String.eqb (id t) s
  | None => false
  end.

(** [array.findIndex(pred)]: -1 when no element matches. *)
Fixpoint findIndex {A : Type} (pred : A -> bool) (l : list A) : Z :=
  match l with
  | [] => (-1)%Z
  | a :: rest =>
      if pred a then 0%Z
      else let i := findIndex pred rest in
           if (i <? 0)%Z then (-1)%Z else (i + 1)%Z
  end.

(** [t.schedule] as a condition. *)
Definition isScheduled (t : Task) : bool :=
  match schedule t with
  | Some _ => true
  | None => false
  end.

(** The schedule built by the shift+arrow branch: both ends of a range, or
    the point, moved by [deltaMs]. *)
Definition shiftedSchedule (s : Schedule) (deltaMs : Z) : Schedule :=
  match s with
  | ScheduleRange start_iso end_iso => ScheduleRange (start_iso + deltaMs) (end_iso + deltaMs)
  | SchedulePoint point_iso => SchedulePoint (point_iso + deltaMs)
  end.

(** The last block of [handleKeyDown]: arrow up / down moves the focus among
    the tasks that have a schedule. *)
Definition focusByArrow (isLocked : bool) (tasks : list Task) (e : KeyboardEvent)
    (v : ViewState) : ViewState :=
  if negb (shiftKey e) && isLocked
     && match key e with ArrowUp | ArrowDown => true | _ => false end
  then
    let visibleTasks := filter isScheduled tasks in
    if (List.length visibleTasks =? 0)%nat then v else
    let currentIndex :=
      if truthy (focusedTaskId v)
      then findIndex (hasId (focusedTaskId v)) visibleTasks
      else (-1)%Z in
    let len := Z.of_nat (List.length visibleTasks) in
    let newIndex :=
      match key e with
      | ArrowUp => if (currentIndex <=? 0)%Z then (len - 1)%Z else (currentIndex - 1)%Z
      | _ => if (currentIndex >=? len - 1)%Z then 0%Z else (currentIndex + 1)%Z
      end in
    match nth_error visibleTasks (Z.to_nat newIndex) with
    | Some t => setFocusedTaskId (Some (id t)) v
    | None => v
    end
  else v.

(** [handleKeyDown]: the view after the setters ran and the calls made on
    [onTaskScheduleUpdate]. *)
Definition handleKeyDown (isLocked hasCallback : bool) (tasks : list Task)
    (e : KeyboardEvent) (v : ViewState) : ViewState * list Update :=
  match key e with
  | Escape =>
      let v1 := if truthy (expandedTaskId v) then setExpandedTaskId None v else v in
      let v2 := if truthy (focusedTaskId v) then setFocusedTaskId None v1 else v1 in
      (v2, [])
  | _ =>
      if shiftKey e && truthy (focusedTaskId v) && isLocked && hasCallback then
        match find (hasId (focusedTaskId v)) tasks with
        | None => (v, [])
        | Some task =>
            match schedule task with
            | None => (v, [])
            | Some sch =>
                let moveAmount := snapInterval (zoomLevel v) in
                let focused := match focusedTaskId v with Some s => s | None => ""%string end in
                let out :=
                  match key e with
                  | ArrowLeft => [(focused, shiftedSchedule sch (1 * moveAmount))]
                  | ArrowRight => [(focused, shiftedSchedule sch (-1 * moveAmount))]
                  | _ => []
                  end in
                (focusByArrow isLocked tasks e v, out)
            end
        end
      else (focusByArrow isLocked tasks e v, [])
  end.

(** ** Zoom steps *)

Definition ZOOM_LEVELS : list ZoomLevel := [months; weeks; days; hours; minutes].

Definition ZoomLevel_eqb (a b : ZoomLevel) : bool :=
  match a, b with
  | months, months | weeks, weeks | days, days | hours, hours | minutes, minutes => true
  | _, _ => false
  end.

(** [ZOOM_LEVELS.indexOf(zoomLevel)]. *)
Definition zoomIndex (z : ZoomLevel) : Z := findIndex (ZoomLevel_eqb z) ZOOM_LEVELS.

(** [setZoomLevel(ZOOM_LEVELS[i])], from level [z]. *)
Definition zoomTo (i : Z) (z : ZoomLevel) : ZoomLevel :=
  nth (Z.to_nat i) ZOOM_LEVELS z.

(** [handleWheel] of the timeline: the level after the event. *)
Definition handleWheel (isLocked isHoveringTimeline : bool) (deltaY : Q)
    (z : ZoomLevel) : ZoomLevel :=
  if negb isLocked || negb isHoveringTimeline then z else
  let currentIndex := zoomIndex z in
  if Qltb 0 deltaY && (0 <? currentIndex)%Z then zoomTo (currentIndex - 1) z
  else if Qltb deltaY 0 && (currentIndex <? Z.of_nat (List.length ZOOM_LEVELS) - 1)%Z
       then zoomTo (currentIndex + 1) z
  else z.

(** [handleZoomIn] and [handleZoomOut] of the project card. *)
Definition handleZoomIn (z : ZoomLevel) : ZoomLevel :=
  let currentIndex := zoomIndex z in
  if (currentIndex <? Z.of_nat (List.length ZOOM_LEVELS) - 1)%Z
  then zoomTo (currentIndex + 1) z else z.

Definition handleZoomOut (z : ZoomLevel) : ZoomLevel :=
  let currentIndex := zoomIndex z in
  if (0 <? currentIndex)%Z then zoomTo (currentIndex - 1) z else z.

(** ** Panning *)

(** What a pan remembers from its start: [panStartX] / [panStartOffset] of the
    mouse pan, [touchPanState] of the touch pan. *)
Record PanStart := {
  panStartX : Q;
  panStartOffset : Q
}.

(** [handleMouseMove] of the pan effect: the new pan offset and [didPanRef]. *)
Definition handlePanMouseMove (z : ZoomLevel) (start : PanStart) (clientX : Q)
    (didPan : bool) : Q * bool :=
  let deltaX := clientX - panStartX start in
  let didPan' := if Qltb 5 (Qabs deltaX) then true else didPan in
  let deltaMs := deltaX * msPerPixel (ZOOM_CONFIGS z) in
  (panStartOffset start + deltaMs, didPan').

(** [handleTouchMoveForPan]: nothing changes within 10 pixels of the start. *)
Definition handleTouchMoveForPan (z : ZoomLevel) (start : PanStart) (clientX : Q)
    (currentPanOffset : Q) (didPan : bool) : Q * bool :=
  let deltaX := clientX - panStartX start in
  if Qltb 10 (Qabs deltaX) then
    let deltaMs := deltaX * msPerPixel (ZOOM_CONFIGS z) in
    (panStartOffset start + deltaMs, true)
  else (currentPanOffset, didPan).

(** ** Expansion *)

(** [handleTaskClick]. *)
Definition handleTaskClick (task : Task) (v : ViewState) : ViewState :=
  if hasId (expandedTaskId v) task then setExpandedTaskId None v
  else if (0 <? List.length (subtasks task))%nat then setExpandedTaskId (Some (id task)) v
  else v.

(** [handleContainerClick]; [onBackground]: the target is the svg, a line or a
    polygon. *)
Definition handleContainerClick (didPan onBackground : bool) (v : ViewState) : ViewState :=
  if didPan then v
  else if onBackground then setExpandedTaskId None v
  else v.

(** The [expandedTask] memo. *)
Definition expandedTask (tasks : list Task) (v : ViewState) : option Task :=
  if negb (truthy (expandedTaskId v)) then None
  else find (hasId (expandedTaskId v)) tasks.

(** ** Lengthening and shortening a range *)

Definition ZOOM_TIME_ADJUSTMENTS (z : ZoomLevel) : Z :=
  match z with
  | months => 86400000 * 30
  | weeks => 86400000 * 7
  | days => 86400000
  | hours => 3600000
  | minutes => 60000
  end%Z.

Definition handleExpandTask (hasCallback : bool) (z : ZoomLevel) (task : Task) : list Update :=
  if negb hasCallback then [] else
  match schedule task with
  | Some (ScheduleRange start_iso end_iso) =>
      let adjustment := ZOOM_TIME_ADJUSTMENTS z in
      let newEnd := (end_iso + adjustment)%Z in
      [(id task, ScheduleRange start_iso newEnd)]
  | _ => []
  end.

Definition handleShrinkTask (hasCallback : bool) (z : ZoomLevel) (task : Task) : list Update :=
  if negb hasCallback then [] else
  match schedule task with
  | Some (ScheduleRange currentStart currentEnd) =>
      let adjustment := ZOOM_TIME_ADJUSTMENTS z in
      let newEnd := (currentEnd - adjustment)%Z in
      if (newEnd <=? currentStart)%Z then []
      else [(id task, ScheduleRange currentStart newEnd)]
  | _ => []
  end.

(** ** Navigation position *)

(** The [for] loop of [currentNavIndex] from index [i] on. *)
Fixpoint closestLoop (rest : list Scheduled) (i : Z) (centre : Q)
    (closestIdx : Z) (closestDist : Q) : Z :=
  match rest with
  | [] => closestIdx
  | s :: rest' =>
      let dist := Qabs (inject_Z (time s) - centre) in
      if Qltb dist closestDist
      then closestLoop rest' (i + 1)%Z centre i dist
      else closestLoop rest' (i + 1)%Z centre closestIdx closestDist
  end.

Definition currentNavIndex (sorted : list Scheduled) (centre : Q) : Z :=
  match sorted with
  | [] => (-1)%Z
  | first :: rest => closestLoop rest 1%Z centre 0%Z (Qabs (inject_Z (time first) - centre))
  end.

(** The index shown by the navigation bar of the component. *)
Definition navIndex (tasks : list Task) (timeRange : TimeRange) (now : Z) (v : ViewState) : Z :=
  currentNavIndex (sortedScheduledTasks tasks) (centerTime timeRange now v).

Definition navigateToNextTask (tasks : list Task) (timeRange : TimeRange) (now : Z)
    (v : ViewState) : ViewState :=
  let i := navIndex tasks timeRange now v in
  if (i <? Z.of_nat (List.length (sortedScheduledTasks tasks)) - 1)%Z
  then navigateToTask tasks timeRange now (i + 1)%Z v else v.

Definition navigateToPrevTask (tasks : list Task) (timeRange : TimeRange) (now : Z)
    (v : ViewState) : ViewState :=
  let i := navIndex tasks timeRange now v in
  if (0 <? i)%Z then navigateToTask tasks timeRange now (i - 1)%Z v else v.

(** ** Vertical layout *)

Definition AXIS_HEIGHT : Z := 30.
Definition TASK_AREA_START : Z := AXIS_HEIGHT + 10.
Definition BAR_HEIGHT : Z := 24.
Definition BAR_GAP : Z := 8.

(** [taskBars.reduce((max, bar) => Math.max(max, bar.row), -1)]. *)
Definition maxRow (tbs : list TaskBar) : Z :=
  fold_left (fun max tb => Z.max max (Z.of_nat (row tb))) tbs (-1)%Z.

(** [(maxRow + 1) * (BAR_HEIGHT + BAR_GAP) || BAR_HEIGHT]. *)
Definition taskAreaHeight (tbs : list TaskBar) : Z :=
  let h := ((maxRow tbs + 1) * (BAR_HEIGHT + BAR_GAP))%Z in
  if (h =? 0)%Z then BAR_HEIGHT else h.

(** The [y] of a bar's rectangle. *)
Definition barY (tb : TaskBar) : Z :=
  (TASK_AREA_START + Z.of_nat (row tb) * (BAR_HEIGHT + BAR_GAP))%Z.

(** The rectangle of a range bar: [x = bar.startX], [y],
    [width = bar.endX - bar.startX], [height = BAR_HEIGHT]. *)
Record Rect := {
  rect_x : Q;
  rect_y : Z;
  rect_width : Q;
  rect_height : Z
}.

Definition barRect (tb : TaskBar) : Rect :=
  {| rect_x := startX (bar tb); rect_y := barY tb;
     rect_width := endX (bar tb) - startX (bar tb); rect_height := BAR_HEIGHT |}.

(** The circle of a point bar: [cx = bar.startX + barWidth / 2],
    [cy = y + BAR_HEIGHT / 2], [r = isBeingDragged ? 10 : 8]. *)
Record Circle := {
  circle_cx : Q;
  circle_cy : Z;
  circle_r : Q
}.

Definition barCircle (isBeingDragged : bool) (tb : TaskBar) : Circle :=
  {| circle_cx := startX (bar tb) + (endX (bar tb) - startX (bar tb)) / 2;
     circle_cy := (barY tb + BAR_HEIGHT / 2)%Z;
     circle_r := if isBeingDragged then 10 else 8 |}.

(** What is drawn for a bar: [bar.isPoint ? <circle> : <rect>]. *)
Inductive BarShape :=
| BarCircle (c : Circle)
| BarRect (r : Rect).

Definition barShape (isBeingDragged : bool) (tb : TaskBar) : BarShape :=
  if isPoint (bar tb) then BarCircle (barCircle isBeingDragged tb)
  else BarRect (barRect tb).


(** Two circles share a point of their interiors. *)
Definition circlesIntersect (a b : Circle) : Prop :=
  (circle_cx a - circle_cx b) * (circle_cx a - circle_cx b)
  + inject_Z ((circle_cy a - circle_cy b) * (circle_cy a - circle_cy b))
  < (circle_r a + circle_r b) * (circle_r a + circle_r b).

(** ** Sub-timeline *)

(** The time range of the sub-timeline: the expanded task's own range, else
    the project's. *)
Definition subTimeRange (timeRange : TimeRange) (expanded : Task) : TimeRange :=
  match schedule expanded with
  | Some (ScheduleRange start_iso end_iso) =>
      {| tr_start_iso := start_iso; tr_end_iso := end_iso |}
  | _ => timeRange
  end.

(** [subDuration / (width - 40)]: zero for a parent that starts and ends at
    one instant, not finite for a width of 40. *)
Definition subMsPerPixel (timeRange : TimeRange) (expanded : Task) (width : Q) : Num :=
  let sub := subTimeRange timeRange expanded in
  let subDuration := (tr_end_iso sub - tr_start_iso sub)%Z in
  Num_div (Fin (inject_Z subDuration)) (Fin (width - 40)).

(** The position computed for one sub-task bar. *)
Definition subTaskPosition (timeRange : TimeRange) (expanded : Task) (width : Q)
    (subTask : Task) : option Position :=
  getTaskPosition subTask
    (inject_Z (tr_start_iso (subTimeRange timeRange expanded)))
    (subMsPerPixel timeRange expanded width) (width - 40).




(** ** Default time range

    [createDefaultTimeRange] reads and sets the month in local time.
    [LocalTZA t isUTC] is the offset of local time from UTC in milliseconds,
    as ECMAScript has it: at the UTC instant [t] when [isUTC] holds, at the
    local time value [t] otherwise.  It is the host's. *)
Definition LocalTime (LocalTZA : Z -> bool -> Z) (t : Z) : Z := (t + LocalTZA t true)%Z.

Definition UTC (LocalTZA : Z -> bool -> Z) (t : Z) : Z := (t - LocalTZA t false)%Z.

(** [Date.prototype.getMonth]. *)
Definition getMonth (LocalTZA : Z -> bool -> Z) (t : Z) : Z :=
  MonthFromTime (LocalTime LocalTZA t).

(** The time value [Date.prototype.setMonth(month)] builds in local time,
    before it is taken back to UTC. *)
Definition localSetMonth (LocalTZA : Z -> bool -> Z) (t month : Z) : Z :=
  let local := LocalTime LocalTZA t in
  MakeDate (MakeDay (YearFromTime local) month (DateFromTime local)) (TimeWithinDay local).

(** [Date.prototype.setMonth(month)] of the host. *)
Definition Date_setMonth (LocalTZA : Z -> bool -> Z) (t month : Z) : Z :=
  UTC LocalTZA (localSetMonth LocalTZA t month).

(** [createDefaultTimeRange]: from now to the same local date of the next
    month. *)
Definition createDefaultTimeRange (LocalTZA : Z -> bool -> Z) (now : Z) : TimeRange :=
  let endDate := now in
  let endDate := Date_setMonth LocalTZA endDate (getMonth LocalTZA endDate + 1) in
  {| tr_start_iso := now; tr_end_iso := endDate |}.

(** ** The store behind [onTaskScheduleUpdate]

    [Task] carries the fields the timeline reads; a [Partial<Task>] carries
    the same fields, each present or absent.  [deepClone] is a JSON round trip
    and returns an equal value. *)

Record PartialTask := {
  upd_id : option string;
  upd_color : option string;
  upd_schedule : option (option Schedule);
  upd_subtasks : option (list Task)
}.

(** [{ ...task, ...updates }]. *)
Definition mergeTask (task : Task) (updates : PartialTask) : Task :=
  {| id := match upd_id updates with Some i => i | None => id task end;
     color := match upd_color updates with Some c => c | None => color task end;
     schedule := match upd_schedule updates with Some s => s | None => schedule task end;
     subtasks := match upd_subtasks updates with Some l => l | None => subtasks task end |}.

(** [{ ...task, subtasks }]. *)
Definition withSubtasks (task : Task) (l : list Task) : Task :=
  {| id := id task; color := color task; schedule := schedule task; subtasks := l |}.

(** The update sent for a schedule change: [{ schedule }]. *)
Definition scheduleUpdate (s : Schedule) : PartialTask :=
  {| upd_id := None; upd_color := None; upd_schedule := Some (Some s);
     upd_subtasks := None |}.

Fixpoint findTaskByPath (tasks : list Task) (path : list string) : option Task :=
  match path with
  | [] => None
  | currentId :: restPath =>
      match find (fun t => String.eqb (id t) currentId) tasks with
      | None => None
      | Some task =>
          match restPath with
          | [] => Some task
          | _ => findTaskByPath (subtasks task) restPath
          end
      end
  end.

Fixpoint updateTaskByPath (tasks : list Task) (path : list string)
    (updates : PartialTask) : list Task :=
  match path with
  | [] => tasks
  | currentId :: restPath =>
      map (fun task =>
             if negb (String.eqb (id task) currentId) then task
             else match restPath with
                  | [] => mergeTask task updates
                  | _ => withSubtasks task (updateTaskByPath (subtasks task) restPath updates)
                  end) tasks
  end.

Fixpoint deleteTaskByPath (tasks : list Task) (path : list string) : list Task :=
  match path with
  | [] => tasks
  | currentId :: restPath =>
      match restPath with
      | [] => filter (fun t => negb (String.eqb (id t) currentId)) tasks
      | _ =>
          map (fun task =>
                 if negb (String.eqb (id task) currentId) then task
                 else withSubtasks task (deleteTaskByPath (subtasks task) restPath)) tasks
      end
  end.

Fixpoint addTaskToParent (tasks : list Task) (parentPath : list string)
    (newTask : Task) : list Task :=
  match parentPath with
  | [] => tasks ++ [newTask]
  | currentId :: restPath =>
      map (fun task =>
             if negb (String.eqb (id task) currentId) then task
             else match restPath with
                  | [] => withSubtasks task (subtasks task ++ [newTask])
                  | _ => withSubtasks task (addTaskToParent (subtasks task) restPath newTask)
                  end) tasks
  end.

Record Project := {
  project_id : string;
  time_range : TimeRange;
  milestones : list Task
}.

Record AppData := {
  projects : list Project;
  project_order : list string
}.

Record AppStore := {
  savedState : option AppData;
  workingState : option AppData;
  isDirty : bool;
  undoStack : list AppData;
  redoStack : list AppData
}.

Definition deepClone {A : Type} (obj : A) : A := obj.

Definition _pushUndo (s : AppStore) : AppStore :=
  match workingState s with
  | Some w =>
      {| savedState := savedState s; workingState := workingState s; isDirty := isDirty s;
         undoStack := undoStack s ++ [deepClone w]; redoStack := [] |}
  | None => s
  end.

(** The [projects.map] of the task actions: [change] applied to the
    milestones of every project with the given id. *)
Definition mapMilestones (projectId : string) (change : list Task -> list Task)
    (w : AppData) : AppData :=
  {| projects :=
       map (fun p =>
              if negb (String.eqb (project_id p) projectId) then p
              else {| project_id := project_id p; time_range := time_range p;
                      milestones := change (milestones p) |}) (projects w);
     project_order := project_order w |}.

(** The shape shared by [addTask], [updateTask] and [deleteTask]. *)
Definition taskAction (projectId : string) (change : list Task -> list Task)
    (s : AppStore) : AppStore :=
  match workingState s with
  | None => s
  | Some workingState_ =>
      let s1 := _pushUndo s in
      {| savedState := savedState s1;
         workingState := Some (mapMilestones projectId change workingState_);
         isDirty := true;
         undoStack := undoStack s1; redoStack := redoStack s1 |}
  end.

Definition updateTask (projectId : string) (taskPath : list string)
    (updates : PartialTask) (s : AppStore) : AppStore :=
  taskAction projectId (fun ms => updateTaskByPath ms taskPath updates) s.

Definition deleteTask (projectId : string) (taskPath : list string) (s : AppStore) : AppStore :=
  taskAction projectId (fun ms => deleteTaskByPath ms taskPath) s.

(** [addTask], given the id [generateId] produced. *)
Definition addTask (newId : string) (projectId : string) (parentPath : list string)
    (s : AppStore) : AppStore :=
  let newTask := {| id := newId; color := "auto"; schedule := None; subtasks := [] |} in
  taskAction projectId (fun ms => addTaskToParent ms parentPath newTask) s.

Definition undo (s : AppStore) : AppStore :=
  match rev (undoStack s) with
  | [] => s
  | previousState :: _ =>
      {| savedState := savedState s;
         workingState := Some previousState;
         isDirty := true;
         undoStack := removelast (undoStack s);
         redoStack := match workingState s with
                      | Some w => redoStack s ++ [w]
                      | None => redoStack s
                      end |}
  end.

Definition redo (s : AppStore) : AppStore :=
  match rev (redoStack s) with
  | [] => s
  | nextState :: _ =>
      {| savedState := savedState s;
         workingState := Some nextState;
         isDirty := true;
         redoStack := removelast (redoStack s);
         undoStack := match workingState s with
                      | Some w => undoStack s ++ [w]
                      | None => undoStack s
                      end |}
  end.

Definition markSaved (s : AppStore) : AppStore :=
  {| savedState := match workingState s with Some w => Some (deepClone w) | None => None end;
     workingState := workingState s;
     isDirty := false; undoStack := []; redoStack := [] |}.

(** [handleTaskScheduleUpdate] of the project card: the callback the timeline
    is given. *)
Definition handleTaskScheduleUpdate (projectId : string) (u : Update) (s : AppStore) : AppStore :=
  updateTask projectId [fst u] (scheduleUpdate (snd u)) s.

(** The calls of a list delivered to the store in order. *)
Definition deliver (projectId : string) (us : list Update) (s : AppStore) : AppStore :=
  fold_left (fun s u => handleTaskScheduleUpdate projectId u s) us s.

(** A schedule whose duration is a whole number of snap intervals of the
    zoom level; a point has no duration. *)
Definition snapAligned (z : ZoomLevel) (s : Schedule) : Prop :=
  match s with
  | ScheduleRange start_iso end_iso => (snapInterval z | end_iso - start_iso)%Z
  | SchedulePoint _ => True
  end.

(** [useProject]: the first project of the working state with the id. *)
Definition useProject (projectId : string) (s : AppStore) : option Project :=
  match workingState s with
  | Some w => find (fun p => String.eqb (project_id p) projectId) (projects w)
  | None => None
  end.

(** The ids of a task and of all the tasks below it. *)
Fixpoint taskIds (t : Task) : list string :=
  id t :: flat_map taskIds (subtasks t).

(** ** Fixtures of the further properties *)

(** A view at a zoom level with one task focused. *)
Definition focusedOn (fid : string) (z : ZoomLevel) : ViewState :=
  setFocusedTaskId (Some fid) (initialView z).

(** Twelve hours: two snap intervals of the [days] zoom level. *)
Definition halfDay : Schedule := ScheduleRange 0 43200000.

(** A one-day task with [scheduledTask] as its only sub-task. *)
Definition parentTask : Task :=
  {| id := "parent"; color := "auto"; schedule := Some (ScheduleRange 0 86400000);
     subtasks := [scheduledTask] |}.

(** Two point bars ten pixels apart. *)
Definition pointBar (name : string) (x : Q) : Bar :=
  {| bar_task := {| id := name; color := "auto"; schedule := None; subtasks := [] |};
     startX := x - 4; endX := x + 4; bar_color := "#3b82f6"; isPoint := true |}.

Definition twoPoints : list Bar := [pointBar "P" 100; pointBar "Q" 110].

(** A zone three hours ahead of UTC until 2026-10-24T23:00Z and two hours
    ahead from then on. *)
Definition clockChange (t : Z) (isUTC : bool) : Z :=
  if (t <? 1792882800000)%Z then 10800000%Z else 7200000%Z.

(** A store holding one project with the milestones [fourTasks]. *)
Definition oneProject : AppData :=
  {| projects := [ {| project_id := "p1"; time_range := january2026;
                      milestones := fourTasks |} ];
     project_order := ["p1"%string] |}.

Definition oneProjectStore : AppStore :=
  {| savedState := Some oneProject; workingState := Some oneProject; isDirty := false;
     undoStack := []; redoStack := [] |}.

(** * Properties *)

(** ** Numbers *)

Lemma Qleb_le a b : Qleb a b = true <-> a <= b.
Proof. apply Qle_bool_iff. Qed.

Lemma Qleb_gt a b : Qleb a b = false <-> b < a.
Proof.
  unfold Qleb. split; intro H.
  - apply Qnot_le_lt. intro Hle. apply Qle_bool_iff in Hle. congruence.
  - destruct (Qle_bool a b) eqn:E; [|reflexivity].
    apply Qle_bool_iff in E. lra.
Qed.

Lemma Qltb_lt a b : Qltb a b = true <-> a < b.
Proof.
  unfold Qltb. rewrite negb_true_iff. apply (Qleb_gt b a).
Qed.

Lemma Qltb_ge a b : Qltb a b = false <-> b <= a.
Proof.
  unfold Qltb. rewrite negb_false_iff. apply Qle_bool_iff.
Qed.

Lemma snapInterval_exact (z : ZoomLevel) :
  (4 * snapInterval z = tickInterval (ZOOM_CONFIGS z))%Z.
Proof. destruct z; reflexivity. Qed.

Lemma snapInterval_pos (z : ZoomLevel) : (0 < snapInterval z)%Z.
Proof. destruct z; reflexivity. Qed.

Lemma msPerPixel_pos (z : ZoomLevel) : 0 < msPerPixel (ZOOM_CONFIGS z).
Proof. destruct z; reflexivity. Qed.

Lemma snappedDeltaMs_multiple (z : ZoomLevel) (deltaX : Q) :
  (snapInterval z | snappedDeltaMs z deltaX)%Z.
Proof. unfold snappedDeltaMs. apply Z.divide_factor_r. Qed.

(** Every multiple of the snap interval is the snapped delta of some pointer
    position. *)
Lemma snappedDeltaMs_onto (z : ZoomLevel) (k : Z) :
  exists deltaX, snappedDeltaMs z deltaX = (k * snapInterval z)%Z.
Proof.
  exists (- (inject_Z k * inject_Z (snapInterval z) / msPerPixel (ZOOM_CONFIGS z))).
  unfold snappedDeltaMs, Math_round. f_equal.
  assert (Hs : 0 < inject_Z (snapInterval z)).
  { replace 0 with (inject_Z 0) by reflexivity. rewrite <- Zlt_Qlt.
    apply snapInterval_pos. }
  pose proof (msPerPixel_pos z) as Hm.
  assert (E : - - (inject_Z k * inject_Z (snapInterval z) / msPerPixel (ZOOM_CONFIGS z))
              * msPerPixel (ZOOM_CONFIGS z) / inject_Z (snapInterval z) + (1 # 2)
              == inject_Z k + (1 # 2)).
  { field. split; lra. }
  rewrite E.
  assert (Hlo : (k <= Qfloor (inject_Z k + (1 # 2)))%Z).
  { rewrite <- (Qfloor_Z k) at 1. apply Qfloor_resp_le. lra. }
  assert (Hhi : (Qfloor (inject_Z k + (1 # 2)) < k + 1)%Z).
  { rewrite Zlt_Qlt. eapply Qle_lt_trans; [apply Qfloor_le|].
    rewrite inject_Z_plus. change (inject_Z 1) with 1. lra. }
  lia.
Qed.

(** ** Drag gestures *)

Lemma gestureEmits_schedule z mode original deltaX u :
  gestureEmits z mode original deltaX u ->
  snd u = draggedSchedule z mode original (snappedDeltaMs z deltaX).
Proof.
  intros [hasCallback ds clientX Hm Ho Hd Hin
         | hasCallback c ts clientX clientY Hc Hm Ho Hd Hin].
  - unfold handleMouseMove in Hin.
    destruct hasCallback; simpl in Hin; [|contradiction].
    destruct Hin as [<-|[]]. simpl. now subst.
  - unfold handleTouchMove in Hin. rewrite Hc in Hin.
    repeat match type of Hin with
           | context [if ?b then _ else _] => destruct b
           end;
      simpl in Hin; try contradiction;
      destruct Hin as [<-|[]]; simpl; now subst.
Qed.

(** With the callback supplied, every mouse move of a drag makes exactly one call. *)
Lemma handleMouseMove_emits z ds clientX :
  gestureEmits z (drag_mode ds) (drag_originalSchedule ds) (clientX - startMouseX ds)
    (drag_taskId ds,
     draggedSchedule z (drag_mode ds) (drag_originalSchedule ds)
       (snappedDeltaMs z (clientX - startMouseX ds))).
Proof.
  apply (mouse_emits _ _ _ _ _ true ds clientX); try reflexivity.
  simpl. now left.
Qed.

(** So does every touch move of an activated gesture. *)
Lemma handleTouchMove_active_emits z c ts clientX clientY :
  touchState c = Some ts -> isActive ts = true ->
  handleTouchMove true z clientX clientY c =
    (c, [(touch_taskId ts,
          draggedSchedule z (touch_mode ts) (touch_originalSchedule ts)
            (snappedDeltaMs z (clientX - startTouchX ts)))]).
Proof.
  intros Hc Ha. unfold handleTouchMove. rewrite Hc, Ha. reflexivity.
Qed.

Lemma draggedSchedule_move z start_iso end_iso snapped :
  draggedSchedule z move (ScheduleRange start_iso end_iso) snapped =
  ScheduleRange (start_iso + snapped) (end_iso + snapped).
Proof. reflexivity. Qed.

Lemma draggedSchedule_resize_start z start_iso end_iso snapped :
  draggedSchedule z resize_start (ScheduleRange start_iso end_iso) snapped =
  ScheduleRange (if (start_iso + snapped >=? end_iso)%Z
                 then (end_iso - snapInterval z)%Z else (start_iso + snapped)%Z)
                end_iso.
Proof. reflexivity. Qed.

Lemma draggedSchedule_resize_end z start_iso end_iso snapped :
  draggedSchedule z resize_end (ScheduleRange start_iso end_iso) snapped =
  ScheduleRange start_iso
                (if (end_iso + snapped <=? start_iso)%Z
                 then (start_iso + snapInterval z)%Z else (end_iso + snapped)%Z).
Proof. reflexivity. Qed.

(** C2. In a resize step of a drag gesture on a range schedule, through the
    mouse handler or the touch handler and for every pointer position, the
    schedule passed to [onTaskScheduleUpdate] is a range whose start is
    strictly before its end. *)
Theorem resize_keeps_start_before_end z mode start_iso end_iso deltaX u :
  gestureEmits z mode (ScheduleRange start_iso end_iso) deltaX u ->
  mode = resize_start \/ mode = resize_end ->
  exists newStart newEnd,
    snd u = ScheduleRange newStart newEnd /\ (newStart < newEnd)%Z.
Proof.
  intros Hemit Hmode. apply gestureEmits_schedule in Hemit. rewrite Hemit.
  pose proof (snapInterval_pos z) as Hsnap.
  destruct Hmode as [-> | ->].
  - rewrite draggedSchedule_resize_start. do 2 eexists. split; [reflexivity|].
    destruct (Z.geb_spec (start_iso + snappedDeltaMs z deltaX) end_iso); lia.
  - rewrite draggedSchedule_resize_end. do 2 eexists. split; [reflexivity|].
    destruct (Z.leb_spec (end_iso + snappedDeltaMs z deltaX) start_iso); lia.
Qed.

Lemma resize_keeps_start_before_end_witness :
  exists newStart newEnd,
    snd ("t1"%string, ScheduleRange 21600000 32400000)
      = ScheduleRange newStart newEnd /\ (newStart < newEnd)%Z.
Proof.
  apply (resize_keeps_start_before_end days resize_start 0 32400000 (-10 - 0)).
  - apply (mouse_emits _ _ _ _ _ true (dragFixture resize_start) (-10));
      try reflexivity.
    simpl. left. reflexivity.
  - left. reflexivity.
Defined.

(** The claim C3 fails: dragging the start of a nine-hour range by six hours
    at the [days] zoom level leaves a range of three hours, half the snap
    interval. *)
Lemma resize_below_snapInterval :
  handleMouseMove true days (Some (dragFixture resize_start)) (-10)
    = [("t1"%string, ScheduleRange 21600000 32400000)]
  /\ snapInterval days = 21600000%Z
  /\ ~ (21600000 <= 32400000 - snapInterval days)%Z.
Proof.
  split; [reflexivity|]. split; [reflexivity|].
  vm_compute. intro H. apply H. reflexivity.
Qed.

(** C3, amended.  In a resize step on a range schedule whose original
    duration is a multiple of the snap interval, the emitted range is at
    least one snap interval long: [start <= end - snapInterval] and
    [end >= start + snapInterval], through either handler. *)
Theorem resize_min_duration_aligned z mode start_iso end_iso deltaX u :
  gestureEmits z mode (ScheduleRange start_iso end_iso) deltaX u ->
  mode = resize_start \/ mode = resize_end ->
  (snapInterval z | end_iso - start_iso)%Z ->
  exists newStart newEnd,
    snd u = ScheduleRange newStart newEnd
    /\ (newStart <= newEnd - snapInterval z)%Z
    /\ (newEnd >= newStart + snapInterval z)%Z.
Proof.
  intros Hemit Hmode [j Hj]. apply gestureEmits_schedule in Hemit. rewrite Hemit.
  pose proof (snapInterval_pos z) as Hsnap.
  destruct (snappedDeltaMs_multiple z deltaX) as [k Hk]. rewrite Hk.
  destruct Hmode as [-> | ->].
  - rewrite draggedSchedule_resize_start. do 2 eexists. split; [reflexivity|].
    destruct (Z.geb_spec (start_iso + k * snapInterval z) end_iso); [lia|].
    assert (0 < (j - k) * snapInterval z)%Z by lia.
    assert (1 <= j - k)%Z by nia. nia.
  - rewrite draggedSchedule_resize_end. do 2 eexists. split; [reflexivity|].
    destruct (Z.leb_spec (end_iso + k * snapInterval z) start_iso); [lia|].
    assert (0 < (j + k) * snapInterval z)%Z by lia.
    assert (1 <= j + k)%Z by nia. nia.
Qed.

Lemma resize_min_duration_aligned_witness :
  exists newStart newEnd,
    snd ("t1"%string, ScheduleRange 21600000 43200000)
      = ScheduleRange newStart newEnd
    /\ (newStart <= newEnd - snapInterval days)%Z
    /\ (newEnd >= newStart + snapInterval days)%Z.
Proof.
  apply (resize_min_duration_aligned days resize_start 0 43200000 (-10 - 0)).
  - apply (mouse_emits _ _ _ _ _ true
             {| drag_taskId := "t1"; drag_mode := resize_start; startMouseX := 0;
                drag_originalSchedule := ScheduleRange 0 43200000 |} (-10));
      try reflexivity.
    simpl. left. reflexivity.
  - left. reflexivity.
  - exists 2%Z. reflexivity.
Defined.

(** C5. In [move] mode on a range schedule, with [onTaskScheduleUpdate]
    supplied, the mouse handler makes exactly one call at every step, and so
    does the touch handler at every step of an active gesture and at the
    step that activates one (a movement beyond the threshold that is not
    more vertical than horizontal); through either handler the schedule of
    every call is the original snapshot with start and end both shifted by
    the snapped delta, so its end minus its start is the original one. *)
Theorem move_preserves_duration z start_iso end_iso :
  let original := ScheduleRange start_iso end_iso in
  let moved deltaX :=
    ScheduleRange (start_iso + snappedDeltaMs z deltaX)
                  (end_iso + snappedDeltaMs z deltaX) in
  (forall ds clientX,
     drag_mode ds = move -> drag_originalSchedule ds = original ->
     handleMouseMove true z (Some ds) clientX
     = [(drag_taskId ds, moved (clientX - startMouseX ds))])
  /\ (forall c ts clientX clientY,
        touchState c = Some ts -> touch_mode ts = move ->
        touch_originalSchedule ts = original ->
        isActive ts = true
        \/ ((TOUCH_MOVE_THRESHOLD < Qabs (clientX - startTouchX ts)
             \/ TOUCH_MOVE_THRESHOLD < Qabs (clientY - startTouchY ts))
            /\ Qabs (clientY - startTouchY ts) <= Qabs (clientX - startTouchX ts)) ->
        snd (handleTouchMove true z clientX clientY c)
        = [(touch_taskId ts, moved (clientX - startTouchX ts))])
  /\ (forall deltaX u,
        gestureEmits z move original deltaX u ->
        exists newStart newEnd,
          snd u = ScheduleRange newStart newEnd
          /\ newStart = (start_iso + snappedDeltaMs z deltaX)%Z
          /\ newEnd = (end_iso + snappedDeltaMs z deltaX)%Z
          /\ (newEnd - newStart = end_iso - start_iso)%Z).
Proof.
  intros original moved. split; [|split].
  - intros ds clientX Hm Ho. unfold handleMouseMove. cbn [negb].
    rewrite Hm, Ho. reflexivity.
  - intros c ts clientX clientY Hc Hm Ho Hstep.
    unfold handleTouchMove. rewrite Hc, Hm, Ho. cbn [negb].
    destruct (isActive ts) eqn:Ha; cbn [negb]; [reflexivity|].
    destruct Hstep as [Hactive | [Hthreshold Hhorizontal]]; [discriminate|].
    assert (Ht : Qltb TOUCH_MOVE_THRESHOLD (Qabs (clientX - startTouchX ts))
                 || Qltb TOUCH_MOVE_THRESHOLD (Qabs (clientY - startTouchY ts)) = true).
    { apply orb_true_iff. destruct Hthreshold; [left | right]; now apply Qltb_lt. }
    rewrite Ht. apply Qltb_ge in Hhorizontal. rewrite Hhorizontal. reflexivity.
  - intros deltaX u Hemit. apply gestureEmits_schedule in Hemit. rewrite Hemit.
    eexists _, _. split; [reflexivity|]. split; [reflexivity|].
    split; [reflexivity | lia].
Qed.

Lemma move_preserves_duration_witness :
  handleMouseMove true days (Some (dragFixture move)) (-10)
  = [("t1"%string,
      ScheduleRange (0 + snappedDeltaMs days (-10 - 0))
                    (32400000 + snappedDeltaMs days (-10 - 0)))]
  /\ snd (handleTouchMove true days (-20) 5 touchedCell)
     = [("t1"%string,
         ScheduleRange (0 + snappedDeltaMs days (-20 - 0))
                       (32400000 + snappedDeltaMs days (-20 - 0)))]
  /\ snd (handleTouchMove true days (-10) 30 (longPressFires touchedCell))
     = [("t1"%string,
         ScheduleRange (0 + snappedDeltaMs days (-10 - 0))
                       (32400000 + snappedDeltaMs days (-10 - 0)))].
Proof.
  pose proof (move_preserves_duration days 0 32400000) as P.
  cbv zeta in P. destruct P as (Pmouse & Ptouch & _).
  split; [|split].
  - apply (Pmouse (dragFixture move) (-10)); reflexivity.
  - apply (Ptouch touchedCell
             {| touch_taskId := "t1"; touch_mode := move; startTouchX := 0;
                startTouchY := 0; touch_originalSchedule := nineHours;
                isActive := false |} (-20) 5); try reflexivity.
    right. split; [left; reflexivity | intro H; discriminate H].
  - apply (Ptouch (longPressFires touchedCell)
             {| touch_taskId := "t1"; touch_mode := move; startTouchX := 0;
                startTouchY := 0; touch_originalSchedule := nineHours;
                isActive := true |} (-10) 30); try reflexivity.
    left. reflexivity.
Defined.

(** ** Touch activation gate *)

Lemma touchStep_idle hasCallback z ev :
  touchStep hasCallback z ev touchIdle = (touchIdle, []).
Proof. destruct ev; reflexivity. Qed.

Lemma touchRun_idle hasCallback z evs :
  touchRun hasCallback z evs touchIdle = (touchIdle, []).
Proof.
  induction evs as [|ev evs IH]; [reflexivity|].
  cbn [touchRun]. rewrite touchStep_idle, IH. reflexivity.
Qed.

(** C7. With the [onTaskScheduleUpdate] the project card always supplies: if
    a touch gesture is not yet active and a movement beyond the pixel
    threshold has a larger vertical than horizontal distance, the step clears
    the touch state, cancels the long-press timer and makes no call; and no
    later move, release or timer event of that gesture makes a call
    either. *)
Theorem vertical_touch_abandons z c ts clientX clientY :
  touchState c = Some ts ->
  isActive ts = false ->
  TOUCH_MOVE_THRESHOLD < Qabs (clientX - startTouchX ts)
    \/ TOUCH_MOVE_THRESHOLD < Qabs (clientY - startTouchY ts) ->
  Qabs (clientX - startTouchX ts) < Qabs (clientY - startTouchY ts) ->
  handleTouchMove true z clientX clientY c = (touchIdle, [])
  /\ forall hasCallback z' evs,
       touchRun hasCallback z' evs touchIdle = (touchIdle, []).
Proof.
  intros Hc Hinactive Hthreshold Hvertical. split; [|apply touchRun_idle].
  unfold handleTouchMove. rewrite Hc, Hinactive. simpl negb. cbv iota.
  assert (Ht : Qltb TOUCH_MOVE_THRESHOLD (Qabs (clientX - startTouchX ts))
               || Qltb TOUCH_MOVE_THRESHOLD (Qabs (clientY - startTouchY ts)) = true).
  { apply orb_true_iff. destruct Hthreshold; [left | right]; now apply Qltb_lt. }
  rewrite Ht. apply Qltb_lt in Hvertical. rewrite Hvertical. reflexivity.
Qed.

Lemma vertical_touch_abandons_witness :
  handleTouchMove true days 0 20 touchedCell = (touchIdle, [])
  /\ forall hasCallback z' evs,
       touchRun hasCallback z' evs touchIdle = (touchIdle, []).
Proof.
  apply (vertical_touch_abandons days touchedCell
           {| touch_taskId := "t1"; touch_mode := move; startTouchX := 0;
              startTouchY := 0; touch_originalSchedule := nineHours;
              isActive := false |} 0 20).
  - reflexivity.
  - reflexivity.
  - right. reflexivity.
  - reflexivity.
Defined.

(** ** Sorting *)

Section SortFacts.
Context {A : Type} (leb : A -> A -> bool).

Lemma insert_perm (a : A) (l : list A) : Permutation (a :: l) (insert leb a l).
Proof.
  induction l as [|b l IH]; simpl; [reflexivity|].
  destruct (leb a b); [reflexivity|].
  rewrite perm_swap. now constructor.
Qed.

Lemma sort_perm (l : list A) : Permutation l (sort leb l).
Proof.
  induction l as [|a l IH]; simpl; [constructor|].
  rewrite <- insert_perm. now constructor.
Qed.

Lemma sort_In (a : A) (l : list A) : In a (sort leb l) <-> In a l.
Proof.
  split; apply Permutation_in; [symmetry|]; apply sort_perm.
Qed.

Lemma sort_length (l : list A) : List.length (sort leb l) = List.length l.
Proof. symmetry. apply Permutation_length, sort_perm. Qed.

Hypothesis leb_total : forall a b, leb a b = true \/ leb b a = true.
Hypothesis leb_trans : forall a b c, leb a b = true -> leb b c = true -> leb a c = true.

Lemma insert_sorted (a : A) (l : list A) :
  ForallOrdPairs (fun x y => leb x y = true) l ->
  ForallOrdPairs (fun x y => leb x y = true) (insert leb a l).
Proof.
  induction 1 as [|b l Hb Hl IH]; simpl.
  - repeat constructor.
  - destruct (leb a b) eqn:E.
    + constructor; [|now constructor].
      constructor; [exact E|].
      eapply Forall_impl; [|exact Hb]. intros c Hc. now apply leb_trans with b.
    + constructor; [|exact IH].
      eapply Permutation_Forall; [apply insert_perm|].
      constructor; [|exact Hb].
      destruct (leb_total a b); congruence.
Qed.

Lemma sort_sorted (l : list A) :
  ForallOrdPairs (fun x y => leb x y = true) (sort leb l).
Proof.
  induction l as [|a l IH]; simpl; [constructor|].
  now apply insert_sorted.
Qed.
End SortFacts.

Lemma ForallOrdPairs_impl {A : Type} (R S : A -> A -> Prop) (l : list A) :
  (forall a b, R a b -> S a b) -> ForallOrdPairs R l -> ForallOrdPairs S l.
Proof.
  intros HRS. induction 1 as [|a l Ha Hl IH]; constructor; [|exact IH].
  eapply Forall_impl; [|exact Ha]. intros b. apply HRS.
Qed.

Lemma sortByStartX_sorted (taskBars : list Bar) :
  ForallOrdPairs (fun a b => startX a <= startX b) (sortByStartX taskBars).
Proof.
  unfold sortByStartX.
  eapply ForallOrdPairs_impl; [|apply sort_sorted].
  - intros a b H. now apply Qleb_le.
  - intros a b. rewrite !Qleb_le.
    destruct (Qlt_le_dec (startX b) (startX a)); [right|left]; lra.
  - intros a b c. rewrite !Qleb_le. lra.
Qed.

(** ** Projection *)

Lemma Qeq_bool_false (p q : Q) : ~ p == q -> Qeq_bool p q = false.
Proof.
  intros H. destruct (Qeq_bool p q) eqn:E; [|reflexivity].
  apply Qeq_bool_iff in E. contradiction.
Qed.

(** With a finite non-zero ratio the pixel of an instant is finite and is
    [pixelOf]. *)
Lemma pixel_finite (timelineStart m timelineWidth : Q) (t : Z) :
  ~ m == 0 ->
  exists q,
    Num_sub (Fin timelineWidth) (Num_div (Fin (inject_Z t - timelineStart)) (Fin m)) = Fin q
    /\ q == pixelOf timelineStart m timelineWidth t.
Proof.
  intros Hm. unfold Num_div, pixelOf. rewrite (Qeq_bool_false _ _ Hm).
  destruct (Qeq_bool (inject_Z t - timelineStart) 0) eqn:E.
  - apply Qeq_bool_iff in E.
    destruct (xorb (signBit (Fin (inject_Z t - timelineStart))) (signBit (Fin m)));
      cbn [signedZero Num_sub]; eexists; (split; [reflexivity|]);
      rewrite E; field; exact Hm.
  - cbn [Num_sub]. eexists. split; reflexivity.
Qed.

Lemma getTaskPosition_some task timelineStart ratio timelineWidth :
  schedule task <> None <->
  exists pos, getTaskPosition task timelineStart ratio timelineWidth = Some pos.
Proof.
  unfold getTaskPosition. destruct (schedule task) as [[s e|p]|].
  - split; [eexists; reflexivity | discriminate].
  - split; [eexists; reflexivity | discriminate].
  - split; [congruence | intros [pos H]; discriminate].
Qed.

Lemma getTaskPosition_range_finite task start_iso end_iso timelineStart m timelineWidth :
  schedule task = Some (ScheduleRange start_iso end_iso) ->
  ~ m == 0 ->
  exists sx ex,
    getTaskPosition task timelineStart (Fin m) timelineWidth
    = Some {| pos_startX := Fin sx; pos_endX := Fin ex; pos_isPoint := false |}
    /\ sx == Qmin (pixelOf timelineStart m timelineWidth start_iso)
                  (pixelOf timelineStart m timelineWidth end_iso)
    /\ ex == Qmax (pixelOf timelineStart m timelineWidth start_iso)
                  (pixelOf timelineStart m timelineWidth end_iso).
Proof.
  intros Hs Hm. unfold getTaskPosition. rewrite Hs.
  destruct (pixel_finite timelineStart m timelineWidth start_iso Hm) as (a & -> & Ha).
  destruct (pixel_finite timelineStart m timelineWidth end_iso Hm) as (b & -> & Hb).
  cbn [Math_min Math_max]. eexists _, _. split; [reflexivity|].
  now rewrite Ha, Hb.
Qed.

Lemma getTaskPosition_point_finite task point_iso timelineStart m timelineWidth :
  schedule task = Some (SchedulePoint point_iso) ->
  ~ m == 0 ->
  exists sx ex,
    getTaskPosition task timelineStart (Fin m) timelineWidth
    = Some {| pos_startX := Fin sx; pos_endX := Fin ex; pos_isPoint := true |}
    /\ sx == pixelOf timelineStart m timelineWidth point_iso - 4
    /\ ex == pixelOf timelineStart m timelineWidth point_iso + 4.
Proof.
  intros Hs Hm. unfold getTaskPosition. rewrite Hs.
  destruct (pixel_finite timelineStart m timelineWidth point_iso Hm) as (a & -> & Ha).
  cbn [Num_sub Num_add]. eexists _, _. split; [reflexivity|].
  now rewrite Ha.
Qed.

(** With a finite non-zero ratio every position is finite and ordered. *)
Lemma getTaskPosition_finite task timelineStart m timelineWidth pos :
  ~ m == 0 ->
  getTaskPosition task timelineStart (Fin m) timelineWidth = Some pos ->
  exists sx ex,
    pos = {| pos_startX := Fin sx; pos_endX := Fin ex; pos_isPoint := pos_isPoint pos |}
    /\ sx <= ex.
Proof.
  intros Hm Hpos. destruct (schedule task) as [[s e|p]|] eqn:Hs.
  - destruct (getTaskPosition_range_finite task s e timelineStart m timelineWidth Hs Hm)
      as (sx & ex & H & Hsx & Hex).
    rewrite H in Hpos. injection Hpos as <-. exists sx, ex. split; [reflexivity|].
    rewrite Hsx, Hex. eapply Qle_trans; [apply Q.le_min_l | apply Q.le_max_l].
  - destruct (getTaskPosition_point_finite task p timelineStart m timelineWidth Hs Hm)
      as (sx & ex & H & Hsx & Hex).
    rewrite H in Hpos. injection Hpos as <-. exists sx, ex. split; [reflexivity|].
    rewrite Hsx, Hex. lra.
  - unfold getTaskPosition in Hpos. rewrite Hs in Hpos. discriminate.
Qed.

(** The claim C9 fails at a zero ratio, the one the sub-timeline computes
    for a parent that starts and ends at one instant: the pixel of the
    parent's own instant is [0 / 0], so both ends of the projected interval
    are NaN and [startX <= endX] is false. *)
Lemma getTaskPosition_zero_ratio :
  let parent := {| id := "parent"; color := "auto"; schedule := Some (ScheduleRange 0 0);
                   subtasks := [scheduledTask] |} in
  subMsPerPixel january2026 parent 640 = Fin 0
  /\ subTaskPosition january2026 parent 640 scheduledTask
     = getTaskPosition scheduledTask 0 (Fin 0) (640 - 40)
  /\ getTaskPosition scheduledTask 0 (Fin 0) (640 - 40)
     = Some {| pos_startX := NaN; pos_endX := NaN; pos_isPoint := false |}
  /\ Num_leb NaN NaN = false.
Proof. cbv zeta. repeat split. Qed.

(** C9, amended.  For a task with a range schedule, inverted or not,
    [getTaskPosition] returns a position and does not reject, whatever the
    ratio: the [Math.min] and the [Math.max] of the pixels of the two
    instants; for a finite ratio other than zero the two pixels are finite,
    its [startX] is the smaller and its [endX] the larger of them, so
    [startX <= endX]. *)
Theorem getTaskPosition_range_normalized
    task start_iso end_iso timelineStart ratio timelineWidth :
  schedule task = Some (ScheduleRange start_iso end_iso) ->
  getTaskPosition task timelineStart ratio timelineWidth
  = Some {| pos_startX := Math_min (pixelAt timelineStart ratio timelineWidth start_iso)
                                   (pixelAt timelineStart ratio timelineWidth end_iso);
            pos_endX := Math_max (pixelAt timelineStart ratio timelineWidth start_iso)
                                 (pixelAt timelineStart ratio timelineWidth end_iso);
            pos_isPoint := false |}
  /\ forall m, ratio = Fin m -> ~ m == 0 ->
       exists sx ex,
         getTaskPosition task timelineStart ratio timelineWidth
         = Some {| pos_startX := Fin sx; pos_endX := Fin ex; pos_isPoint := false |}
         /\ sx == Qmin (pixelOf timelineStart m timelineWidth start_iso)
                       (pixelOf timelineStart m timelineWidth end_iso)
         /\ ex == Qmax (pixelOf timelineStart m timelineWidth start_iso)
                       (pixelOf timelineStart m timelineWidth end_iso)
         /\ sx <= ex
         /\ Num_leb (Fin sx) (Fin ex) = true.
Proof.
  intros Hs. split.
  - unfold getTaskPosition, pixelAt. now rewrite Hs.
  - intros m -> Hm.
    destruct (getTaskPosition_range_finite task start_iso end_iso timelineStart m
                timelineWidth Hs Hm) as (sx & ex & H & Hsx & Hex).
    exists sx, ex. repeat (split; [assumption|]).
    assert (Hle : sx <= ex).
    { rewrite Hsx, Hex. eapply Qle_trans; [apply Q.le_min_l | apply Q.le_max_l]. }
    split; [exact Hle|]. cbn [Num_leb Num_value]. now apply Qleb_le.
Qed.

Lemma getTaskPosition_range_normalized_witness :
  exists sx ex,
    getTaskPosition
      {| id := "late"; color := "auto"; schedule := Some (ScheduleRange 7200000 0);
         subtasks := [] |} 0 (Fin (3600000 / 40)) 600
    = Some {| pos_startX := Fin sx; pos_endX := Fin ex; pos_isPoint := false |}
    /\ sx == Qmin (pixelOf 0 (3600000 / 40) 600 7200000)
                  (pixelOf 0 (3600000 / 40) 600 0)
    /\ ex == Qmax (pixelOf 0 (3600000 / 40) 600 7200000)
                  (pixelOf 0 (3600000 / 40) 600 0)
    /\ sx <= ex
    /\ Num_leb (Fin sx) (Fin ex) = true.
Proof.
  assert (Hm : ~ 3600000 / 40 == 0) by (intro H; discriminate H).
  exact (proj2 (getTaskPosition_range_normalized
                  {| id := "late"; color := "auto";
                     schedule := Some (ScheduleRange 7200000 0); subtasks := [] |}
                  7200000 0 0 (Fin (3600000 / 40)) 600 eq_refl)
               (3600000 / 40) eq_refl Hm).
Defined.

(** ** Visible bars and off-screen hints *)

Lemma placement_cases width sx ex isP :
  0 <= width -> sx <= ex ->
  exists p,
    placement width {| pos_startX := Fin sx; pos_endX := Fin ex; pos_isPoint := isP |}
    = Some p
    /\ (p = Visible <-> 0 <= ex /\ sx <= width)
    /\ (p = LeftHint <-> ex < 0)
    /\ (p = RightHint <-> width < sx).
Proof.
  intros Hw Hord. unfold placement. cbn [pos_startX pos_endX Num_leb Num_ltb Num_value].
  destruct (Qleb 0 ex) eqn:E1; simpl.
  - apply Qleb_le in E1. destruct (Qleb sx width) eqn:E2.
    + apply Qleb_le in E2. exists Visible.
      repeat split; intros; try discriminate; try assumption; lra.
    + apply Qleb_gt in E2.
      assert (E3 : Qltb ex 0 = false) by now apply Qltb_ge.
      assert (E4 : Qltb width sx = true) by now apply Qltb_lt.
      rewrite E3, E4. exists RightHint.
      repeat split; intros; try discriminate; try assumption; lra.
  - apply Qleb_gt in E1.
    assert (E3 : Qltb ex 0 = true) by now apply Qltb_lt.
    rewrite E3. exists LeftHint.
    repeat split; intros; try discriminate; try assumption; lra.
Qed.

Lemma placedAs_In vs mpp width p tasks t :
  In t (placedAs vs mpp width p tasks) <->
  In t tasks /\ exists pos, getTaskPosition t vs (Fin mpp) width = Some pos
                            /\ placement width pos = Some p.
Proof.
  unfold placedAs. rewrite filter_In. split.
  - intros [Hin H]. split; [exact Hin|].
    destruct (getTaskPosition t vs (Fin mpp) width) as [pos|]; [|discriminate].
    exists pos. split; [reflexivity|].
    destruct (placement width pos) as [q|]; [|discriminate].
    destruct p, q; simpl in H; congruence.
  - intros [Hin [pos [Hpos Hp]]]. split; [exact Hin|].
    rewrite Hpos, Hp. destruct p; reflexivity.
Qed.

(** In the branch that pushes a bar the two clamped ends are finite,
    whatever the position: [Num_value] loses nothing but the sign of a
    zero. *)
Lemma visible_clamp_finite (width : Q) (pos : Position) :
  Num_leb (Fin 0) (pos_endX pos) && Num_leb (pos_startX pos) (Fin width) = true ->
  let lo := Math_max (Fin 0) (pos_startX pos) in
  let hi := Math_min (Fin width) (pos_endX pos) in
  (lo = Fin (Num_value lo) \/ lo = NegZero) /\ (hi = Fin (Num_value hi) \/ hi = NegZero).
Proof.
  intros H. apply andb_true_iff in H. destruct H as [He Hs].
  destruct (pos_startX pos) as [s| | | |], (pos_endX pos) as [e| | | |];
    try discriminate; cbn [Math_max Math_min];
    repeat match goal with
           | |- context [if ?b then _ else _] => destruct b
           end;
    cbn [Num_value]; split; auto.
Qed.

Section DeriveBars.
Variables visibleStart_ msPerPixel_ width : Q.

Lemma visitTask_placed task index acc :
  let d := visitTask visibleStart_ msPerPixel_ width task index acc in
  map bar_task (bars d)
    = map bar_task (bars acc) ++ placedAs visibleStart_ msPerPixel_ width Visible [task]
  /\ map hint_task (leftHintTasks d)
    = map hint_task (leftHintTasks acc)
        ++ placedAs visibleStart_ msPerPixel_ width LeftHint [task]
  /\ map hint_task (rightHintTasks d)
    = map hint_task (rightHintTasks acc)
        ++ placedAs visibleStart_ msPerPixel_ width RightHint [task].
Proof.
  unfold visitTask, placedAs, filter.
  destruct (schedule task) as [s|] eqn:Hs.
  - destruct (getTaskPosition task visibleStart_ (Fin msPerPixel_) width) as [pos|];
      [|simpl; now rewrite !app_nil_r].
    unfold placement.
    destruct (Num_leb (Fin 0) (pos_endX pos) && Num_leb (pos_startX pos) (Fin width));
      [simpl; now rewrite !map_app, !app_nil_r|].
    destruct (Num_ltb (pos_endX pos) (Fin 0));
      [simpl; now rewrite !map_app, !app_nil_r|].
    destruct (Num_ltb (Fin width) (pos_startX pos));
      simpl; now rewrite ?map_app, !app_nil_r.
  - unfold getTaskPosition. rewrite Hs. simpl. now rewrite !app_nil_r.
Qed.

Lemma forEachTask_placed tasks index acc :
  let d := forEachTask visibleStart_ msPerPixel_ width tasks index acc in
  map bar_task (bars d)
    = map bar_task (bars acc) ++ placedAs visibleStart_ msPerPixel_ width Visible tasks
  /\ map hint_task (leftHintTasks d)
    = map hint_task (leftHintTasks acc)
        ++ placedAs visibleStart_ msPerPixel_ width LeftHint tasks
  /\ map hint_task (rightHintTasks d)
    = map hint_task (rightHintTasks acc)
        ++ placedAs visibleStart_ msPerPixel_ width RightHint tasks.
Proof.
  revert index acc. induction tasks as [|t rest IH]; intros index acc.
  - simpl. now rewrite !app_nil_r.
  - cbn [forEachTask].
    destruct (IH (S index) (visitTask visibleStart_ msPerPixel_ width t index acc))
      as (Hb & Hl & Hr).
    destruct (visitTask_placed t index acc) as (Hb1 & Hl1 & Hr1).
    cbv zeta in *. rewrite Hb, Hl, Hr, Hb1, Hl1, Hr1.
    unfold placedAs. rewrite <- !app_assoc, <- !filter_app. now simpl.
Qed.

Hypothesis ratio_nonzero : ~ msPerPixel_ == 0.
Hypothesis width_nonneg : 0 <= width.

Lemma visitTask_clamped task index acc :
  Forall (clampedWithin visibleStart_ msPerPixel_ width) (bars acc) ->
  Forall (clampedWithin visibleStart_ msPerPixel_ width)
    (bars (visitTask visibleStart_ msPerPixel_ width task index acc)).
Proof.
  intros Hacc. unfold visitTask.
  destruct (schedule task) as [s|]; [|exact Hacc].
  destruct (getTaskPosition task visibleStart_ (Fin msPerPixel_) width) as [pos|] eqn:Hpos;
    [|exact Hacc].
  destruct (getTaskPosition_finite _ _ _ _ _ ratio_nonzero Hpos) as (sx & ex & Hfin & Hord).
  rewrite Hfin. cbn [pos_startX pos_endX pos_isPoint Num_leb Num_ltb Num_value].
  destruct (Qleb 0 ex && Qleb sx width) eqn:E.
  - apply andb_true_iff in E. destruct E as [E1 E2].
    apply Qleb_le in E1. apply Qleb_le in E2.
    cbn [bars]. apply Forall_app. split; [exact Hacc|].
    constructor; [|constructor]. split.
    + exists sx, ex. cbn [bar_task startX endX isPoint Math_max Math_min Num_value].
      rewrite Hpos, Hfin at 1. repeat split; reflexivity.
    + unfold withinWidth. cbn [startX endX Math_max Math_min Num_value].
      split; [apply Q.le_max_l|]. split; [|apply Q.le_min_l].
      apply Q.max_lub; apply Q.min_glb; assumption.
  - destruct (Qltb ex 0); [exact Hacc|].
    destruct (Qltb width sx); exact Hacc.
Qed.

Lemma forEachTask_clamped tasks index acc :
  Forall (clampedWithin visibleStart_ msPerPixel_ width) (bars acc) ->
  Forall (clampedWithin visibleStart_ msPerPixel_ width)
    (bars (forEachTask visibleStart_ msPerPixel_ width tasks index acc)).
Proof.
  revert index acc.
  induction tasks as [|t rest IH]; intros index acc Hacc; [exact Hacc|].
  cbn [forEachTask]. apply IH. now apply visitTask_clamped.
Qed.

Lemma deriveBars_clamped tasks :
  Forall (clampedWithin visibleStart_ msPerPixel_ width)
    (bars (deriveBars tasks visibleStart_ msPerPixel_ width)).
Proof.
  apply (forEachTask_clamped tasks 0). constructor.
Qed.
End DeriveBars.

(** C10. For a timeline of non-negative width at any zoom level and visible
    start: every task with a schedule has a finite projected interval that
    falls in exactly one of the three cases (visible: [endX >= 0] and
    [startX <= width]; left: [endX < 0]; right: [startX > width]), the three
    derived arrays hold exactly the tasks of their case, in task order, a
    task without a schedule is in none, and every bar of the visible array is
    its task's projection clamped: [startX = max(0, pos.startX)],
    [endX = min(width, pos.endX)], so that [0 <= startX <= endX <= width]. *)
Theorem derived_sets_partition tasks z visibleStart_ width :
  0 <= width ->
  let mpp := msPerPixel (ZOOM_CONFIGS z) in
  let d := deriveBars tasks visibleStart_ mpp width in
  (forall t, In t tasks -> schedule t <> None ->
     exists sx ex isP p,
       getTaskPosition t visibleStart_ (Fin mpp) width
       = Some {| pos_startX := Fin sx; pos_endX := Fin ex; pos_isPoint := isP |}
       /\ sx <= ex
       /\ placement width {| pos_startX := Fin sx; pos_endX := Fin ex; pos_isPoint := isP |}
          = Some p
       /\ (p = Visible <-> 0 <= ex /\ sx <= width)
       /\ (p = LeftHint <-> ex < 0)
       /\ (p = RightHint <-> width < sx)
       /\ forall q, In t (placedAs visibleStart_ mpp width q tasks) <-> q = p)
  /\ (forall t q, schedule t = None -> ~ In t (placedAs visibleStart_ mpp width q tasks))
  /\ map bar_task (bars d) = placedAs visibleStart_ mpp width Visible tasks
  /\ map hint_task (leftHintTasks d) = placedAs visibleStart_ mpp width LeftHint tasks
  /\ map hint_task (rightHintTasks d) = placedAs visibleStart_ mpp width RightHint tasks
  /\ Forall (fun b => clampedProjection visibleStart_ mpp width b /\ withinWidth width b)
       (bars d).
Proof.
  intros Hw mpp d.
  assert (Hm : ~ mpp == 0).
  { pose proof (msPerPixel_pos z) as H. fold mpp in H. lra. }
  split; [|split].
  - intros t Hin Hsched.
    apply (getTaskPosition_some t visibleStart_ (Fin mpp) width) in Hsched.
    destruct Hsched as [pos Hpos].
    destruct (getTaskPosition_finite _ _ _ _ _ Hm Hpos) as (sx & ex & Hfin & Hord).
    rewrite Hfin in Hpos.
    destruct (placement_cases width sx ex (pos_isPoint pos) Hw Hord)
      as (p & Hp & Hv & Hl & Hr).
    exists sx, ex, (pos_isPoint pos), p. repeat (split; [assumption|]).
    intros q. rewrite placedAs_In. split.
    + intros [_ (pos' & Hpos' & Hq)]. congruence.
    + intros ->. split; [exact Hin|]. eexists. split; [exact Hpos | exact Hp].
  - intros t q Hnone Hin. apply placedAs_In in Hin.
    destruct Hin as [_ (pos & Hpos & _)].
    unfold getTaskPosition in Hpos. rewrite Hnone in Hpos. discriminate.
  - destruct (forEachTask_placed visibleStart_ mpp width tasks 0
                {| bars := []; leftHintTasks := []; rightHintTasks := [] |})
      as (Hb & Hl & Hr).
    repeat split; try assumption.
    exact (deriveBars_clamped visibleStart_ mpp width Hm Hw tasks).
Qed.

Lemma derived_sets_partition_witness :
  map bar_task (bars (deriveBars fourTasks 0 (msPerPixel (ZOOM_CONFIGS days)) 600))
  = placedAs 0 (msPerPixel (ZOOM_CONFIGS days)) 600 Visible fourTasks
  /\ Forall (fun b => clampedProjection 0 (msPerPixel (ZOOM_CONFIGS days)) 600 b
                        /\ withinWidth 600 b)
       (bars (deriveBars fourTasks 0 (msPerPixel (ZOOM_CONFIGS days)) 600)).
Proof.
  assert (Hw : 0 <= 600) by (apply Qleb_le; reflexivity).
  pose proof (derived_sets_partition fourTasks days 0 600 Hw) as P.
  cbv zeta in P. destruct P as (_ & _ & P1 & _ & _ & P2). split; [exact P1 | exact P2].
Defined.

(** ** Centering and navigation *)

Lemma clampedNow_clamp timeRange now :
  (tr_start_iso timeRange <= tr_end_iso timeRange)%Z ->
  clampedNow timeRange now = clamp now (tr_start_iso timeRange) (tr_end_iso timeRange).
Proof.
  intros H. unfold clampedNow, clamp.
  destruct (Z.ltb_spec now (tr_start_iso timeRange));
    destruct (Z.ltb_spec (tr_end_iso timeRange) now); lia.
Qed.

Lemma window_midpoint timeRange now width v :
  (visibleStart timeRange now width v + visibleEnd timeRange now width v) / 2
    == centerTime timeRange now v
  /\ visibleEnd timeRange now width v - centerTime timeRange now v
     == centerTime timeRange now v - visibleStart timeRange now width v.
Proof. unfold visibleStart, visibleEnd. split; field. Qed.

Lemma scheduledTasks_In tasks target :
  In target (scheduledTasks tasks) ->
  In (sched_task target) tasks
  /\ exists s, schedule (sched_task target) = Some s /\ time target = scheduleTime s.
Proof.
  induction tasks as [|t rest IH]; simpl; [contradiction|].
  destruct (schedule t) as [s|] eqn:Hs.
  - intros [<- | Hin].
    + simpl. split; [now left | now exists s].
    + destruct (IH Hin) as [H1 H2]. split; [now right | exact H2].
  - intros Hin. destruct (IH Hin) as [H1 H2]. split; [now right | exact H2].
Qed.

Lemma navigateToTask_in_range tasks timeRange now idx target v :
  nth_error (sortedScheduledTasks tasks) idx = Some target ->
  navigateToTask tasks timeRange now (Z.of_nat idx) v =
    {| zoomLevel := zoomLevel v;
       panOffset := inject_Z (time target - clampedNow timeRange now);
       expandedTaskId := expandedTaskId v;
       focusedTaskId := Some (id (sched_task target)) |}.
Proof.
  intros Hnth. unfold navigateToTask.
  assert (Hlt : (idx < List.length (sortedScheduledTasks tasks))%nat).
  { apply nth_error_Some. congruence. }
  destruct (Z.ltb_spec (Z.of_nat idx) 0); [lia|].
  destruct (Z.geb_spec (Z.of_nat idx) (Z.of_nat (List.length (sortedScheduledTasks tasks))));
    [lia|].
  simpl. rewrite Nat2Z.id, Hnth. reflexivity.
Qed.

(** The centre seen by a render whose clock reads [now2], after a navigation
    through a control built by a render whose clock read [now1]: the task's
    instant plus what the clamped clock has advanced. *)
Lemma centerTime_after_navigate tasks timeRange now1 now2 idx target v :
  nth_error (sortedScheduledTasks tasks) idx = Some target ->
  centerTime timeRange now2 (navigateToTask tasks timeRange now1 (Z.of_nat idx) v)
  == inject_Z (time target + (clampedNow timeRange now2 - clampedNow timeRange now1)).
Proof.
  intros Hnth. rewrite (navigateToTask_in_range _ _ _ _ target) by exact Hnth.
  unfold centerTime. cbn [panOffset].
  unfold Zminus. rewrite !inject_Z_plus, !inject_Z_opp. ring.
Qed.

(** With a pan offset of 0 the visible window is centred on
    [clamp(now, timelineStart, timelineEnd)]; a navigation sets the pan
    offset to the task's instant minus the clamped now of the render that
    built the control, and a render with the same clamped now is centred on
    that instant. *)
Lemma pan_centering_same_clock tasks timeRange now1 now2 width v0 v idx target :
  panOffset v0 == 0 ->
  (tr_start_iso timeRange <= tr_end_iso timeRange)%Z ->
  nth_error (sortedScheduledTasks tasks) idx = Some target ->
  clampedNow timeRange now2 = clampedNow timeRange now1 ->
  let centre := inject_Z (clamp now1 (tr_start_iso timeRange) (tr_end_iso timeRange)) in
  let v' := navigateToTask tasks timeRange now1 (Z.of_nat idx) v in
  (visibleStart timeRange now1 width v0 + visibleEnd timeRange now1 width v0) / 2 == centre
  /\ visibleEnd timeRange now1 width v0 - centre
     == centre - visibleStart timeRange now1 width v0
  /\ panOffset v' == inject_Z (time target) - centre
  /\ centerTime timeRange now2 v' == inject_Z (time target)
  /\ (visibleStart timeRange now2 width v' + visibleEnd timeRange now2 width v') / 2
     == inject_Z (time target).
Proof.
  intros Hpan Hrange Hnth Hclock centre v'.
  assert (Hc0 : centerTime timeRange now1 v0 == centre).
  { unfold centerTime, centre. rewrite <- clampedNow_clamp by exact Hrange. lra. }
  destruct (window_midpoint timeRange now1 width v0) as [Hm0 Hs0].
  destruct (window_midpoint timeRange now2 width v') as [Hm' _].
  assert (Hv' : panOffset v' = inject_Z (time target - clampedNow timeRange now1)).
  { unfold v'. now rewrite (navigateToTask_in_range _ _ _ _ target). }
  assert (Hp : panOffset v' == inject_Z (time target) - centre).
  { rewrite Hv'. unfold centre. rewrite <- clampedNow_clamp by exact Hrange.
    unfold Zminus. rewrite inject_Z_plus, inject_Z_opp. lra. }
  assert (Hc' : centerTime timeRange now2 v' == inject_Z (time target)).
  { unfold v'. rewrite (centerTime_after_navigate _ _ _ _ _ target) by exact Hnth.
    rewrite Hclock. now replace (time target + (clampedNow timeRange now1
                                   - clampedNow timeRange now1))%Z
      with (time target) by lia. }
  split; [now rewrite Hm0|]. split; [now rewrite <- Hc0|].
  split; [exact Hp|]. split; [exact Hc'|]. now rewrite Hm'.
Qed.


(** ** Row packing *)

Lemma firstFit_Some rows x i :
  firstFit rows x = Some i -> exists e, nth_error rows i = Some e /\ e <= x.
Proof.
  revert i. induction rows as [|e rest IH]; intros i; simpl; [discriminate|].
  destruct (Qleb e x) eqn:E.
  - intros [= <-]. exists e. split; [reflexivity | now apply Qleb_le].
  - destruct (firstFit rest x) as [i'|]; simpl; [|discriminate].
    intros [= <-]. now apply IH.
Qed.

Lemma firstFit_None rows x :
  firstFit rows x = None -> Forall (fun e => x < e) rows.
Proof.
  induction rows as [|e rest IH]; simpl; [constructor|].
  destruct (Qleb e x) eqn:E; [discriminate|].
  destruct (firstFit rest x); simpl; [discriminate|].
  intros _. constructor; [now apply Qleb_gt | now apply IH].
Qed.

Lemma setNth_length {A : Type} (l : list A) i v :
  List.length (setNth l i v) = List.length l.
Proof.
  revert i. induction l as [|a l IH]; intros [|i]; simpl; auto.
Qed.

Lemma setNth_same {A : Type} (l : list A) i v :
  (i < List.length l)%nat -> nth_error (setNth l i v) i = Some v.
Proof.
  revert i. induction l as [|a l IH]; intros [|i]; simpl; intros H;
    try lia; [reflexivity | apply IH; lia].
Qed.

Lemma setNth_other {A : Type} (l : list A) i j v :
  i <> j -> nth_error (setNth l i v) j = nth_error l j.
Proof.
  revert i j. induction l as [|a l IH]; intros [|i] [|j] H; simpl;
    try reflexivity; try congruence.
  apply IH. congruence.
Qed.

Lemma setNth_map {A B : Type} (f : A -> B) (l : list A) i v :
  map f (setNth l i v) = setNth (map f l) i (f v).
Proof.
  revert i. induction l as [|a l IH]; intros [|i]; simpl; try reflexivity.
  now rewrite IH.
Qed.

Lemma setNth_In {A : Type} (l : list A) i v a :
  In a (setNth l i v) -> a = v \/ In a l.
Proof.
  revert i. induction l as [|b l IH]; intros [|i]; simpl; try tauto.
  - intros [<- | H]; tauto.
  - intros [<- | H]; [tauto|]. destruct (IH _ H); tauto.
Qed.

Lemma setNth_pairs {A : Type} (R : A -> A -> Prop) (l : list A) i v :
  ForallOrdPairs R l ->
  Forall (fun a => R a v /\ R v a) l ->
  ForallOrdPairs R (setNth l i v).
Proof.
  intros Hl. revert i. induction Hl as [|a l Ha Hl IH]; intros i Hv.
  - destruct i; constructor.
  - apply Forall_cons_iff in Hv. destruct Hv as [Hav Hv].
    destruct i as [|i]; simpl.
    + constructor; [|exact Hl]. eapply Forall_impl; [|exact Hv]. now intros b [_ H].
    + constructor; [|now apply IH].
      apply Forall_forall. intros b Hb. apply setNth_In in Hb.
      destruct Hb as [-> | Hb]; [apply Hav|].
      rewrite Forall_forall in Ha. now apply Ha.
Qed.

Lemma ForallOrdPairs_snoc {A : Type} (R : A -> A -> Prop) (l : list A) v :
  ForallOrdPairs R l -> Forall (fun a => R a v) l -> ForallOrdPairs R (l ++ [v]).
Proof.
  induction 1 as [|a l Ha Hl IH]; intros Hv; simpl.
  - repeat constructor.
  - apply Forall_cons_iff in Hv. destruct Hv as [Hav Hv].
    constructor; [|now apply IH].
    apply Forall_app. split; [exact Ha | now constructor].
Qed.

Lemma ForallOrdPairs_nth {A : Type} (R : A -> A -> Prop) (l : list A) :
  ForallOrdPairs R l ->
  forall i j x y, (i < j)%nat -> nth_error l i = Some x -> nth_error l j = Some y -> R x y.
Proof.
  induction 1 as [|a l Ha Hl IH]; intros i j x y Hij Hi Hj.
  - destruct i; discriminate.
  - destruct j as [|j]; [lia|]. simpl in Hj. destruct i as [|i]; simpl in Hi.
    + injection Hi as <-. rewrite Forall_forall in Ha. apply Ha.
      eapply nth_error_In. exact Hj.
    + apply (IH i j); [lia | assumption | assumption].
Qed.

Lemma assignLoop_bars rows sorted : map bar (assignLoop rows sorted) = sorted.
Proof.
  revert rows. induction sorted as [|b rest IH]; intros rows; simpl; [reflexivity|].
  destruct (firstFit rows (startX b)); simpl; now rewrite IH.
Qed.

(** A bar joins a row only at or after the end tracked for that row, and so
    at or after the end of every bar put there before it. *)
Lemma assignLoop_left_to_right sorted :
  ForallOrdPairs (fun a b => startX a <= startX b) sorted ->
  forall rows,
    Forall (fun tb => forall e, nth_error rows (row tb) = Some e -> e <= startX (bar tb))
      (assignLoop rows sorted)
    /\ ForallOrdPairs (fun x y => row x = row y -> endX (bar x) <= startX (bar y))
         (assignLoop rows sorted).
Proof.
  induction 1 as [|b rest Hb Hrest IH]; intros rows; simpl.
  - split; constructor.
  - assert (Hlater : forall rows', Forall (fun tb => startX b <= startX (bar tb))
                                     (assignLoop rows' rest)).
    { intros rows'. apply Forall_forall. intros tb Htb.
      rewrite Forall_forall in Hb. apply Hb.
      rewrite <- (assignLoop_bars rows' rest). now apply in_map. }
    destruct (firstFit rows (startX b)) as [i|] eqn:Hfit.
    + destruct (firstFit_Some _ _ _ Hfit) as (e0 & He0 & Hle0).
      assert (Hi : (i < List.length rows)%nat) by (apply nth_error_Some; congruence).
      destruct (IH (setNth rows i (endX b))) as [HA HB].
      specialize (Hlater (setNth rows i (endX b))).
      rewrite Forall_forall in HA, Hlater.
      split; constructor.
      * simpl. intros e He. congruence.
      * apply Forall_forall. intros tb Htb e He.
        destruct (Nat.eq_dec i (row tb)) as [Heq | Hne].
        -- subst i. assert (e = e0) by congruence. subst e.
           specialize (Hlater tb Htb). simpl in Hlater. lra.
        -- apply (HA tb Htb). now rewrite setNth_other.
      * apply Forall_forall. intros tb Htb Hrow. simpl in *.
        apply (HA tb Htb). rewrite <- Hrow. now apply setNth_same.
      * exact HB.
    + destruct (IH (rows ++ [endX b])) as [HA HB].
      rewrite Forall_forall in HA.
      split; constructor.
      * simpl. intros e He.
        assert (nth_error rows (List.length rows) = None) by now apply nth_error_None.
        congruence.
      * apply Forall_forall. intros tb Htb e He.
        apply (HA tb Htb). rewrite nth_error_app1; [exact He|].
        apply nth_error_Some. congruence.
      * apply Forall_forall. intros tb Htb Hrow. simpl in *.
        apply (HA tb Htb). rewrite <- Hrow.
        rewrite nth_error_app2 by lia. now rewrite Nat.sub_diag.
      * exact HB.
Qed.

Lemma setNth_Forall {A : Type} (P : A -> Prop) (l : list A) i v :
  Forall P l -> P v -> Forall P (setNth l i v).
Proof.
  intros Hl Hv. apply Forall_forall. intros a Ha.
  apply setNth_In in Ha. destruct Ha as [-> | Ha]; [exact Hv|].
  rewrite Forall_forall in Hl. now apply Hl.
Qed.

Lemma ForallOrdPairs_impl_In {A : Type} (R S : A -> A -> Prop) (l : list A) :
  (forall a b, In a l -> In b l -> R a b -> S a b) ->
  ForallOrdPairs R l -> ForallOrdPairs S l.
Proof.
  intros HRS Hl. induction Hl as [|a l Ha Hl IH]; constructor.
  - apply Forall_forall. intros b Hb. rewrite Forall_forall in Ha.
    apply HRS; [now left | now right | now apply Ha].
  - apply IH. intros x y Hx Hy. apply HRS; now right.
Qed.

Lemma ForallOrdPairs_map {A B : Type} (f : A -> B) (R : B -> B -> Prop) (l : list A) :
  ForallOrdPairs R (map f l) <-> ForallOrdPairs (fun a b => R (f a) (f b)) l.
Proof.
  induction l as [|a l IH]; simpl.
  - split; constructor.
  - split; intros H; inversion H; subst; constructor;
      try (now apply IH); now apply Forall_map.
Qed.

(** Pairwise distinct row labels below [m] are at most [m]. *)
Lemma distinct_labels_bound {A : Type} (label : A -> nat) (l : list A) (m : nat) :
  ForallOrdPairs (fun p q => label p <> label q) l ->
  Forall (fun p => (label p < m)%nat) l ->
  (List.length l <= m)%nat.
Proof.
  intros Hdistinct Hbound.
  rewrite <- (length_map label l), <- (length_seq m 0).
  apply NoDup_incl_length.
  - apply NoDup_iff_ForallOrdPairs. now apply ForallOrdPairs_map.
  - intros r Hr. apply in_map_iff in Hr. destruct Hr as (p & <- & Hp).
    rewrite Forall_forall in Hbound. apply in_seq. specialize (Hbound p Hp). lia.
Qed.

(** The heart of minimality.  [lasts] pairs the bar last put in each row with
    the row a competing labelling gives it: whenever the packer opens a new
    row, those bars and the new one all span the new bar's start, so the
    competitor has them in pairwise distinct rows. *)
Lemma rowsAfter_bound (m : nat) (labelled : list (Bar * nat)) :
  ForallOrdPairs (fun p q => startX (fst p) <= startX (fst q)) labelled ->
  packedInOrder labelled ->
  Forall (fun q => (snd q < m)%nat) labelled ->
  forall lasts : list (Bar * nat),
    ForallOrdPairs
      (fun p q => snd p = snd q ->
                  endX (fst p) <= startX (fst q) \/ endX (fst q) <= startX (fst p)) lasts ->
    Forall (fun l => Forall (fun q => startX (fst l) <= startX (fst q)
                                      /\ (snd l = snd q -> endX (fst l) <= startX (fst q)))
                       labelled) lasts ->
    Forall (fun l => (snd l < m)%nat) lasts ->
    (List.length lasts <= m)%nat ->
    (List.length (rowsAfter (map (fun l => endX (fst l)) lasts) (map fst labelled)) <= m)%nat.
Proof.
  unfold packedInOrder.
  induction labelled as [|[b c] rest IH];
    intros Hsorted Hpacked Hm lasts Hpairs Hcross Hlm Hlen; simpl; [now rewrite length_map|].
  inversion Hsorted as [|? ? Hb Hsorted']; subst.
  inversion Hpacked as [|? ? Hc Hpacked']; subst.
  inversion Hm as [|? ? Hcm Hm']; subst. simpl in Hb, Hc, Hcm.
  assert (Hhead : Forall (fun l => startX (fst l) <= startX b
                                   /\ (snd l = c -> endX (fst l) <= startX b)) lasts).
  { eapply Forall_impl; [|exact Hcross]. intros l Hl.
    now inversion Hl. }
  assert (Htail : Forall (fun l => Forall (fun q => startX (fst l) <= startX (fst q)
                            /\ (snd l = snd q -> endX (fst l) <= startX (fst q))) rest) lasts).
  { eapply Forall_impl; [|exact Hcross]. intros l Hl. now inversion Hl. }
  assert (Hnew : Forall (fun q => startX b <= startX (fst q)
                                  /\ (c = snd q -> endX b <= startX (fst q))) rest).
  { rewrite Forall_forall in Hb, Hc. apply Forall_forall. intros q Hq.
    split; [now apply Hb | now apply Hc]. }
  destruct (firstFit (map (fun l => endX (fst l)) lasts) (startX b)) as [i|] eqn:Hfit.
  - change (endX b) with ((fun l : Bar * nat => endX (fst l)) (b, c)).
    rewrite <- setNth_map.
    apply IH; try assumption.
    + apply setNth_pairs; [exact Hpairs|].
      eapply Forall_impl; [|exact Hhead]. simpl. intros l [_ Hl].
      split; intros Heq; [left | right]; apply Hl; congruence.
    + now apply setNth_Forall.
    + now apply setNth_Forall.
    + now rewrite setNth_length.
  - apply firstFit_None in Hfit. rewrite Forall_map in Hfit.
    assert (Hdistinct : ForallOrdPairs (fun p q : Bar * nat => snd p <> snd q)
                          (lasts ++ [(b, c)])).
    { apply ForallOrdPairs_snoc.
      - eapply ForallOrdPairs_impl_In; [|exact Hpairs].
        intros p q Hp Hq Hpq Heq.
        rewrite Forall_forall in Hfit, Hhead.
        pose proof (Hfit p Hp). pose proof (Hfit q Hq).
        destruct (Hhead p Hp) as [? _]. destruct (Hhead q Hq) as [? _].
        destruct (Hpq Heq); lra.
      - apply Forall_forall. intros p Hp Heq. simpl in Heq.
        rewrite Forall_forall in Hfit, Hhead.
        pose proof (Hfit p Hp). destruct (Hhead p Hp) as [_ Hend].
        specialize (Hend Heq). lra. }
    assert (Hlen' : (List.length (lasts ++ [(b, c)]) <= m)%nat).
    { apply (distinct_labels_bound snd); [exact Hdistinct|].
      apply Forall_app. split; [exact Hlm | now constructor]. }
    change [endX b] with (map (fun l : Bar * nat => endX (fst l)) [(b, c)]).
    rewrite <- map_app.
    apply IH; try assumption.
    + apply ForallOrdPairs_snoc; [exact Hpairs|].
      eapply Forall_impl; [|exact Hhead]. simpl. intros l [_ Hl] Heq. left. now apply Hl.
    + apply Forall_app. split; [exact Htail | now constructor].
    + apply Forall_app. split; [exact Hlm | now constructor].
Qed.

Lemma rowsAfter_grows rows sorted :
  (List.length rows <= List.length (rowsAfter rows sorted))%nat.
Proof.
  revert rows. induction sorted as [|b rest IH]; intros rows; simpl; [lia|].
  destruct (firstFit rows (startX b)) as [i|].
  - rewrite <- (setNth_length rows i (endX b)) at 1. apply IH.
  - etransitivity; [|apply IH]. rewrite length_app. simpl. lia.
Qed.

Lemma rowsUsed_cons tb tbs :
  rowsUsed (tb :: tbs) = Nat.max (S (row tb)) (rowsUsed tbs).
Proof. reflexivity. Qed.

Lemma rowsUsed_rowsAfter rows sorted :
  (rowsUsed (assignLoop rows sorted) <= List.length (rowsAfter rows sorted))%nat.
Proof.
  revert rows. induction sorted as [|b rest IH]; intros rows;
    cbn [assignLoop rowsAfter]; [cbn; lia|].
  destruct (firstFit rows (startX b)) as [i|] eqn:Hfit;
    rewrite rowsUsed_cons; cbn [row].
  - destruct (firstFit_Some _ _ _ Hfit) as (e & He & _).
    assert (Hi : (i < List.length rows)%nat) by (apply nth_error_Some; congruence).
    apply Nat.max_lub; [|apply IH].
    etransitivity; [|apply rowsAfter_grows]. rewrite setNth_length. lia.
  - apply Nat.max_lub; [|apply IH].
    etransitivity; [|apply rowsAfter_grows]. rewrite length_app. simpl. lia.
Qed.

Lemma map_fst_combine {A B : Type} (l : list A) (l' : list B) :
  List.length l' = List.length l -> map fst (combine l l') = l.
Proof.
  revert l'. induction l as [|a l IH]; intros [|b l'] H; simpl in *;
    try reflexivity; try discriminate.
  f_equal. apply IH. lia.
Qed.

Lemma map_snd_combine {A B : Type} (l : list A) (l' : list B) :
  List.length l' = List.length l -> map snd (combine l l') = l'.
Proof.
  revert l'. induction l as [|a l IH]; intros [|b l'] H; simpl in *;
    try reflexivity; try discriminate.
  f_equal. apply IH. lia.
Qed.

Lemma rowsUsed_In tb tbs : In tb tbs -> (row tb < rowsUsed tbs)%nat.
Proof.
  induction tbs as [|a tbs IH]; [contradiction|].
  rewrite rowsUsed_cons. intros [<- | Hin]; [lia|].
  specialize (IH Hin). lia.
Qed.

(** The packing of the specification's example: A and C share row 0. *)
Example assignRows_ABC :
  map (fun tb => (id (bar_task (bar tb)), row tb)) (assignRows barsABC)
  = [("A", 0%nat); ("B", 1%nat); ("C", 0%nat)]%string.
Proof. reflexivity. Qed.

(** No labelling of the sorted bars that honours the left-to-right
    constraint uses fewer rows than the packer. *)
Lemma assignRows_minimal_in_order (taskBars : list Bar) (labels : list nat) (m : nat) :
  List.length labels = List.length (sortByStartX taskBars) ->
  packedInOrder (combine (sortByStartX taskBars) labels) ->
  Forall (fun r => (r < m)%nat) labels ->
  (rowsUsed (assignRows taskBars) <= m)%nat.
Proof.
  intros Hlen Hpacked Hm.
  pose proof (sortByStartX_sorted taskBars) as Hsorted.
  etransitivity; [apply rowsUsed_rowsAfter|].
  rewrite <- (map_fst_combine (sortByStartX taskBars) labels Hlen).
  apply (rowsAfter_bound m (combine (sortByStartX taskBars) labels)) with (lasts := []);
    try constructor; try assumption; try (simpl; lia).
  - apply (ForallOrdPairs_map fst (fun a b => startX a <= startX b)).
    now rewrite map_fst_combine.
  - apply (Forall_map snd (fun r => (r < m)%nat)).
    now rewrite map_snd_combine.
Qed.

(** C1. For every list of bars, [assignRows] lists the bars in ascending
    [startX] order, each with a row, such that no two bars with the same row
    overlap; and it uses the fewest rows for that order: its own rows honour
    the left-to-right constraint, and every labelling of the sorted bars
    that honours it with rows below [m] needs [m] at least the number of rows
    the packer used. *)
Theorem assignRows_packing (taskBars : list Bar) :
  let sorted := sortByStartX taskBars in
  let out := assignRows taskBars in
  Permutation taskBars sorted
  /\ ForallOrdPairs (fun a b => startX a <= startX b) sorted
  /\ map bar out = sorted
  /\ (forall i j x y,
        i <> j -> nth_error out i = Some x -> nth_error out j = Some y ->
        row x = row y -> ~ overlap (bar x) (bar y))
  /\ packedInOrder (map (fun tb => (bar tb, row tb)) out)
  /\ Forall (fun tb => (row tb < rowsUsed out)%nat) out
  /\ (forall (labels : list nat) (m : nat),
        List.length labels = List.length sorted ->
        packedInOrder (combine sorted labels) ->
        Forall (fun r => (r < m)%nat) labels ->
        (rowsUsed out <= m)%nat).
Proof.
  intros sorted out.
  pose proof (sortByStartX_sorted taskBars) as Hsorted. fold sorted in Hsorted.
  destruct (assignLoop_left_to_right sorted Hsorted []) as [_ Hrows].
  fold (assignRows taskBars) in Hrows. fold out in Hrows.
  split; [apply sort_perm|]. split; [exact Hsorted|].
  split; [apply assignLoop_bars|].
  split; [|split; [|split]].
  - intros i j x y Hij Hx Hy Hrow [Hxy Hyx].
    destruct (Nat.lt_total i j) as [Hlt | [Heq | Hgt]]; [|contradiction|].
    + pose proof (ForallOrdPairs_nth _ _ Hrows i j x y Hlt Hx Hy Hrow). lra.
    + pose proof (ForallOrdPairs_nth _ _ Hrows j i y x Hgt Hy Hx (eq_sym Hrow)). lra.
  - unfold packedInOrder. apply ForallOrdPairs_map. exact Hrows.
  - apply Forall_forall. intros tb. apply rowsUsed_In.
  - intros labels m. apply assignRows_minimal_in_order.
Qed.

Lemma ForallOrdPairs_of_nth {A : Type} (R : A -> A -> Prop) (l : list A) :
  (forall i j x y, (i < j)%nat -> nth_error l i = Some x -> nth_error l j = Some y -> R x y) ->
  ForallOrdPairs R l.
Proof.
  induction l as [|a l IH]; intros H; constructor.
  - apply Forall_forall. intros b Hb. apply In_nth_error in Hb. destruct Hb as [j Hj].
    apply (H O (S j)); [lia | reflexivity | exact Hj].
  - apply IH. intros i j x y Hij Hx Hy. apply (H (S i) (S j)); [lia | exact Hx | exact Hy].
Qed.

(** Among bars of positive width the left-to-right constraint is plain
    non-overlap, so the packer's row count is the least of any labelling in
    which bars of one row do not overlap. *)
Corollary assignRows_fewest_rows (taskBars : list Bar) (labels : list nat) (m : nat) :
  Forall (fun b => startX b < endX b) taskBars ->
  List.length labels = List.length (sortByStartX taskBars) ->
  (forall i j p q,
     i <> j ->
     nth_error (combine (sortByStartX taskBars) labels) i = Some p ->
     nth_error (combine (sortByStartX taskBars) labels) j = Some q ->
     snd p = snd q -> ~ overlap (fst p) (fst q)) ->
  Forall (fun r => (r < m)%nat) labels ->
  (rowsUsed (assignRows taskBars) <= m)%nat.
Proof.
  intros Hwidth Hlen Hvalid Hm.
  pose proof (sortByStartX_sorted taskBars) as Hsorted.
  apply (assignRows_minimal_in_order taskBars labels m Hlen); [|exact Hm].
  apply ForallOrdPairs_of_nth. intros i j p q Hij Hp Hq Hrow.
  assert (Hord : startX (fst p) <= startX (fst q)).
  { apply (ForallOrdPairs_nth _ _ Hsorted i j); [exact Hij| |].
    - rewrite <- (map_fst_combine (sortByStartX taskBars) labels Hlen).
      rewrite nth_error_map, Hp. reflexivity.
    - rewrite <- (map_fst_combine (sortByStartX taskBars) labels Hlen).
      rewrite nth_error_map, Hq. reflexivity. }
  assert (Hq_width : startX (fst q) < endX (fst q)).
  { rewrite Forall_forall in Hwidth. apply Hwidth.
    apply (proj1 (sort_In (fun a b => Qleb (startX a) (startX b)) (fst q) taskBars)).
    fold (sortByStartX taskBars).
    rewrite <- (map_fst_combine (sortByStartX taskBars) labels Hlen).
    apply in_map. eapply nth_error_In. exact Hq. }
  assert (Hno : ~ overlap (fst p) (fst q)) by (apply (Hvalid i j); [lia | assumption..]).
  unfold overlap in Hno.
  destruct (Qlt_le_dec (startX (fst q)) (endX (fst p))) as [Hlt | Hle]; [|exact Hle].
  exfalso. apply Hno. split; [lra | exact Hlt].
Qed.

(** A bar of no width sorted after a bar with the same start is the case
    where the order matters: it is given a row of its own. *)
Remark zero_width_bar_after_equal_start :
  map row (assignRows [barOf "A" 0 100; barOf "Z" 0 0]) = [0%nat; 1%nat]
  /\ map row (assignRows [barOf "Z" 0 0; barOf "A" 0 100]) = [0%nat; 0%nat].
Proof. split; reflexivity. Qed.

(** ** Dates *)

Open Scope Z_scope.

Lemma InLeapYear_range y : 0 <= InLeapYear y <= 1.
Proof.
  unfold InLeapYear.
  destruct ((y mod 4 =? 0) && (negb (y mod 100 =? 0) || (y mod 400 =? 0))); lia.
Qed.

Lemma MonthFromTime_range t : 0 <= MonthFromTime t <= 11.
Proof.
  unfold MonthFromTime.
  repeat match goal with
         | |- context [if ?b then _ else _] => destruct b
         end; lia.
Qed.

Lemma DayFromYear_succ y : DayFromYear (y + 1) = DayFromYear y + 365 + InLeapYear y.
Proof.
  unfold DayFromYear, InLeapYear.
  replace (y + 1 - 1970) with (y - 1969) by lia.
  replace (y + 1 - 1969) with (y - 1968) by lia.
  replace (y + 1 - 1901) with (y - 1900) by lia.
  replace (y + 1 - 1601) with (y - 1600) by lia.
  assert (H4 : (y - 1968) / 4 = (y - 1969) / 4 + (if y mod 4 =? 0 then 1 else 0)).
  { destruct (Z.eqb_spec (y mod 4) 0); Z.div_mod_to_equations; lia. }
  assert (H100 : (y - 1900) / 100 = (y - 1901) / 100 + (if y mod 100 =? 0 then 1 else 0)).
  { destruct (Z.eqb_spec (y mod 100) 0); Z.div_mod_to_equations; lia. }
  assert (H400 : (y - 1600) / 400 = (y - 1601) / 400 + (if y mod 400 =? 0 then 1 else 0)).
  { destruct (Z.eqb_spec (y mod 400) 0); Z.div_mod_to_equations; lia. }
  rewrite H4, H100, H400.
  destruct (Z.eqb_spec (y mod 4) 0); destruct (Z.eqb_spec (y mod 100) 0);
    destruct (Z.eqb_spec (y mod 400) 0); cbn [andb orb negb]; try lia.
  all: Z.div_mod_to_equations; lia.
Qed.

(** [MakeDay] at the year and month of [t] counts days from [t]'s own date. *)
Lemma MakeDay_of_time t date :
  MakeDay (YearFromTime t) (MonthFromTime t) date = Day t + (date - DateFromTime t).
Proof.
  pose proof (MonthFromTime_range t) as Hm.
  unfold MakeDay. rewrite Z.div_small, Z.mod_small by lia.
  rewrite Z.add_0_r. unfold DateFromTime, DayWithinYear. lia.
Qed.

Lemma MakeDate_of_time t : MakeDate (Day t) (TimeWithinDay t) = t.
Proof.
  unfold MakeDate, Day, TimeWithinDay, msPerDay. Z.div_mod_to_equations. lia.
Qed.

Lemma setDate_step t k : setDate t (DateFromTime t + k) = t + k * msPerDay.
Proof.
  unfold setDate. rewrite MakeDay_of_time.
  unfold MakeDate, Day, TimeWithinDay, msPerDay. Z.div_mod_to_equations. lia.
Qed.

Lemma setHours_step t : setHours t (HourFromTime t + 1) = t + msPerHour.
Proof.
  unfold setHours, MakeDate, MakeTime, Day, HourFromTime, MinFromTime, SecFromTime,
    msFromTime, msPerDay, msPerHour, msPerMinute, msPerSecond.
  Z.div_mod_to_equations. lia.
Qed.

Lemma setMinutes_step t : setMinutes t (MinFromTime t + 1) = t + msPerMinute.
Proof.
  unfold setMinutes, MakeDate, MakeTime, Day, HourFromTime, MinFromTime, SecFromTime,
    msFromTime, msPerDay, msPerHour, msPerMinute, msPerSecond.
  Z.div_mod_to_equations. lia.
Qed.

(** The next month starts at least 28 days later. *)
Lemma MakeDay_next_month y mn date :
  0 <= mn <= 11 -> MakeDay y mn date + 28 <= MakeDay y (mn + 1) date.
Proof.
  intros Hmn. pose proof (InLeapYear_range y) as Hleap.
  pose proof (DayFromYear_succ y) as Hsucc.
  unfold MakeDay.
  assert (Hcases : mn = 0 \/ mn = 1 \/ mn = 2 \/ mn = 3 \/ mn = 4 \/ mn = 5 \/ mn = 6
                   \/ mn = 7 \/ mn = 8 \/ mn = 9 \/ mn = 10 \/ mn = 11) by lia.
  repeat (destruct Hcases as [-> | Hcases]); try subst mn;
    repeat match goal with
           | |- context [?a / 12] =>
               let v := eval vm_compute in (a / 12) in change (a / 12) with v
           | |- context [?a mod 12] =>
               let v := eval vm_compute in (a mod 12) in change (a mod 12) with v
           end;
    rewrite ?Z.add_0_r; unfold monthStart; cbn [Z.eqb Pos.eqb]; lia.
Qed.

Lemma setMonth_step t : t + 28 * msPerDay <= setMonth t (MonthFromTime t + 1).
Proof.
  unfold setMonth.
  pose proof (MakeDay_next_month (YearFromTime t) (MonthFromTime t) (DateFromTime t)
                (MonthFromTime_range t)) as H.
  rewrite MakeDay_of_time in H.
  unfold MakeDate, Day, TimeWithinDay, msPerDay in *. Z.div_mod_to_equations. lia.
Qed.

(** Every calendar unit of the zoom table moves the date on by a minute at
    least. *)
Lemma advanceDate_progress fmt t :
  fmt <> Fother -> t + msPerMinute <= advanceDate fmt t.
Proof.
  intros Hfmt. destruct fmt; unfold advanceDate; try contradiction.
  - pose proof (setMonth_step t). unfold msPerDay, msPerMinute in *. lia.
  - rewrite setDate_step. unfold msPerDay, msPerMinute. lia.
  - rewrite setDate_step. unfold msPerDay, msPerMinute. lia.
  - rewrite setHours_step. unfold msPerHour, msPerMinute. lia.
  - rewrite setMinutes_step. lia.
Qed.

Lemma zoom_format_known z : format (ZOOM_CONFIGS z) <> Fother.
Proof. destruct z; discriminate. Qed.

Close Scope Z_scope.

(** ** Tick generation *)

Lemma lastOpt_snoc {A : Type} (l : list A) (a : A) : lastOpt (l ++ [a]) = Some a.
Proof.
  induction l as [|b l IH]; [reflexivity|].
  simpl. destruct (l ++ [a]) eqn:E; [|exact IH].
  destruct l; discriminate.
Qed.

Lemma consecutive_snoc {A : Type} (R : A -> A -> Prop) (l : list A) (b : A) :
  consecutive R l ->
  (forall a, lastOpt l = Some a -> R a b) ->
  consecutive R (l ++ [b]).
Proof.
  induction l as [|a l IH]; intros Hl Hlast; [exact I|].
  destruct l as [|a' l].
  - simpl. split; [now apply Hlast | exact I].
  - destruct Hl as [Haa' Hl]. split; [exact Haa'|].
    apply IH; [exact Hl|]. intros x Hx. now apply Hlast.
Qed.

Lemma Qfloor_inject_le (c : Z) (q : Q) : inject_Z c <= q -> (c <= Qfloor q)%Z.
Proof.
  intros H. rewrite <- (Qfloor_Z c). now apply Qfloor_resp_le.
Qed.

Section TickLoopFacts.
Variables (timelineStart timelineEnd : Q) (fmt : Format).
Variables (timelineWidth msPerPixel_ minTickSpacing_ : Q).

Lemma loopBody_currentDate st :
  currentDate (loopBody timelineStart fmt timelineWidth msPerPixel_ minTickSpacing_ st)
  = advanceDate fmt (currentDate st).
Proof.
  unfold loopBody.
  repeat match goal with
         | |- context [if ?b then _ else _] => destruct b
         | |- context [match ?o with Some _ => _ | None => _ end] => destruct o
         end; reflexivity.
Qed.

Lemma loopBody_invariant st :
  (tickCount st < 100)%Z ->
  tickInvariant timelineWidth minTickSpacing_ st ->
  tickInvariant timelineWidth minTickSpacing_
    (loopBody timelineStart fmt timelineWidth msPerPixel_ minTickSpacing_ st).
Proof.
  intros Hcap (Hin & Hsp & Hlast & Hcount & Hle).
  unfold loopBody.
  set (x := timelineWidth - (inject_Z (currentDate st) - timelineStart) / msPerPixel_).
  assert (Hkeep : tickInvariant timelineWidth minTickSpacing_
                    {| currentDate := advanceDate fmt (currentDate st);
                       ticks := ticks st;
                       lastAddedX := lastAddedX st;
                       tickCount := tickCount st |}).
  { exact (conj Hin (conj Hsp (conj Hlast (conj Hcount Hle)))). }
  destruct (Qleb timelineStart (inject_Z (currentDate st))); [|exact Hkeep].
  destruct (Qleb 0 x && Qleb x timelineWidth) eqn:Hx; [|exact Hkeep].
  apply andb_true_iff in Hx. destruct Hx as [Hx0 Hxw].
  apply Qleb_le in Hx0. apply Qleb_le in Hxw.
  assert (Hadd : forall spaced : Prop,
             (forall a, lastOpt (ticks st) = Some a ->
                        spaced -> minTickSpacing_ <= Qabs (x - tick_x a)) ->
             (forall a, lastOpt (ticks st) = Some a -> spaced) ->
             tickInvariant timelineWidth minTickSpacing_
               {| currentDate := advanceDate fmt (currentDate st);
                  ticks := ticks st ++ [{| tick_x := x; tick_time := currentDate st |}];
                  lastAddedX := Some x;
                  tickCount := (tickCount st + 1)%Z |}).
  { intros spaced Hspaced Hyes. unfold tickInvariant.
    cbn [ticks lastAddedX tickCount currentDate].
    split; [apply Forall_app; split; [exact Hin | repeat constructor; assumption]|].
    split; [apply consecutive_snoc; [exact Hsp|]; intros a Ha; cbn [tick_x]; eauto|].
    split; [now rewrite lastOpt_snoc|].
    rewrite length_app. cbn [List.length]. lia. }
  destruct (lastAddedX st) as [last|] eqn:Hl.
  - destruct (Qleb minTickSpacing_ (Qabs (x - last))) eqn:Hs;
      [|cbn [ticks lastAddedX tickCount currentDate]; rewrite ?Hl; exact Hkeep].
    apply Qleb_le in Hs.
    apply (Hadd True); [|trivial]. intros a Ha _.
    rewrite Ha in Hlast. simpl in Hlast. injection Hlast as ->. exact Hs.
  - apply (Hadd False); [tauto|]. intros a Ha.
    rewrite Ha in Hlast. discriminate.
Qed.

Lemma whileLoop_invariant fuel :
  forall st final n,
    whileLoop timelineStart timelineEnd fmt timelineWidth msPerPixel_ minTickSpacing_
      fuel st = Some (final, n) ->
    tickInvariant timelineWidth minTickSpacing_ st ->
    tickInvariant timelineWidth minTickSpacing_ final.
Proof.
  induction fuel as [|fuel IH]; intros st final n Hrun Hst; [discriminate|].
  cbn [whileLoop] in Hrun.
  destruct (loopGuard timelineEnd st) eqn:Hguard.
  - apply andb_true_iff in Hguard. destruct Hguard as [_ Hcap].
    apply Z.ltb_lt in Hcap.
    pose proof (loopBody_invariant st Hcap Hst) as Hbody.
    set (st' := loopBody timelineStart fmt timelineWidth msPerPixel_ minTickSpacing_ st)
      in *.
    destruct (100 <? tickCount st')%Z.
    + injection Hrun as <- _. exact Hbody.
    + destruct (whileLoop timelineStart timelineEnd fmt timelineWidth msPerPixel_
                  minTickSpacing_ fuel st') as [[final' n']|] eqn:Hrest; [|discriminate].
      injection Hrun as <- _. now apply (IH _ _ _ Hrest).
  - injection Hrun as <- _. exact Hst.
Qed.

(** More fuel does not change a finished run. *)
Lemma whileLoop_more_fuel fuel :
  forall st r,
    whileLoop timelineStart timelineEnd fmt timelineWidth msPerPixel_ minTickSpacing_
      fuel st = Some r ->
    forall fuel', (fuel <= fuel')%nat ->
    whileLoop timelineStart timelineEnd fmt timelineWidth msPerPixel_ minTickSpacing_
      fuel' st = Some r.
Proof.
  induction fuel as [|fuel IH]; intros st r Hrun fuel' Hle; [discriminate|].
  destruct fuel' as [|fuel']; [lia|].
  cbn [whileLoop] in *.
  destruct (loopGuard timelineEnd st); [|exact Hrun].
  set (st' := loopBody timelineStart fmt timelineWidth msPerPixel_ minTickSpacing_ st)
    in *.
  destruct (100 <? tickCount st')%Z; [exact Hrun|].
  destruct (whileLoop timelineStart timelineEnd fmt timelineWidth msPerPixel_
              minTickSpacing_ fuel st') as [r'|] eqn:Hrest; [|discriminate].
  rewrite (IH _ _ Hrest fuel') by lia. exact Hrun.
Qed.

(** With a calendar unit of the zoom table the loop ends: each iteration moves
    [currentDate] on, and the guard fails once it is past [timelineEnd]. *)
Lemma whileLoop_total (k : nat) :
  fmt <> Fother ->
  forall st,
    (Qfloor timelineEnd - currentDate st < Z.of_nat k)%Z ->
    exists final n,
      whileLoop timelineStart timelineEnd fmt timelineWidth msPerPixel_ minTickSpacing_
        (S k) st = Some (final, n).
Proof.
  intros Hfmt. induction k as [|k IH]; intros st Hk.
  - cbn [whileLoop]. destruct (loopGuard timelineEnd st) eqn:Hguard; [|eauto].
    apply andb_true_iff in Hguard. destruct Hguard as [Hend _].
    apply Qleb_le, Qfloor_inject_le in Hend. lia.
  - remember (S k) as fuel. cbn [whileLoop].
    destruct (loopGuard timelineEnd st) eqn:Hguard; [|eauto].
    apply andb_true_iff in Hguard. destruct Hguard as [Hend _].
    apply Qleb_le, Qfloor_inject_le in Hend.
    set (st' := loopBody timelineStart fmt timelineWidth msPerPixel_ minTickSpacing_ st).
    destruct (100 <? tickCount st')%Z; [eauto|].
    destruct (IH st') as (final & n & Hrun).
    + unfold st'. rewrite loopBody_currentDate.
      pose proof (advanceDate_progress fmt (currentDate st) Hfmt).
      unfold msPerMinute in *. lia.
    + subst fuel. rewrite Hrun. eauto.
Qed.
End TickLoopFacts.

Lemma initialLoop_invariant timelineStart fmt timelineWidth minTickSpacing_ :
  tickInvariant timelineWidth minTickSpacing_ (initialLoop timelineStart fmt).
Proof.
  unfold tickInvariant, initialLoop. simpl.
  repeat split; try constructor. discriminate.
Qed.

Lemma generateTicks_total timelineStart timelineEnd tickInterval_ fmt
    timelineWidth msPerPixel_ minTickSpacing_ :
  fmt <> Fother ->
  exists fuel ticks_,
    generateTicks fuel timelineStart timelineEnd tickInterval_ fmt
      timelineWidth msPerPixel_ minTickSpacing_ = Some ticks_.
Proof.
  intros Hfmt.
  set (k := Z.to_nat (Qfloor timelineEnd - firstTickDate fmt timelineStart + 1)).
  destruct (whileLoop_total timelineStart timelineEnd fmt timelineWidth msPerPixel_
              minTickSpacing_ k Hfmt (initialLoop timelineStart fmt))
    as (final & n & Hrun).
  { unfold initialLoop, k. simpl. lia. }
  exists (S k), (ticks final). unfold generateTicks. now rewrite Hrun.
Qed.

Lemma generateTicks_invariant fuel timelineStart timelineEnd tickInterval_ fmt
    timelineWidth msPerPixel_ minTickSpacing_ ticks_ :
  generateTicks fuel timelineStart timelineEnd tickInterval_ fmt
    timelineWidth msPerPixel_ minTickSpacing_ = Some ticks_ ->
  Forall (fun t => 0 <= tick_x t /\ tick_x t <= timelineWidth) ticks_
  /\ consecutive (fun a b => minTickSpacing_ <= Qabs (tick_x b - tick_x a)) ticks_
  /\ (List.length ticks_ <= 100)%nat.
Proof.
  unfold generateTicks.
  destruct (whileLoop _ _ _ _ _ _ _ _) as [[final n]|] eqn:Hrun; [|discriminate].
  intros [= <-].
  destruct (whileLoop_invariant _ _ _ _ _ _ _ _ _ _ Hrun
              (initialLoop_invariant _ _ _ _)) as (Hin & Hsp & _ & Hcount & Hle).
  repeat split; try assumption. lia.
Qed.

(** The claim C4 fails as a bound on iterations: at the [months] zoom level
    and the default width of 600 pixels the loop body runs 139 times and keeps
    12 ticks; the counter compared with 100 counts kept ticks only. *)
Lemma tick_loop_runs_past_100 :
  timelineTicks_iterations 200 january2026 1768000000000 600 (initialView months)
    = Some 139%nat
  /\ option_map (@List.length Tick)
       (timelineTicks 200 january2026 1768000000000 600 (initialView months))
     = Some 12%nat
  /\ ~ (139 <= 100)%nat.
Proof.
  split; [vm_compute; reflexivity|]. split; [vm_compute; reflexivity | lia].
Qed.

(** With a format outside the zoom table the date never advances, and the
    cap does not stop the loop: after the first tick nothing more is kept. *)
Remark unknown_format_never_ends (fuel : nat) :
  generateTicks fuel 0 1000 60000 Fother 600 1 30 = None.
Proof.
  set (st1 := loopBody 0 Fother 600 1 30 (initialLoop 0 Fother)).
  assert (Hfix : loopBody 0 Fother 600 1 30 st1 = st1) by (vm_compute; reflexivity).
  assert (Hloop : forall n, whileLoop 0 1000 Fother 600 1 30 n st1 = None).
  { induction n as [|n IH]; [reflexivity|].
    cbn [whileLoop]. rewrite Hfix.
    replace (loopGuard 1000 st1) with true by (vm_compute; reflexivity).
    replace (100 <? tickCount st1)%Z with false by (vm_compute; reflexivity).
    now rewrite IH. }
  unfold generateTicks. destruct fuel as [|fuel]; [reflexivity|].
  cbn [whileLoop]. fold st1.
  replace (loopGuard 1000 (initialLoop 0 Fother)) with true by (vm_compute; reflexivity).
  replace (100 <? tickCount st1)%Z with false by (vm_compute; reflexivity).
  now rewrite Hloop.
Qed.

(** C4, amended.  At every zoom level, for every window and width, tick
    generation terminates: some amount of fuel, and every larger one, lets
    the loop finish with the same ticks, because each iteration advances the
    date by one calendar unit and the loop stops once the date is past the
    window's end.  The cap of 100 bounds the ticks kept. *)
Theorem generateTicks_terminates z timelineStart timelineEnd timelineWidth :
  let cfg := ZOOM_CONFIGS z in
  exists fuel ticks_,
    generateTicks fuel timelineStart timelineEnd (tickInterval cfg) (format cfg)
      timelineWidth (msPerPixel cfg) (minTickSpacing cfg) = Some ticks_
    /\ (forall fuel', (fuel <= fuel')%nat ->
          generateTicks fuel' timelineStart timelineEnd (tickInterval cfg) (format cfg)
            timelineWidth (msPerPixel cfg) (minTickSpacing cfg) = Some ticks_)
    /\ (List.length ticks_ <= 100)%nat.
Proof.
  intros cfg.
  destruct (generateTicks_total timelineStart timelineEnd (tickInterval cfg) (format cfg)
              timelineWidth (msPerPixel cfg) (minTickSpacing cfg) (zoom_format_known z))
    as (fuel & ticks_ & Hrun).
  exists fuel, ticks_. split; [exact Hrun|]. split.
  - intros fuel' Hle. unfold generateTicks in *.
    destruct (whileLoop timelineStart timelineEnd (format cfg) timelineWidth
                (msPerPixel cfg) (minTickSpacing cfg) fuel
                (initialLoop timelineStart (format cfg))) as [r|] eqn:Hloop;
      [|discriminate].
    now rewrite (whileLoop_more_fuel _ _ _ _ _ _ _ _ _ Hloop fuel' Hle).
  - now apply generateTicks_invariant in Hrun.
Qed.

(** C6. At every zoom level, for every window and width, tick generation
    returns, and every tick it returns has [0 <= x <= width] and lies at
    least [minTickSpacing] pixels from the tick kept before it. *)
Theorem ticks_within_and_spaced z timelineStart timelineEnd timelineWidth :
  let cfg := ZOOM_CONFIGS z in
  (exists fuel ticks_,
     generateTicks fuel timelineStart timelineEnd (tickInterval cfg) (format cfg)
       timelineWidth (msPerPixel cfg) (minTickSpacing cfg) = Some ticks_)
  /\ forall fuel ticks_,
       generateTicks fuel timelineStart timelineEnd (tickInterval cfg) (format cfg)
         timelineWidth (msPerPixel cfg) (minTickSpacing cfg) = Some ticks_ ->
       Forall (fun t => 0 <= tick_x t /\ tick_x t <= timelineWidth) ticks_
       /\ consecutive (fun a b => minTickSpacing cfg <= Qabs (tick_x b - tick_x a)) ticks_.
Proof.
  intros cfg. split.
  - apply generateTicks_total, zoom_format_known.
  - intros fuel ticks_ Hrun. apply generateTicks_invariant in Hrun.
    destruct Hrun as (Hin & Hsp & _). now split.
Qed.

(** The ticks of fifteen consecutive hours, 40 pixels apart. *)
Example hour_ticks :
  option_map (map (fun t => (Qred (tick_x t), tick_time t)))
    (timelineTicks 200 january2026 1768000000000 600 (initialView hours))
  = Some [(5260 # 9, 1767974400000%Z); (4900 # 9, 1767978000000%Z);
          (4540 # 9, 1767981600000%Z); (4180 # 9, 1767985200000%Z);
          (3820 # 9, 1767988800000%Z); (3460 # 9, 1767992400000%Z);
          (3100 # 9, 1767996000000%Z); (2740 # 9, 1767999600000%Z);
          (2380 # 9, 1768003200000%Z); (2020 # 9, 1768006800000%Z);
          (1660 # 9, 1768010400000%Z); (1300 # 9, 1768014000000%Z);
          (940 # 9, 1768017600000%Z); (580 # 9, 1768021200000%Z);
          (220 # 9, 1768024800000%Z)].
Proof. vm_compute. reflexivity. Qed.
(** * Further properties *)

(** ** Snapping *)

Lemma Math_round_near (q : Q) : Qabs (inject_Z (Math_round q) - q) <= 1 # 2.
Proof.
  unfold Math_round.
  pose proof (Qfloor_le (q + (1 # 2))) as Hlo.
  pose proof (Qlt_floor (q + (1 # 2))) as Hhi.
  rewrite inject_Z_plus in Hhi. change (inject_Z 1) with 1 in Hhi.
  apply Qabs_Qle_condition. split; lra.
Qed.

Lemma snappedDeltaMs_near (z : ZoomLevel) (deltaX : Q) :
  Qabs (inject_Z (snappedDeltaMs z deltaX) - - deltaX * msPerPixel (ZOOM_CONFIGS z))
  <= inject_Z (snapInterval z) / 2.
Proof.
  unfold snappedDeltaMs.
  set (deltaMs := - deltaX * msPerPixel (ZOOM_CONFIGS z)).
  assert (Hs : 0 < inject_Z (snapInterval z)).
  { replace 0 with (inject_Z 0) by reflexivity. rewrite <- Zlt_Qlt.
    apply snapInterval_pos. }
  set (S := inject_Z (snapInterval z)) in *.
  pose proof (Math_round_near (deltaMs / S)) as Hr.
  set (r := inject_Z (Math_round (deltaMs / S))) in *.
  rewrite inject_Z_mult. fold r S.
  assert (E : r * S - deltaMs == (r - deltaMs / S) * S) by (field; lra).
  rewrite E, Qabs_Qmult, (Qabs_pos S) by lra.
  assert (Ehalf : S / 2 == (1 # 2) * S) by field.
  rewrite Ehalf. apply Qmult_le_compat_r; [exact Hr | lra].
Qed.

(** X1. In a move step the bar follows the pointer up to snapping: the pixel
    of any instant of the schedule, once shifted by the snapped delta, is
    within half a snap interval's worth of pixels of where the pointer
    movement alone would put it. *)
Theorem move_follows_pointer (z : ZoomLevel) (visibleStart_ width deltaX : Q) (t : Z) :
  let mpp := msPerPixel (ZOOM_CONFIGS z) in
  Qabs (pixelOf visibleStart_ mpp width (t + snappedDeltaMs z deltaX)
        - (pixelOf visibleStart_ mpp width t + deltaX))
  <= inject_Z (snapInterval z) / 2 / mpp.
Proof.
  intros mpp. pose proof (msPerPixel_pos z) as Hm. fold mpp in Hm.
  pose proof (snappedDeltaMs_near z deltaX) as Hnear. fold mpp in Hnear.
  set (D := inject_Z (snappedDeltaMs z deltaX)) in *.
  assert (E : pixelOf visibleStart_ mpp width (t + snappedDeltaMs z deltaX)
              - (pixelOf visibleStart_ mpp width t + deltaX)
              == - (D - - deltaX * mpp) * / mpp).
  { unfold pixelOf. rewrite inject_Z_plus. fold D. field. lra. }
  rewrite E, Qabs_Qmult, Qabs_opp.
  assert (Hi : 0 < / mpp) by now apply Qinv_lt_0_compat.
  rewrite (Qabs_pos (/ mpp)) by lra.
  unfold Qdiv. apply Qmult_le_compat_r; [exact Hnear | lra].
Qed.

(** ** Keyboard *)

Lemma findIndex_range {A : Type} (pred : A -> bool) (l : list A) :
  (-1 <= findIndex pred l < Z.of_nat (List.length l))%Z
  /\ (l <> [] -> (findIndex pred l < Z.of_nat (List.length l))%Z).
Proof.
  induction l as [|a l IH]; simpl findIndex; simpl List.length.
  - split; [lia | congruence].
  - destruct IH as [IH _]. destruct (pred a).
    + split; intros; lia.
    + destruct (Z.ltb_spec (findIndex pred l) 0); split; intros; lia.
Qed.

Lemma find_map_same_id (f : Task -> Task) (c : string) (l : list Task) :
  (forall t, id (f t) = id t) ->
  find (fun t => String.eqb (id t) c) (map f l)
  = option_map f (find (fun t => String.eqb (id t) c) l).
Proof.
  intros Hf. induction l as [|a l IH]; simpl; [reflexivity|].
  rewrite Hf. destruct (String.eqb (id a) c); [reflexivity | exact IH].
Qed.

Lemma mergeTask_scheduleUpdate_id (t : Task) (s : Schedule) :
  id (mergeTask t (scheduleUpdate s)) = id t.
Proof. reflexivity. Qed.

(** After a schedule update sent for [c], the first task with id [c] is the
    old one with the new schedule. *)
Lemma find_after_scheduleUpdate (tasks : list Task) (c : string) (s : Schedule) (task : Task) :
  find (fun t => String.eqb (id t) c) tasks = Some task ->
  find (fun t => String.eqb (id t) c) (updateTaskByPath tasks [c] (scheduleUpdate s))
  = Some (mergeTask task (scheduleUpdate s)).
Proof.
  intros Hfind. cbn [updateTaskByPath].
  rewrite find_map_same_id.
  - rewrite Hfind. cbn [option_map].
    apply find_some in Hfind. destruct Hfind as [_ Hid].
    now rewrite Hid.
  - intros t. destruct (String.eqb (id t) c); reflexivity.
Qed.

(** X2. The keyboard changes a schedule only through shift + left / right
    arrow on a locked timeline with the callback supplied, only for the
    focused task, only if that task has a schedule, and then by exactly one
    snap interval, later for the left arrow and earlier for the right one;
    both ends of a range move together.  The view is left as it is. *)
Theorem keyboard_moves_only_focused_task isLocked hasCallback tasks e v u :
  In u (snd (handleKeyDown isLocked hasCallback tasks e v)) ->
  isLocked = true /\ hasCallback = true /\ shiftKey e = true
  /\ focusedTaskId v = Some (fst u)
  /\ fst (handleKeyDown isLocked hasCallback tasks e v) = v
  /\ exists task sch,
       In task tasks /\ id task = fst u /\ schedule task = Some sch
       /\ ((key e = ArrowLeft
            /\ snd u = shiftedSchedule sch (snapInterval (zoomLevel v)))
           \/ (key e = ArrowRight
               /\ snd u = shiftedSchedule sch (- snapInterval (zoomLevel v)))).
Proof.
  intros Hin.
  assert (Hnofocus : shiftKey e = true -> focusByArrow isLocked tasks e v = v).
  { intros Hs. unfold focusByArrow. now rewrite Hs. }
  unfold handleKeyDown in *.
  destruct (key e) eqn:Hk; [contradiction|..].
  all: destruct (shiftKey e && truthy (focusedTaskId v) && isLocked && hasCallback)
         eqn:Hcond; [|contradiction].
  all: apply andb_true_iff in Hcond; destruct Hcond as [Hcond Hcb].
  all: apply andb_true_iff in Hcond; destruct Hcond as [Hcond Hlock].
  all: apply andb_true_iff in Hcond; destruct Hcond as [Hshift Htruthy].
  all: destruct (focusedTaskId v) as [fid|] eqn:Hf; [|discriminate].
  all: destruct (find (hasId (Some fid)) tasks) as [task|] eqn:Hfind; [|contradiction].
  all: destruct (schedule task) as [sch|] eqn:Hsch; [|contradiction].
  all: cbn [snd fst] in *; try contradiction.
  all: destruct Hin as [<- | []]; cbn [fst snd].
  all: apply find_some in Hfind; destruct Hfind as [Htask Hid].
  all: apply String.eqb_eq in Hid.
  all: rewrite (Hnofocus Hshift).
  all: repeat (split; [reflexivity || assumption|]).
  all: exists task, sch; repeat (split; [assumption|]).
  - left. split; [reflexivity|]. now rewrite Z.mul_1_l.
  - right. split; [reflexivity|]. f_equal.
Qed.

Lemma shiftedSchedule_back (s : Schedule) (d : Z) :
  shiftedSchedule (shiftedSchedule s d) (- d) = s
  /\ shiftedSchedule (shiftedSchedule s (- d)) d = s.
Proof. destruct s; simpl; split; f_equal; lia. Qed.

Lemma handleKeyDown_shift_arrow tasks v fid task sch (left : bool) :
  focusedTaskId v = Some fid -> fid <> ""%string ->
  find (hasId (Some fid)) tasks = Some task ->
  schedule task = Some sch ->
  handleKeyDown true true tasks
    {| key := if left then ArrowLeft else ArrowRight; shiftKey := true |} v
  = (v, [(fid, shiftedSchedule sch (if left then snapInterval (zoomLevel v)
                                    else - snapInterval (zoomLevel v)))]).
Proof.
  intros Hf Hne Hfind Hsch. unfold handleKeyDown, focusByArrow. cbn [key shiftKey].
  assert (Ht : truthy (focusedTaskId v) = true).
  { rewrite Hf. simpl. apply negb_true_iff, String.eqb_neq. exact Hne. }
  destruct left; rewrite Ht, Hf; cbn [andb negb]; rewrite Hfind, Hsch.
  - now rewrite Z.mul_1_l.
  - reflexivity.
Qed.

(** X3. Shift + left arrow followed, once the store has applied the update,
    by shift + right arrow sends the focused task's original schedule back;
    and the same in the other order. *)
Theorem keyboard_left_right_round_trip tasks v fid task sch (left : bool) :
  focusedTaskId v = Some fid -> fid <> ""%string ->
  find (hasId (Some fid)) tasks = Some task ->
  schedule task = Some sch ->
  exists moved,
    handleKeyDown true true tasks
      {| key := if left then ArrowLeft else ArrowRight; shiftKey := true |} v
    = (v, [(fid, moved)])
    /\ moved = shiftedSchedule sch (if left then snapInterval (zoomLevel v)
                                    else - snapInterval (zoomLevel v))
    /\ handleKeyDown true true (updateTaskByPath tasks [fid] (scheduleUpdate moved))
         {| key := if left then ArrowRight else ArrowLeft; shiftKey := true |} v
       = (v, [(fid, sch)]).
Proof.
  intros Hf Hne Hfind Hsch. eexists. split; [|split; [reflexivity|]].
  - now apply handleKeyDown_shift_arrow with (task := task).
  - pose proof (find_after_scheduleUpdate tasks fid
                  (shiftedSchedule sch (if left then snapInterval (zoomLevel v)
                                        else - snapInterval (zoomLevel v)))
                  task Hfind) as Hfind'.
    pose proof (handleKeyDown_shift_arrow _ v fid _ _ (negb left) Hf Hne Hfind' eq_refl) as H.
    destruct left; cbn [negb] in H; rewrite H; repeat f_equal;
      apply shiftedSchedule_back.
Qed.

Lemma findIndex_nth_NoDup (l : list Task) :
  NoDup (map id l) ->
  forall i t, nth_error l i = Some t ->
  findIndex (hasId (Some (id t))) l = Z.of_nat i.
Proof.
  induction l as [|a l IH]; intros Hnd i t Hnth; [destruct i; discriminate|].
  inversion Hnd as [|? ? Hnotin Hnd']; subst.
  destruct i as [|i]; simpl in Hnth.
  - injection Hnth as ->. simpl. now rewrite String.eqb_refl.
  - cbn [findIndex hasId].
    assert (Hne : String.eqb (id a) (id t) = false).
    { apply String.eqb_neq. intros Heq. apply Hnotin. rewrite Heq.
      apply in_map. eapply nth_error_In. exact Hnth. }
    rewrite Hne. change (fun t0 : Task => String.eqb (id t0) (id t)) with (hasId (Some (id t))).
    rewrite (IH Hnd' i t Hnth).
    destruct (Z.ltb_spec (Z.of_nat i) 0); lia.
Qed.

Lemma focusByArrow_cases isLocked tasks e v :
  focusByArrow isLocked tasks e v = v
  \/ exists t, In t (filter isScheduled tasks)
               /\ focusByArrow isLocked tasks e v = setFocusedTaskId (Some (id t)) v.
Proof.
  unfold focusByArrow.
  destruct (negb (shiftKey e) && isLocked
            && match key e with ArrowUp | ArrowDown => true | _ => false end); [|now left].
  destruct (List.length (filter isScheduled tasks) =? 0)%nat; [now left|].
  match goal with
  | |- context [nth_error ?l ?n] => destruct (nth_error l n) as [t|] eqn:Hnth
  end; [|now left].
  right. exists t. split; [eapply nth_error_In; exact Hnth | reflexivity].
Qed.

(** From the focused task at index [i] of the scheduled tasks, an arrow key
    moves the focus to the task at the index the source computes. *)
Lemma focusByArrow_step tasks v i t (up : bool) :
  NoDup (map id (filter isScheduled tasks)) ->
  id t <> ""%string ->
  nth_error (filter isScheduled tasks) i = Some t ->
  focusedTaskId v = Some (id t) ->
  let len := List.length (filter isScheduled tasks) in
  let j := if up then (if (i =? 0)%nat then len - 1 else i - 1)%nat
           else (if (len - 1 <=? i)%nat then 0 else i + 1)%nat in
  exists t', nth_error (filter isScheduled tasks) j = Some t'
    /\ focusByArrow true tasks
         {| key := if up then ArrowUp else ArrowDown; shiftKey := false |} v
       = setFocusedTaskId (Some (id t')) v.
Proof.
  intros Hnd Hne Hnth Hf len j.
  assert (Hi : (i < len)%nat) by (apply nth_error_Some; congruence).
  assert (Hj : (j < len)%nat).
  { unfold j. destruct up.
    - destruct (Nat.eqb_spec i 0); lia.
    - destruct (Nat.leb_spec (len - 1) i); lia. }
  destruct (nth_error (filter isScheduled tasks) j) as [t'|] eqn:Hnj;
    [|apply nth_error_None in Hnj; fold len in Hnj; lia].
  exists t'. split; [reflexivity|].
  unfold focusByArrow. cbn [key shiftKey negb andb].
  assert (Hkey : match (if up then ArrowUp else ArrowDown) with
                 | ArrowUp | ArrowDown => true | _ => false end = true)
    by (destruct up; reflexivity).
  rewrite Hkey. fold len.
  destruct (Nat.eqb_spec len 0); [lia|].
  assert (Ht : truthy (focusedTaskId v) = true).
  { rewrite Hf. simpl. apply negb_true_iff, String.eqb_neq. exact Hne. }
  rewrite Ht, Hf, (findIndex_nth_NoDup _ Hnd i t Hnth).
  assert (Hidx : Z.to_nat
            match (if up then ArrowUp else ArrowDown) with
            | ArrowUp => if (Z.of_nat i <=? 0)%Z then (Z.of_nat len - 1)%Z
                         else (Z.of_nat i - 1)%Z
            | _ => if (Z.of_nat i >=? Z.of_nat len - 1)%Z then 0%Z
                   else (Z.of_nat i + 1)%Z
            end = j).
  { unfold j. destruct up.
    - destruct (Z.leb_spec (Z.of_nat i) 0); destruct (Nat.eqb_spec i 0); lia.
    - destruct (Z.geb_spec (Z.of_nat i) (Z.of_nat len - 1));
        destruct (Nat.leb_spec (len - 1) i); lia. }
  rewrite Hidx, Hnj. reflexivity.
Qed.

(** X4. Whatever the key, the keyboard handler leaves zoom and pan alone, and
    the focus it leaves is the old one, none, or a task of the list that has
    a schedule; on a locked timeline with at least one scheduled task, arrow
    up or down without shift always puts the focus on a scheduled task. *)
Theorem keyboard_focus_on_scheduled isLocked hasCallback tasks e v :
  let v' := fst (handleKeyDown isLocked hasCallback tasks e v) in
  zoomLevel v' = zoomLevel v /\ panOffset v' = panOffset v
  /\ (focusedTaskId v' = focusedTaskId v \/ focusedTaskId v' = None
      \/ exists t, In t tasks /\ schedule t <> None /\ focusedTaskId v' = Some (id t))
  /\ (isLocked = true -> shiftKey e = false ->
      key e = ArrowUp \/ key e = ArrowDown ->
      (exists t, In t tasks /\ schedule t <> None) ->
      exists t, In t tasks /\ schedule t <> None /\ focusedTaskId v' = Some (id t)).
Proof.
  assert (Hsched : forall t, In t (filter isScheduled tasks) ->
                             In t tasks /\ schedule t <> None).
  { intros t Ht. apply filter_In in Ht. destruct Ht as [Hin Hs].
    split; [exact Hin|]. unfold isScheduled in Hs.
    destruct (schedule t); [discriminate | discriminate]. }
  assert (Hfocus : forall w, w = focusByArrow isLocked tasks e v ->
            zoomLevel w = zoomLevel v /\ panOffset w = panOffset v
            /\ (focusedTaskId w = focusedTaskId v \/ focusedTaskId w = None
                \/ exists t, In t tasks /\ schedule t <> None
                             /\ focusedTaskId w = Some (id t))).
  { intros w ->. destruct (focusByArrow_cases isLocked tasks e v) as [-> | (t & Ht & ->)].
    - repeat split. now left.
    - repeat split. right. right. exists t. destruct (Hsched t Ht). repeat split; assumption. }
  cbv zeta. split; [|split; [|split]].
  4: { intros -> Hshift Hkey (t0 & Hin0 & Hs0).
       unfold handleKeyDown. rewrite Hshift. cbn [andb].
       assert (Hnonempty : filter isScheduled tasks <> []).
       { intros Hnil. assert (Hin : In t0 (filter isScheduled tasks)).
         { apply filter_In. split; [exact Hin0|]. unfold isScheduled.
           destruct (schedule t0); [reflexivity | congruence]. }
         rewrite Hnil in Hin. contradiction. }
       assert (Hmoves : exists t, In t (filter isScheduled tasks)
                 /\ focusByArrow true tasks e v = setFocusedTaskId (Some (id t)) v).
       { unfold focusByArrow. rewrite Hshift. cbn [negb andb].
         assert (Hk : match key e with ArrowUp | ArrowDown => true | _ => false end = true)
           by (destruct Hkey as [-> | ->]; reflexivity).
         rewrite Hk.
         destruct (Nat.eqb_spec (List.length (filter isScheduled tasks)) 0) as [Hz|Hnz];
           [destruct (filter isScheduled tasks); [congruence | discriminate]|].
         pose proof (findIndex_range (hasId (focusedTaskId v)) (filter isScheduled tasks))
           as [Hr _].
         remember (Z.of_nat (List.length (filter isScheduled tasks))) as len eqn:Hlendef.
         remember (if truthy (focusedTaskId v)
                   then findIndex (hasId (focusedTaskId v)) (filter isScheduled tasks)
                   else (-1)%Z) as cur eqn:Hcurdef.
         assert (Hlen : (0 < len)%Z) by lia.
         assert (Hcur : (-1 <= cur < len)%Z)
           by (subst cur; destruct (truthy (focusedTaskId v)); lia).
         clear Hcurdef.
         match goal with
         | |- context [nth_error ?l (Z.to_nat ?n)] =>
             assert (Hn : (0 <= n < len)%Z)
         end.
         { destruct Hkey as [-> | ->].
           - destruct (Z.leb_spec cur 0); lia.
           - destruct (Z.geb_spec cur (len - 1)); lia. }
         match goal with
         | |- context [nth_error ?l ?n] => destruct (nth_error l n) as [t|] eqn:Hnth
         end.
         - exists t. split; [eapply nth_error_In; exact Hnth | reflexivity].
         - apply nth_error_None in Hnth. lia. }
       destruct Hmoves as (t & Ht & Hmove). destruct (Hsched t Ht).
       exists t. repeat split; try assumption.
       destruct (key e); try (destruct Hkey; discriminate); cbn [fst]; now rewrite Hmove. }
  all: unfold handleKeyDown.
  all: destruct (key e) eqn:Hk;
    [ destruct (truthy (expandedTaskId v)); destruct (truthy (focusedTaskId v));
      cbn; auto | .. ].
  all: destruct (shiftKey e && truthy (focusedTaskId v) && isLocked && hasCallback).
  all: try (destruct (find (hasId (focusedTaskId v)) tasks) as [task|]; [|cbn; auto]).
  all: try (destruct (schedule task); [|cbn; auto]).
  all: cbn [fst]; try apply (Hfocus _ eq_refl).
Qed.

Lemma handleKeyDown_arrow isLocked hasCallback tasks v (up : bool) :
  handleKeyDown isLocked hasCallback tasks
    {| key := if up then ArrowUp else ArrowDown; shiftKey := false |} v
  = (focusByArrow isLocked tasks
       {| key := if up then ArrowUp else ArrowDown; shiftKey := false |} v, []).
Proof. unfold handleKeyDown. destruct up; reflexivity. Qed.

(** X5. When the scheduled tasks have distinct, non-empty ids and the focus
    is on one of them, arrow down followed by arrow up brings the focus back
    to it, and so does arrow up followed by arrow down, wrapping included. *)
Theorem arrow_keys_round_trip hasCallback tasks v t (up : bool) :
  NoDup (map id (filter isScheduled tasks)) ->
  Forall (fun t => id t <> ""%string) (filter isScheduled tasks) ->
  In t tasks -> schedule t <> None ->
  focusedTaskId v = Some (id t) ->
  focusedTaskId
    (fst (handleKeyDown true hasCallback tasks
            {| key := if up then ArrowDown else ArrowUp; shiftKey := false |}
            (fst (handleKeyDown true hasCallback tasks
                    {| key := if up then ArrowUp else ArrowDown; shiftKey := false |} v))))
  = Some (id t).
Proof.
  intros Hnd Hids Hin Hsched Hf.
  assert (Hvis : In t (filter isScheduled tasks)).
  { apply filter_In. split; [exact Hin|]. unfold isScheduled.
    destruct (schedule t); [reflexivity | congruence]. }
  rewrite Forall_forall in Hids.
  destruct (In_nth_error _ _ Hvis) as [i Hi].
  assert (Hlt : (i < List.length (filter isScheduled tasks))%nat)
    by (apply nth_error_Some; congruence).
  destruct (focusByArrow_step tasks v i t up Hnd (Hids t Hvis) Hi Hf) as (t1 & H1 & Hstep1).
  rewrite (handleKeyDown_arrow true hasCallback tasks v up). cbn [fst].
  rewrite Hstep1.
  set (v1 := setFocusedTaskId (Some (id t1)) v).
  assert (Hne1 : id t1 <> ""%string) by (apply Hids; eapply nth_error_In; exact H1).
  destruct (focusByArrow_step tasks v1 _ t1 (negb up) Hnd Hne1 H1 eq_refl)
    as (t2 & H2 & Hstep2).
  pose proof (handleKeyDown_arrow true hasCallback tasks v1 (negb up)) as Hk.
  destruct up; cbn [negb] in *; rewrite Hk, Hstep2; cbn [fst setFocusedTaskId focusedTaskId];
    f_equal; f_equal; cut (Some t2 = Some t); [congruence| | congruence|];
    rewrite <- H2, <- Hi; f_equal.
  - destruct (Nat.eqb_spec i 0) as [-> | Hnz].
    + destruct (Nat.leb_spec (List.length (filter isScheduled tasks) - 1)
                  (List.length (filter isScheduled tasks) - 1)); lia.
    + destruct (Nat.leb_spec (List.length (filter isScheduled tasks) - 1) (i - 1)); lia.
  - destruct (Nat.leb_spec (List.length (filter isScheduled tasks) - 1) i).
    + destruct (Nat.eqb_spec 0 0); lia.
    + destruct (Nat.eqb_spec (i + 1) 0); lia.
Qed.

(** ** Zoom steps *)

(** X6. The wheel acts only on a locked, hovered timeline; there, scrolling
    down is the zoom-out button and scrolling up the zoom-in button of the
    project card, and a wheel event without vertical movement changes
    nothing. *)
Theorem wheel_is_zoom_buttons isLocked isHoveringTimeline deltaY z :
  handleWheel isLocked isHoveringTimeline deltaY z
  = if isLocked && isHoveringTimeline then
      if Qltb 0 deltaY then handleZoomOut z
      else if Qltb deltaY 0 then handleZoomIn z
      else z
    else z.
Proof.
  unfold handleWheel.
  destruct isLocked, isHoveringTimeline; cbn [negb orb andb]; try reflexivity.
  destruct (Qltb 0 deltaY) eqn:Hdown, (Qltb deltaY 0) eqn:Hup;
    [apply Qltb_lt in Hdown, Hup; lra | ..]; destruct z; reflexivity.
Qed.

(** X7. Zooming in never shows more time per pixel and never a coarser snap
    interval, strictly less of both except at [minutes], where it does
    nothing; zooming out undoes a zoom-in that changed the level, and zooming
    in undoes such a zoom-out. *)
Theorem zoom_steps_are_monotone_and_inverse z :
  msPerPixel (ZOOM_CONFIGS (handleZoomIn z)) <= msPerPixel (ZOOM_CONFIGS z)
  /\ (snapInterval (handleZoomIn z) <= snapInterval z)%Z
  /\ (z <> minutes ->
      msPerPixel (ZOOM_CONFIGS (handleZoomIn z)) < msPerPixel (ZOOM_CONFIGS z)
      /\ (snapInterval (handleZoomIn z) < snapInterval z)%Z
      /\ handleZoomOut (handleZoomIn z) = z)
  /\ (z <> months -> handleZoomIn (handleZoomOut z) = z)
  /\ handleZoomIn minutes = minutes
  /\ handleZoomOut months = months.
Proof.
  destruct z; repeat split; try congruence; try reflexivity;
    try (intro H; discriminate H).
Qed.

(** ** Panning *)

Lemma pixelOf_shift (start mpp width delta : Q) (t : Z) :
  ~ mpp == 0 ->
  pixelOf (start + delta * mpp) mpp width t == pixelOf start mpp width t + delta.
Proof. intros H. unfold pixelOf. field. exact H. Qed.

(** X8. A mouse pan drags the timeline with the pointer.  The clock is read
    at every render: with the pointer [deltaX] pixels from where the pan
    began, a render whose clock reads [now2] draws every instant [deltaX]
    pixels, plus the advance of the clamped clock since the render in which
    the pan began (clock [now1]) divided by the ratio, from where that render
    drew it, and so the two ends of every projected schedule; with the
    clamped clock unchanged that is exactly [deltaX].  The pan is flagged as
    a drag once the pointer is more than 5 pixels away, and stays flagged. *)
Theorem mouse_pan_follows_pointer timeRange now1 now2 width v start clientX didPan :
  let mpp := msPerPixel (ZOOM_CONFIGS (zoomLevel v)) in
  let moved := handlePanMouseMove (zoomLevel v) start clientX didPan in
  let before := visibleStart timeRange now1 width (setPanOffset (panStartOffset start) v) in
  let after := visibleStart timeRange now2 width (setPanOffset (fst moved) v) in
  let shift := (clientX - panStartX start)
               + inject_Z (clampedNow timeRange now2 - clampedNow timeRange now1) / mpp in
  (forall t, pixelOf after mpp width t == pixelOf before mpp width t + shift)
  /\ (forall task pos,
        getTaskPosition task before (Fin mpp) width = Some pos ->
        exists sx ex sx' ex',
          pos = {| pos_startX := Fin sx; pos_endX := Fin ex;
                   pos_isPoint := pos_isPoint pos |}
          /\ getTaskPosition task after (Fin mpp) width
             = Some {| pos_startX := Fin sx'; pos_endX := Fin ex';
                       pos_isPoint := pos_isPoint pos |}
          /\ sx' == sx + shift /\ ex' == ex + shift)
  /\ (clampedNow timeRange now2 = clampedNow timeRange now1 ->
      shift == clientX - panStartX start)
  /\ (snd moved = true <-> 5 < Qabs (clientX - panStartX start) \/ didPan = true).
Proof.
  intros mpp moved before after shift.
  pose proof (msPerPixel_pos (zoomLevel v)) as Hm. fold mpp in Hm.
  assert (Hnz : ~ mpp == 0) by lra.
  assert (Hafter : after == before + shift * mpp).
  { unfold after, before, shift, moved, handlePanMouseMove, visibleStart, centerTime,
      visibleDuration. cbn [fst setPanOffset panOffset zoomLevel]. fold mpp.
    unfold Zminus. rewrite inject_Z_plus, inject_Z_opp. field. exact Hnz. }
  assert (Hpix : forall t, pixelOf after mpp width t == pixelOf before mpp width t + shift).
  { intros t. rewrite <- pixelOf_shift by lra.
    unfold pixelOf. now rewrite Hafter. }
  split; [exact Hpix|]. split; [|split].
  - intros task pos Hpos.
    destruct (schedule task) as [[s e|p]|] eqn:Hs.
    + destruct (getTaskPosition_range_finite task s e before mpp width Hs Hnz)
        as (sx & ex & Hb & Hsx & Hex).
      destruct (getTaskPosition_range_finite task s e after mpp width Hs Hnz)
        as (sx' & ex' & Ha & Hsx' & Hex').
      rewrite Hb in Hpos. injection Hpos as <-.
      exists sx, ex, sx', ex'. cbn [pos_isPoint].
      split; [reflexivity|]. split; [exact Ha|].
      rewrite Hsx, Hex, Hsx', Hex', !Hpix.
      split; [apply Q.plus_min_distr_r | apply Q.plus_max_distr_r].
    + destruct (getTaskPosition_point_finite task p before mpp width Hs Hnz)
        as (sx & ex & Hb & Hsx & Hex).
      destruct (getTaskPosition_point_finite task p after mpp width Hs Hnz)
        as (sx' & ex' & Ha & Hsx' & Hex').
      rewrite Hb in Hpos. injection Hpos as <-.
      exists sx, ex, sx', ex'. cbn [pos_isPoint].
      split; [reflexivity|]. split; [exact Ha|].
      rewrite Hsx, Hex, Hsx', Hex', !Hpix. split; ring.
    + unfold getTaskPosition in Hpos. rewrite Hs in Hpos. discriminate.
  - intros Hclock. unfold shift. rewrite Hclock, Z.sub_diag. field. exact Hnz.
  - unfold moved, handlePanMouseMove. cbn [snd].
    destruct (Qltb 5 (Qabs (clientX - panStartX start))) eqn:E.
    + apply Qltb_lt in E. split; [now left | reflexivity].
    + apply Qltb_ge in E. split; [now right|]. intros [H | H]; [lra | exact H].
Qed.

(** X9. A touch pan has a dead zone: within 10 pixels of where the touch
    began the pan offset and the drag flag are left as they are; beyond it the
    touch pan sets the very offset a mouse pan would, and flags the drag. *)
Theorem touch_pan_dead_zone z start clientX currentPanOffset didPan :
  (Qabs (clientX - panStartX start) <= 10 ->
   handleTouchMoveForPan z start clientX currentPanOffset didPan
   = (currentPanOffset, didPan))
  /\ (10 < Qabs (clientX - panStartX start) ->
      handleTouchMoveForPan z start clientX currentPanOffset didPan
      = (fst (handlePanMouseMove z start clientX didPan), true)
      /\ snd (handlePanMouseMove z start clientX didPan) = true).
Proof.
  unfold handleTouchMoveForPan, handlePanMouseMove. split; intros H.
  - apply Qltb_ge in H. now rewrite H.
  - assert (H5 : 5 < Qabs (clientX - panStartX start)) by lra.
    apply Qltb_lt in H, H5. now rewrite H, H5.
Qed.

(** ** Lengthening and shortening a range *)

Lemma ZOOM_TIME_ADJUSTMENTS_snap (z : ZoomLevel) :
  (ZOOM_TIME_ADJUSTMENTS z = 4 * snapInterval z)%Z
  /\ ZOOM_TIME_ADJUSTMENTS z = tickInterval (ZOOM_CONFIGS z).
Proof. destruct z; split; reflexivity. Qed.

Lemma handleShrinkTask_calls hasCallback z task u :
  In u (handleShrinkTask hasCallback z task) ->
  exists currentStart currentEnd,
    schedule task = Some (ScheduleRange currentStart currentEnd)
    /\ u = (id task, ScheduleRange currentStart (currentEnd - ZOOM_TIME_ADJUSTMENTS z))
    /\ (currentStart < currentEnd - ZOOM_TIME_ADJUSTMENTS z)%Z.
Proof.
  unfold handleShrinkTask. destruct hasCallback; [|contradiction].
  cbn [negb]. destruct (schedule task) as [[s e|p]|]; try contradiction.
  destruct (Z.leb_spec (e - ZOOM_TIME_ADJUSTMENTS z) s); [contradiction|].
  intros [<- | []]. exists s, e. repeat split. assumption.
Qed.

(** X10. Shortening never sends a range whose end is at or before its start:
    every call it makes is for a range task, keeps the start, moves the end
    one tick interval of the zoom level earlier and leaves it strictly after
    the start; a range no longer than one tick interval is left alone. *)
Theorem shrink_never_inverts hasCallback z task u :
  In u (handleShrinkTask hasCallback z task) ->
  exists currentStart currentEnd,
    schedule task = Some (ScheduleRange currentStart currentEnd)
    /\ u = (id task,
            ScheduleRange currentStart (currentEnd - tickInterval (ZOOM_CONFIGS z)))
    /\ (currentStart < currentEnd - tickInterval (ZOOM_CONFIGS z))%Z.
Proof.
  intros Hin. apply handleShrinkTask_calls in Hin.
  destruct (ZOOM_TIME_ADJUSTMENTS_snap z) as [_ <-]. exact Hin.
Qed.

(** X11. Lengthening a range whose start is before its end and then
    shortening the lengthened task sends the original range back. *)
Theorem expand_then_shrink_round_trip z task start_iso end_iso :
  schedule task = Some (ScheduleRange start_iso end_iso) ->
  (start_iso < end_iso)%Z ->
  exists longer,
    handleExpandTask true z task = [(id task, longer)]
    /\ longer = ScheduleRange start_iso (end_iso + tickInterval (ZOOM_CONFIGS z))
    /\ handleShrinkTask true z (mergeTask task (scheduleUpdate longer))
       = [(id task, ScheduleRange start_iso end_iso)].
Proof.
  intros Hs Hlt. eexists. split; [|split].
  - unfold handleExpandTask. rewrite Hs. reflexivity.
  - f_equal. f_equal. apply ZOOM_TIME_ADJUSTMENTS_snap.
  - unfold handleShrinkTask. cbn [negb mergeTask scheduleUpdate schedule upd_schedule id upd_id].
    replace (end_iso + ZOOM_TIME_ADJUSTMENTS z - ZOOM_TIME_ADJUSTMENTS z)%Z
      with end_iso by lia.
    destruct (Z.leb_spec end_iso start_iso); [lia | reflexivity].
Qed.

(** ** Snap-aligned durations *)

Lemma draggedSchedule_aligned z mode start_iso end_iso (k : Z) :
  (snapInterval z | end_iso - start_iso)%Z ->
  exists newStart newEnd,
    draggedSchedule z mode (ScheduleRange start_iso end_iso) (k * snapInterval z)
    = ScheduleRange newStart newEnd
    /\ (snapInterval z | newEnd - newStart)%Z.
Proof.
  intros [j Hj]. destruct mode; cbn [draggedSchedule].
  - do 2 eexists. split; [reflexivity|]. exists j. lia.
  - do 2 eexists. split; [reflexivity|].
    destruct (Z.geb_spec (start_iso + k * snapInterval z) end_iso).
    + exists 1%Z. lia.
    + exists (j - k)%Z. lia.
  - do 2 eexists. split; [reflexivity|].
    destruct (Z.leb_spec (end_iso + k * snapInterval z) start_iso).
    + exists 1%Z. lia.
    + exists (j + k)%Z. lia.
Qed.

(** X12. A schedule whose duration is a multiple of the snap interval (any
    point schedule counts) keeps such a duration through every schedule
    change made at that zoom level: a drag step in any mode through either
    handler, a keyboard move, a lengthening and a shortening. *)
Theorem snap_aligned_duration_is_kept z original :
  snapAligned z original ->
  (forall mode deltaX u,
     gestureEmits z mode original deltaX u -> snapAligned z (snd u))
  /\ (forall isLocked hasCallback tasks e v task u,
        zoomLevel v = z ->
        find (hasId (focusedTaskId v)) tasks = Some task ->
        schedule task = Some original ->
        In u (snd (handleKeyDown isLocked hasCallback tasks e v)) ->
        snapAligned z (snd u))
  /\ (forall hasCallback task u,
        schedule task = Some original ->
        In u (handleExpandTask hasCallback z task)
        \/ In u (handleShrinkTask hasCallback z task) -> snapAligned z (snd u)).
Proof.
  intros Halign. split; [|split].
  - intros mode deltaX u Hemit. apply gestureEmits_schedule in Hemit. rewrite Hemit.
    destruct (snappedDeltaMs_multiple z deltaX) as [k ->].
    destruct original as [s e|p]; [|exact I].
    destruct (draggedSchedule_aligned z mode s e k Halign) as (s' & e' & -> & H).
    exact H.
  - intros isLocked hasCallback tasks e v task u Hz Hfind Hs Hin.
    unfold handleKeyDown in Hin.
    destruct (key e); [contradiction|..].
    all: destruct (shiftKey e && truthy (focusedTaskId v) && isLocked && hasCallback);
      [|contradiction].
    all: rewrite Hfind, Hs in Hin; cbn [snd] in Hin; try contradiction.
    all: destruct Hin as [<- | []]; cbn [snd].
    all: destruct original as [s0 e0|p]; [|exact I]; cbn [shiftedSchedule snapAligned] in *.
    all: destruct Halign as [j Hj]; exists j; lia.
  - intros hasCallback task u Hs [Hin | Hin].
    + unfold handleExpandTask in Hin. rewrite Hs in Hin.
      destruct hasCallback; [|contradiction].
      destruct original as [s0 e0|p]; [|contradiction].
      destruct Hin as [<- | []]. cbn [snd snapAligned] in *.
      destruct Halign as [j Hj]. destruct (ZOOM_TIME_ADJUSTMENTS_snap z) as [-> _].
      exists (j + 4)%Z. lia.
    + apply handleShrinkTask_calls in Hin.
      destruct Hin as (s & e & Hs' & -> & _). rewrite Hs in Hs'. injection Hs' as ->.
      cbn [snd snapAligned] in *.
      destruct Halign as [j Hj]. destruct (ZOOM_TIME_ADJUSTMENTS_snap z) as [-> _].
      exists (j - 4)%Z. lia.
Qed.

(** ** Navigation position *)

Lemma closestLoop_nearest (centre : Q) (rest : list Scheduled) :
  forall (pre : list Scheduled) (best : nat) (sb : Scheduled) (closestDist : Q),
    nth_error pre best = Some sb ->
    closestDist = Qabs (inject_Z (time sb) - centre) ->
    (forall j s, nth_error pre j = Some s ->
                 closestDist <= Qabs (inject_Z (time s) - centre)) ->
    (forall j s, (j < best)%nat -> nth_error pre j = Some s ->
                 closestDist < Qabs (inject_Z (time s) - centre)) ->
    exists i s,
      closestLoop rest (Z.of_nat (List.length pre)) centre (Z.of_nat best) closestDist
      = Z.of_nat i
      /\ nth_error (pre ++ rest) i = Some s
      /\ (forall j s', nth_error (pre ++ rest) j = Some s' ->
                       Qabs (inject_Z (time s) - centre)
                       <= Qabs (inject_Z (time s') - centre))
      /\ (forall j s', (j < i)%nat -> nth_error (pre ++ rest) j = Some s' ->
                       Qabs (inject_Z (time s) - centre)
                       < Qabs (inject_Z (time s') - centre)).
Proof.
  induction rest as [|s0 rest IH]; intros pre best sb closestDist Hbest Hdist Hmin Hfirst.
  - exists best, sb. rewrite app_nil_r. subst closestDist. repeat split; assumption.
  - assert (Hlt : (best < List.length pre)%nat) by (apply nth_error_Some; congruence).
    assert (Hsnoc : forall j s, nth_error (pre ++ [s0]) j = Some s ->
              nth_error pre j = Some s \/ (j = List.length pre /\ s = s0)).
    { intros j s Hj. destruct (Nat.lt_ge_cases j (List.length pre)) as [Hl | Hg].
      - left. now rewrite nth_error_app1 in Hj.
      - right. rewrite nth_error_app2 in Hj by exact Hg.
        destruct (j - List.length pre)%nat as [|n] eqn:En; simpl in Hj.
        + split; [lia | congruence].
        + destruct n; discriminate. }
    cbn [closestLoop].
    replace (Z.of_nat (List.length pre) + 1)%Z
      with (Z.of_nat (List.length (pre ++ [s0])))
      by (rewrite length_app; simpl; lia).
    replace (pre ++ s0 :: rest) with ((pre ++ [s0]) ++ rest)
      by (now rewrite <- app_assoc).
    destruct (Qltb (Qabs (inject_Z (time s0) - centre)) closestDist) eqn:Hcmp.
    + apply Qltb_lt in Hcmp.
      apply (IH (pre ++ [s0]) (List.length pre) s0).
      * rewrite nth_error_app2 by lia. now rewrite Nat.sub_diag.
      * reflexivity.
      * intros j s Hj. destruct (Hsnoc j s Hj) as [Hp | [_ ->]]; [|lra].
        specialize (Hmin j s Hp). lra.
      * intros j s Hjl Hj. rewrite nth_error_app1 in Hj by exact Hjl.
        specialize (Hmin j s Hj). lra.
    + apply Qltb_ge in Hcmp.
      apply (IH (pre ++ [s0]) best sb).
      * now rewrite nth_error_app1.
      * exact Hdist.
      * intros j s Hj. destruct (Hsnoc j s Hj) as [Hp | [_ ->]]; [|exact Hcmp].
        now apply (Hmin j s).
      * intros j s Hjl Hj. rewrite nth_error_app1 in Hj by lia.
        now apply (Hfirst j s).
Qed.

Lemma currentNavIndex_spec (sorted : list Scheduled) (centre : Q) :
  sorted <> [] ->
  exists i s,
    currentNavIndex sorted centre = Z.of_nat i
    /\ nth_error sorted i = Some s
    /\ (forall j s', nth_error sorted j = Some s' ->
                     Qabs (inject_Z (time s) - centre)
                     <= Qabs (inject_Z (time s') - centre))
    /\ (forall j s', (j < i)%nat -> nth_error sorted j = Some s' ->
                     Qabs (inject_Z (time s) - centre)
                     < Qabs (inject_Z (time s') - centre)).
Proof.
  destruct sorted as [|first rest]; [congruence|]. intros _.
  apply (closestLoop_nearest centre rest [first] 0 first); try reflexivity.
  - intros [|[|j]] s Hj; simpl in Hj; try discriminate.
    injection Hj as <-. lra.
  - intros j s Hj. lia.
Qed.

(** X13. The navigation position is -1 exactly when no task has a schedule;
    otherwise it is the index of a scheduled task nearest in time to the
    centre of the window, the first such one in ascending order. *)
Theorem currentNavIndex_is_nearest (sorted : list Scheduled) (centre : Q) :
  (currentNavIndex sorted centre = (-1)%Z <-> sorted = [])
  /\ (sorted <> [] ->
      exists i s,
        currentNavIndex sorted centre = Z.of_nat i
        /\ nth_error sorted i = Some s
        /\ (forall j s', nth_error sorted j = Some s' ->
                         Qabs (inject_Z (time s) - centre)
                         <= Qabs (inject_Z (time s') - centre))
        /\ (forall j s', (j < i)%nat -> nth_error sorted j = Some s' ->
                         Qabs (inject_Z (time s) - centre)
                         < Qabs (inject_Z (time s') - centre))).
Proof.
  split; [|apply currentNavIndex_spec].
  split; [|intros ->; reflexivity].
  intros H. destruct sorted as [|first rest]; [reflexivity|].
  destruct (currentNavIndex_spec (first :: rest) centre) as (i & s & Hi & _);
    [discriminate | lia].
Qed.

Lemma Qabs_inject_Z_sub (a b : Z) :
  Qabs (inject_Z a - inject_Z b) == inject_Z (Z.abs (a - b)).
Proof.
  unfold Qminus. rewrite <- inject_Z_opp, <- inject_Z_plus.
  unfold Qabs, inject_Z. reflexivity.
Qed.

(** The position a render with clock [now2] reports after a navigation
    through a control built by a render with clock [now1]. *)
Lemma navIndex_after_navigateToTask tasks timeRange now1 now2 idx target v :
  nth_error (sortedScheduledTasks tasks) idx = Some target ->
  let drift := (clampedNow timeRange now2 - clampedNow timeRange now1)%Z in
  exists j s,
    navIndex tasks timeRange now2 (navigateToTask tasks timeRange now1 (Z.of_nat idx) v)
    = Z.of_nat j
    /\ nth_error (sortedScheduledTasks tasks) j = Some s
    /\ (forall s', In s' (sortedScheduledTasks tasks) ->
          (Z.abs (time s - (time target + drift))
           <= Z.abs (time s' - (time target + drift)))%Z)
    /\ (driftBelowGaps (sortedScheduledTasks tasks) timeRange now1 now2 (time target) ->
        time s = time target
        /\ (j <= idx)%nat
        /\ (NoDup (map time (sortedScheduledTasks tasks)) -> j = idx)).
Proof.
  intros Hnth drift. unfold navIndex.
  pose proof (centerTime_after_navigate tasks timeRange now1 now2 idx target v Hnth) as Hc.
  fold drift in Hc.
  set (centre := centerTime timeRange now2
                   (navigateToTask tasks timeRange now1 (Z.of_nat idx) v)) in *.
  destruct (currentNavIndex_spec (sortedScheduledTasks tasks) centre)
    as (j & s & Hj & Hs & Hmin & Hfirst).
  { intros Hnil. rewrite Hnil in Hnth. destruct idx; discriminate. }
  assert (Hdist : forall x, Qabs (inject_Z (time x) - centre)
                            == inject_Z (Z.abs (time x - (time target + drift)))).
  { intros x. rewrite Hc. apply Qabs_inject_Z_sub. }
  assert (Hnear : forall s', In s' (sortedScheduledTasks tasks) ->
            (Z.abs (time s - (time target + drift))
             <= Z.abs (time s' - (time target + drift)))%Z).
  { intros s' Hin. apply In_nth_error in Hin. destruct Hin as [n Hn].
    pose proof (Hmin n s' Hn) as H. rewrite !Hdist in H. now rewrite Zle_Qle. }
  exists j, s. split; [exact Hj|]. split; [exact Hs|]. split; [exact Hnear|].
  intros Hgap.
  assert (Htarget : In target (sortedScheduledTasks tasks)) by (eapply nth_error_In; eauto).
  assert (Htime : time s = time target).
  { destruct (Z.eq_dec (time s) (time target)) as [E | E]; [exact E|].
    pose proof (Hgap s (nth_error_In _ _ Hs) E) as H1.
    pose proof (Hnear target Htarget) as H2. fold drift in H1. lia. }
  assert (Hle : (j <= idx)%nat).
  { destruct (Nat.le_gt_cases j idx) as [H | H]; [exact H|].
    pose proof (Hfirst idx target H Hnth) as Hlt. rewrite !Hdist, Htime in Hlt.
    exfalso. revert Hlt. apply Qlt_irrefl. }
  repeat split; try assumption.
  intros Hnd. apply (proj1 (NoDup_nth (map time (sortedScheduledTasks tasks)) 0%Z) Hnd).
  - rewrite length_map. apply nth_error_Some. congruence.
  - rewrite length_map. apply nth_error_Some. congruence.
  - rewrite !(nth_error_nth _ _ _ (map_nth_error time _ _ Hs)).
    rewrite !(nth_error_nth _ _ _ (map_nth_error time _ _ Hnth)).
    exact Htime.
Qed.

(** With distinct instants and a clock that moved by less than half of every
    gap, the position after a navigation is the index navigated to. *)
Lemma navIndex_at_target tasks timeRange now1 now2 idx target v :
  NoDup (map time (sortedScheduledTasks tasks)) ->
  nth_error (sortedScheduledTasks tasks) idx = Some target ->
  driftBelowGaps (sortedScheduledTasks tasks) timeRange now1 now2 (time target) ->
  navIndex tasks timeRange now2 (navigateToTask tasks timeRange now1 (Z.of_nat idx) v)
  = Z.of_nat idx.
Proof.
  intros Hnd Hnth Hgap.
  destruct (navIndex_after_navigateToTask tasks timeRange now1 now2 idx target v Hnth)
    as (j & s & Hj & _ & _ & H).
  destruct (H Hgap) as (_ & _ & Heq). now rewrite Hj, (Heq Hnd).
Qed.

(** X14. The clock is read at every render.  After a navigation to the
    scheduled task at a valid index, through a control built when the clock
    read [now1], the task is focused and a render whose clock reads [now2]
    is centred on the task's instant plus the advance of the clamped clock,
    and reports as navigation position a task nearest to that centre; when
    the advance is below half the distance to every other scheduled instant
    (as it is when the clamped clock has not moved), the reported task is at
    the instant navigated to, at that index or before it, and at that index
    when no two scheduled tasks share an instant. *)
Theorem navigation_position_after_navigate tasks timeRange now1 now2 idx target v :
  nth_error (sortedScheduledTasks tasks) idx = Some target ->
  let v' := navigateToTask tasks timeRange now1 (Z.of_nat idx) v in
  let drift := (clampedNow timeRange now2 - clampedNow timeRange now1)%Z in
  focusedTaskId v' = Some (id (sched_task target))
  /\ centerTime timeRange now2 v' == inject_Z (time target + drift)
  /\ exists j s,
       navIndex tasks timeRange now2 v' = Z.of_nat j
       /\ nth_error (sortedScheduledTasks tasks) j = Some s
       /\ (forall s', In s' (sortedScheduledTasks tasks) ->
             (Z.abs (time s - (time target + drift))
              <= Z.abs (time s' - (time target + drift)))%Z)
       /\ (driftBelowGaps (sortedScheduledTasks tasks) timeRange now1 now2 (time target) ->
           time s = time target
           /\ (j <= idx)%nat
           /\ (NoDup (map time (sortedScheduledTasks tasks)) -> j = idx)).
Proof.
  intros Hnth v' drift. split; [|split].
  - unfold v'. now rewrite (navigateToTask_in_range _ _ _ _ target).
  - apply centerTime_after_navigate. exact Hnth.
  - apply navIndex_after_navigateToTask. exact Hnth.
Qed.

(** X15. When no two scheduled tasks share an instant and, between
    consecutive renders, the clamped clock moves by less than half the
    distance from the centred task to every other scheduled instant, the next
    and previous controls step by one: after a navigation to the task at
    index [idx] (control built at clock [now0]), the controls of the next
    render (clock [now1]) centre and focus the task at [idx + 1] and at
    [idx - 1], and the render after that (clock [now2]) reports that
    position; at the last task the next control, and at the first the
    previous one, leave the view as it is. *)
Theorem next_and_previous_step_by_one tasks timeRange now0 now1 idx target v :
  NoDup (map time (sortedScheduledTasks tasks)) ->
  nth_error (sortedScheduledTasks tasks) idx = Some target ->
  driftBelowGaps (sortedScheduledTasks tasks) timeRange now0 now1 (time target) ->
  let sorted := sortedScheduledTasks tasks in
  let here := navigateToTask tasks timeRange now0 (Z.of_nat idx) v in
  (forall next, nth_error sorted (idx + 1)%nat = Some next ->
     navigateToNextTask tasks timeRange now1 here
     = navigateToTask tasks timeRange now1 (Z.of_nat (idx + 1)%nat) here
     /\ focusedTaskId (navigateToNextTask tasks timeRange now1 here)
        = Some (id (sched_task next))
     /\ forall now2, driftBelowGaps sorted timeRange now1 now2 (time next) ->
          navIndex tasks timeRange now2 (navigateToNextTask tasks timeRange now1 here)
          = Z.of_nat (idx + 1)%nat)
  /\ (forall prev, (1 <= idx)%nat -> nth_error sorted (idx - 1)%nat = Some prev ->
        navigateToPrevTask tasks timeRange now1 here
        = navigateToTask tasks timeRange now1 (Z.of_nat (idx - 1)%nat) here
        /\ focusedTaskId (navigateToPrevTask tasks timeRange now1 here)
           = Some (id (sched_task prev))
        /\ forall now2, driftBelowGaps sorted timeRange now1 now2 (time prev) ->
             navIndex tasks timeRange now2 (navigateToPrevTask tasks timeRange now1 here)
             = Z.of_nat (idx - 1)%nat)
  /\ ((idx + 1)%nat = List.length sorted ->
      navigateToNextTask tasks timeRange now1 here = here)
  /\ (idx = 0%nat -> navigateToPrevTask tasks timeRange now1 here = here).
Proof.
  intros Hnd Hnth Hgap sorted here. subst sorted.
  set (sorted := sortedScheduledTasks tasks) in *.
  assert (Hhere : navIndex tasks timeRange now1 here = Z.of_nat idx)
    by (apply (navIndex_at_target tasks timeRange now0 now1 idx target v Hnd Hnth Hgap)).
  assert (Hlen : (idx < List.length sorted)%nat)
    by (apply nth_error_Some; rewrite Hnth; discriminate).
  unfold navigateToNextTask, navigateToPrevTask. fold sorted. rewrite Hhere.
  split; [|split; [|split]].
  - intros next Hnext.
    assert (Hl : (idx + 1 < List.length sorted)%nat)
      by (apply nth_error_Some; rewrite Hnext; discriminate).
    destruct (Z.ltb_spec (Z.of_nat idx) (Z.of_nat (List.length sorted) - 1)); [|lia].
    replace (Z.of_nat idx + 1)%Z with (Z.of_nat (idx + 1)%nat) by lia.
    split; [reflexivity|]. split.
    + now rewrite (navigateToTask_in_range _ _ _ _ next).
    + intros now2 Hgap2.
      now apply (navIndex_at_target tasks timeRange now1 now2 (idx + 1)%nat next).
  - intros prev Hge Hprev.
    destruct (Z.ltb_spec 0 (Z.of_nat idx)); [|lia].
    replace (Z.of_nat idx - 1)%Z with (Z.of_nat (idx - 1)%nat) by lia.
    split; [reflexivity|]. split.
    + now rewrite (navigateToTask_in_range _ _ _ _ prev).
    + intros now2 Hgap2.
      now apply (navIndex_at_target tasks timeRange now1 now2 (idx - 1)%nat prev).
  - intros Hlast.
    destruct (Z.ltb_spec (Z.of_nat idx) (Z.of_nat (List.length sorted) - 1)); [lia|].
    reflexivity.
  - intros ->. reflexivity.
Qed.

(** Two tasks at one instant hold the next control back, even with the clock
    at rest: from the first of them it navigates to the second, after which
    the position is reported at the first again. *)
Remark next_is_held_by_equal_instants :
  let twins :=
    [ {| id := "a"; color := "auto"; schedule := Some (SchedulePoint 1768000000000);
         subtasks := [] |};
      {| id := "b"; color := "auto"; schedule := Some (SchedulePoint 1768000000000);
         subtasks := [] |};
      {| id := "c"; color := "auto"; schedule := Some (SchedulePoint 1768100000000);
         subtasks := [] |} ] in
  let here := navigateToTask twins january2026 1768000000000 0 (initialView weeks) in
  let there := navigateToNextTask twins january2026 1768000000000 here in
  navIndex twins january2026 1768000000000 here = 0%Z
  /\ focusedTaskId there = Some "b"%string
  /\ navIndex twins january2026 1768000000000 there = 0%Z
  /\ navigateToNextTask twins january2026 1768000000000 there = there.
Proof. vm_compute. repeat split. Qed.

Lemma scheduledTasks_filter (tasks : list Task) :
  map sched_task (scheduledTasks tasks) = filter isScheduled tasks.
Proof.
  induction tasks as [|t rest IH]; [reflexivity|].
  cbn [scheduledTasks filter]. unfold isScheduled at 1.
  destruct (schedule t); simpl; now rewrite IH.
Qed.

(** X16. The navigation list holds exactly the tasks that have a schedule,
    each once per occurrence, in ascending order of their instant: the start
    of a range, the point of a point schedule. *)
Theorem sortedScheduledTasks_sorted_and_complete (tasks : list Task) :
  ForallOrdPairs (fun a b => (time a <= time b)%Z) (sortedScheduledTasks tasks)
  /\ Permutation (map sched_task (sortedScheduledTasks tasks)) (filter isScheduled tasks)
  /\ List.length (sortedScheduledTasks tasks) = List.length (filter isScheduled tasks)
  /\ Forall (fun s => exists sch, schedule (sched_task s) = Some sch
                                  /\ time s = scheduleTime sch)
       (sortedScheduledTasks tasks).
Proof.
  unfold sortedScheduledTasks.
  assert (Hperm : Permutation (scheduledTasks tasks)
                    (sort (fun a b => (time a <=? time b)%Z) (scheduledTasks tasks)))
    by apply sort_perm.
  split; [|split; [|split]].
  - eapply ForallOrdPairs_impl; [|apply sort_sorted].
    + intros a b H. now apply Z.leb_le.
    + intros a b. rewrite !Z.leb_le. lia.
    + intros a b c. rewrite !Z.leb_le. lia.
  - rewrite <- scheduledTasks_filter. apply Permutation_map. now symmetry.
  - rewrite <- scheduledTasks_filter, length_map. symmetry. now apply Permutation_length.
  - apply Forall_forall. intros s Hs.
    apply (Permutation_in _ (Permutation_sym Hperm)) in Hs.
    now apply scheduledTasks_In in Hs.
Qed.

(** ** Vertical layout *)

Lemma maxRow_rowsUsed (tbs : list TaskBar) :
  (maxRow tbs + 1 = Z.of_nat (rowsUsed tbs))%Z.
Proof.
  unfold maxRow.
  assert (H : forall a, (-1 <= a)%Z ->
            fold_left (fun max tb => Z.max max (Z.of_nat (row tb))) tbs a
            = Z.max a (Z.of_nat (rowsUsed tbs) - 1)).
  { induction tbs as [|tb tbs IH]; intros a Ha.
    - cbn. lia.
    - cbn [fold_left]. rewrite IH by lia. rewrite rowsUsed_cons. lia. }
  rewrite H by lia. lia.
Qed.

(** X17. The task area is never lower than one bar, and every bar's rectangle
    lies inside it: it starts at or below the top of the area and ends at or
    above its bottom. *)
Theorem bars_lie_inside_task_area (tbs : list TaskBar) :
  (BAR_HEIGHT <= taskAreaHeight tbs)%Z
  /\ (tbs = [] -> taskAreaHeight tbs = BAR_HEIGHT)
  /\ forall tb, In tb tbs ->
       (TASK_AREA_START <= barY tb)%Z
       /\ (barY tb + BAR_HEIGHT <= TASK_AREA_START + taskAreaHeight tbs)%Z.
Proof.
  unfold taskAreaHeight, barY. rewrite maxRow_rowsUsed.
  unfold BAR_HEIGHT, BAR_GAP, TASK_AREA_START, AXIS_HEIGHT.
  split; [|split].
  - destruct (Z.eqb_spec (Z.of_nat (rowsUsed tbs) * (24 + 8)) 0); lia.
  - intros ->. reflexivity.
  - intros tb Hin. apply rowsUsed_In in Hin.
    destruct (Z.eqb_spec (Z.of_nat (rowsUsed tbs) * (24 + 8)) 0); lia.
Qed.



(** Points are not kept apart in the same way: a point is packed as a band
    of 8 pixels and drawn as a circle of radius 8, so two points ten pixels
    apart share a row and their circles intersect. *)
Remark point_circles_may_intersect :
  map row (assignRows twoPoints) = [0%nat; 0%nat]
  /\ Forall (fun tb => barShape false tb = BarCircle (barCircle false tb))
       (assignRows twoPoints)
  /\ circlesIntersect (barCircle false (nth 0 (assignRows twoPoints)
                                          {| bar := pointBar "P" 100; row := 0 |}))
                      (barCircle false (nth 1 (assignRows twoPoints)
                                          {| bar := pointBar "P" 100; row := 0 |})).
Proof.
  split; [reflexivity|]. split; [repeat constructor|]. vm_compute. reflexivity.
Qed.

(** ** Sub-timeline *)


(** ** Default time range *)

Lemma MakeDay_next_month_upper y mn date :
  (0 <= mn <= 11)%Z -> (MakeDay y (mn + 1) date <= MakeDay y mn date + 31)%Z.
Proof.
  intros Hmn. pose proof (InLeapYear_range y) as Hleap.
  pose proof (DayFromYear_succ y) as Hsucc.
  unfold MakeDay.
  assert (Hcases : (mn = 0 \/ mn = 1 \/ mn = 2 \/ mn = 3 \/ mn = 4 \/ mn = 5 \/ mn = 6
                   \/ mn = 7 \/ mn = 8 \/ mn = 9 \/ mn = 10 \/ mn = 11)%Z) by lia.
  repeat (destruct Hcases as [-> | Hcases]); try subst mn;
    repeat match goal with
           | |- context [(?a / 12)%Z] =>
               let v := eval vm_compute in (a / 12)%Z in change (a / 12)%Z with v
           | |- context [(?a mod 12)%Z] =>
               let v := eval vm_compute in (a mod 12)%Z in change (a mod 12)%Z with v
           end;
    rewrite ?Z.add_0_r; unfold monthStart; cbn [Z.eqb Pos.eqb]; lia.
Qed.

(** X20. The default time range of a new project starts now and ends
    between 28 and 31 days later, plus the zone offset of the host at its
    start minus the zone offset at the local time built for its end.  Its
    start is before its end unless the offset grows by 28 days or more, and
    it lasts 28 to 31 days when the two offsets are the same. *)
Theorem createDefaultTimeRange_spans_a_month (LocalTZA : Z -> bool -> Z) (now : Z) :
  let r := createDefaultTimeRange LocalTZA now in
  let offsetStart := LocalTZA now true in
  let offsetEnd :=
    LocalTZA (localSetMonth LocalTZA now (getMonth LocalTZA now + 1)) false in
  tr_start_iso r = now
  /\ (now + 28 * msPerDay + (offsetStart - offsetEnd) <= tr_end_iso r)%Z
  /\ (tr_end_iso r <= now + 31 * msPerDay + (offsetStart - offsetEnd))%Z
  /\ ((offsetEnd - offsetStart < 28 * msPerDay)%Z -> (tr_start_iso r < tr_end_iso r)%Z)
  /\ (offsetEnd = offsetStart ->
      (now + 28 * msPerDay <= tr_end_iso r)%Z /\ (tr_end_iso r <= now + 31 * msPerDay)%Z).
Proof.
  cbv zeta. unfold createDefaultTimeRange, Date_setMonth, UTC.
  cbn [tr_start_iso tr_end_iso].
  set (local := LocalTime LocalTZA now).
  assert (Hlocal : localSetMonth LocalTZA now (getMonth LocalTZA now + 1)
                   = setMonth local (MonthFromTime local + 1)) by reflexivity.
  rewrite Hlocal.
  pose proof (setMonth_step local) as Hlo.
  assert (Hhi : (setMonth local (MonthFromTime local + 1) <= local + 31 * msPerDay)%Z).
  { unfold setMonth.
    pose proof (MakeDay_next_month_upper (YearFromTime local) (MonthFromTime local)
                  (DateFromTime local) (MonthFromTime_range local)) as H.
    rewrite MakeDay_of_time in H.
    unfold MakeDate, Day, TimeWithinDay, msPerDay in *. Z.div_mod_to_equations. lia. }
  assert (Hl : local = (now + LocalTZA now true)%Z) by reflexivity.
  unfold msPerDay in *. repeat split; lia.
Qed.

(** Across the end of summer time the range is an hour longer than 31 days:
    from 2026-10-15T09:00Z, three hours ahead of UTC, to 2026-11-15T10:00Z,
    two hours ahead. *)
Remark default_range_across_a_clock_change :
  createDefaultTimeRange clockChange 1792054800000
  = {| tr_start_iso := 1792054800000;
       tr_end_iso := 1792054800000 + 31 * msPerDay + 3600000 |}.
Proof. vm_compute. reflexivity. Qed.

(** ** The store *)

Lemma withSubtasks_same (t : Task) : withSubtasks t (subtasks t) = t.
Proof. destruct t; reflexivity. Qed.

Lemma map_unchanged {A : Type} (f : A -> A) (l : list A) :
  (forall a, In a l -> f a = a) -> map f l = l.
Proof.
  intros H. induction l as [|a l IH]; [reflexivity|].
  simpl. rewrite H by now left. f_equal. apply IH. intros b Hb. apply H. now right.
Qed.

Lemma findTaskByPath_after_update (path : list string) :
  forall tasks t updates,
    upd_id updates = None ->
    findTaskByPath tasks path = Some t ->
    findTaskByPath (updateTaskByPath tasks path updates) path
    = Some (mergeTask t updates).
Proof.
  induction path as [|c rest IH]; intros tasks t updates Hid Hfind; [discriminate|].
  cbn [findTaskByPath updateTaskByPath] in *.
  destruct (find (fun t0 => String.eqb (id t0) c) tasks) as [task|] eqn:Hc; [|discriminate].
  rewrite find_map_same_id.
  2: { intros t0. destruct (String.eqb (id t0) c); [|reflexivity].
       cbn [negb]. destruct rest; [|reflexivity]. unfold mergeTask. cbn [id]. now rewrite Hid. }
  rewrite Hc. cbn [option_map].
  pose proof (find_some _ _ Hc) as [_ Heq]. rewrite Heq. cbn [negb].
  destruct rest as [|c' rest'].
  - now injection Hfind as ->.
  - cbn [withSubtasks subtasks]. now apply IH.
Qed.

Lemma find_map_key {A : Type} (key : A -> string) (f : A -> A) (c : string) (l : list A) :
  (forall a, key (f a) = key a) ->
  find (fun a => String.eqb (key a) c) (map f l)
  = option_map f (find (fun a => String.eqb (key a) c) l).
Proof.
  intros Hf. induction l as [|a l IH]; simpl; [reflexivity|].
  rewrite Hf. destruct (String.eqb (key a) c); [reflexivity | exact IH].
Qed.

Lemma useProject_taskAction (pid : string) (change : list Task -> list Task) s p :
  useProject pid s = Some p ->
  useProject pid (taskAction pid change s)
  = Some {| project_id := project_id p; time_range := time_range p;
            milestones := change (milestones p) |}.
Proof.
  unfold useProject, taskAction. intros Hp.
  destruct (workingState s) as [w|]; [|discriminate].
  cbn [workingState mapMilestones projects].
  rewrite (find_map_key project_id).
  2: { intros a. now destruct (negb (String.eqb (project_id a) pid)). }
  rewrite Hp. cbn [option_map].
  apply find_some in Hp. destruct Hp as [_ Heq]. now rewrite Heq.
Qed.

(** X21. An update reaches the store: when the project is in the working
    state and the path leads to a task, then after [updateTask] with an update
    that keeps the id, the project is found again with its id and time range,
    and the same path leads to the old task merged with the update; the store
    is marked dirty.  The path may have any depth. *)
Theorem updateTask_then_lookup (pid : string) (path : list string) updates s p t :
  upd_id updates = None ->
  useProject pid s = Some p ->
  findTaskByPath (milestones p) path = Some t ->
  exists p',
    useProject pid (updateTask pid path updates s) = Some p'
    /\ project_id p' = project_id p
    /\ time_range p' = time_range p
    /\ findTaskByPath (milestones p') path = Some (mergeTask t updates)
    /\ isDirty (updateTask pid path updates s) = true.
Proof.
  intros Hid Hp Ht. eexists. split; [|split; [|split; [|split]]].
  - unfold updateTask. apply useProject_taskAction. exact Hp.
  - reflexivity.
  - reflexivity.
  - cbn [milestones]. now apply findTaskByPath_after_update.
  - unfold updateTask, taskAction. unfold useProject in Hp.
    destruct (workingState s); [reflexivity | discriminate].
Qed.

(** X22. A path that leads nowhere is ignored without notice: with an empty
    path, or a first id no task of the list has, updating and deleting return
    the list as it is, and adding under such a parent drops the new task. *)
Theorem unknown_path_changes_nothing (tasks : list Task) (c : string) (rest : list string)
    updates newTask :
  updateTaskByPath tasks [] updates = tasks
  /\ deleteTaskByPath tasks [] = tasks
  /\ findTaskByPath tasks [] = None
  /\ ((forall t, In t tasks -> id t <> c) ->
      updateTaskByPath tasks (c :: rest) updates = tasks
      /\ deleteTaskByPath tasks (c :: rest) = tasks
      /\ addTaskToParent tasks (c :: rest) newTask = tasks
      /\ findTaskByPath tasks (c :: rest) = None).
Proof.
  repeat split; try reflexivity.
  - cbn [updateTaskByPath]. apply map_unchanged. intros t Ht.
    apply H in Ht. apply String.eqb_neq in Ht. now rewrite Ht.
  - cbn [deleteTaskByPath]. destruct rest.
    + induction tasks as [|t tasks IH]; [reflexivity|]. cbn [filter].
      assert (Ht : String.eqb (id t) c = false) by (apply String.eqb_neq, H; now left).
      rewrite Ht. cbn [negb]. f_equal. apply IH. intros t0 Ht0. apply H. now right.
    + apply map_unchanged. intros t Ht.
      apply H in Ht. apply String.eqb_neq in Ht. now rewrite Ht.
  - cbn [addTaskToParent]. apply map_unchanged. intros t Ht.
    apply H in Ht. apply String.eqb_neq in Ht. now rewrite Ht.
  - cbn [findTaskByPath].
    destruct (find (fun t => String.eqb (id t) c) tasks) as [t|] eqn:Hf; [|reflexivity].
    apply find_some in Hf. destruct Hf as [Hin Heq].
    apply String.eqb_eq in Heq. now apply H in Hin.
Qed.

Lemma taskIds_head (t : Task) : In (id t) (taskIds t).
Proof. destruct t; now left. Qed.

Lemma taskIds_below (t : Task) (i : string) :
  In i (flat_map taskIds (subtasks t)) -> In i (taskIds t).
Proof. destruct t; intros H; now right. Qed.

Lemma deleteTaskByPath_after_add (path : list string) :
  forall tasks newTask,
    ~ In (id newTask) (flat_map taskIds tasks) ->
    deleteTaskByPath (addTaskToParent tasks path newTask) (path ++ [id newTask]) = tasks.
Proof.
  induction path as [|c rest IH]; intros tasks newTask Hfresh.
  - cbn [addTaskToParent app deleteTaskByPath].
    rewrite filter_app. cbn [filter]. rewrite String.eqb_refl. cbn [negb].
    rewrite app_nil_r.
    induction tasks as [|t tasks IHt]; [reflexivity|]. cbn [filter].
    assert (Ht : String.eqb (id t) (id newTask) = false).
    { apply String.eqb_neq. intros Heq. apply Hfresh. apply in_flat_map.
      exists t. split; [now left|]. rewrite <- Heq. apply taskIds_head. }
    rewrite Ht. cbn [negb]. f_equal. apply IHt.
    intros Hin. apply Hfresh. cbn [flat_map]. apply in_or_app. now right.
  - cbn [addTaskToParent app deleteTaskByPath].
    destruct (rest ++ [id newTask]) as [|r0 rtail] eqn:Erest;
      [destruct rest; discriminate|].
    rewrite map_map. apply map_unchanged. intros t Ht.
    destruct (String.eqb (id t) c) eqn:Hc; cbn [negb].
    + assert (Hsub : ~ In (id newTask) (flat_map taskIds (subtasks t))).
      { intros Hin. apply Hfresh. apply in_flat_map. exists t. split; [exact Ht|].
        now apply taskIds_below. }
      assert (Hadded : match rest with
                       | [] => withSubtasks t (subtasks t ++ [newTask])
                       | _ :: _ => withSubtasks t (addTaskToParent (subtasks t) rest newTask)
                       end = withSubtasks t (addTaskToParent (subtasks t) rest newTask))
        by (destruct rest; reflexivity).
      rewrite Hadded. cbn [withSubtasks id subtasks]. rewrite Hc. cbn [negb].
      rewrite <- Erest, (IH _ _ Hsub).
      destruct t; reflexivity.
    + rewrite Hc. reflexivity.
Qed.

Lemma mapMilestones_unchanged (pid : string) (change : list Task -> list Task) w :
  (forall p, In p (projects w) -> project_id p = pid -> change (milestones p) = milestones p) ->
  mapMilestones pid change w = w.
Proof.
  intros H. unfold mapMilestones. destruct w as [ps order]. cbn [projects project_order] in *.
  f_equal. apply map_unchanged. intros p Hin.
  destruct (String.eqb (project_id p) pid) eqn:Heq; cbn [negb]; [|reflexivity].
  apply String.eqb_eq in Heq. rewrite (H p Hin Heq). now destruct p.
Qed.

Lemma mapMilestones_twice (pid : string) (f g : list Task -> list Task) w :
  mapMilestones pid g (mapMilestones pid f w) = mapMilestones pid (fun ms => g (f ms)) w.
Proof.
  unfold mapMilestones. cbn [projects project_order]. f_equal.
  rewrite map_map. apply map_ext. intros p.
  destruct (String.eqb (project_id p) pid) eqn:Heq; cbn [negb project_id]; rewrite Heq;
    reflexivity.
Qed.

(** X23. Deleting a task that was just added restores the data: after
    [addTask] under a parent path and [deleteTask] of that path followed by
    the new id, the working state is the one before the two actions, when the
    new id is not yet used in the project; both actions are on the undo
    stack and the redo stack is empty. *)
Theorem delete_after_add_round_trip (newId pid : string) (parentPath : list string) s w :
  workingState s = Some w ->
  (forall p, In p (projects w) -> project_id p = pid ->
             ~ In newId (flat_map taskIds (milestones p))) ->
  let added := addTask newId pid parentPath s in
  let s' := deleteTask pid (parentPath ++ [newId]) added in
  workingState s' = Some w
  /\ (exists w1, workingState added = Some w1 /\ undoStack s' = undoStack s ++ [w; w1])
  /\ redoStack s' = [].
Proof.
  intros Hw Hfresh added s'. subst s' added.
  unfold deleteTask, addTask, taskAction, _pushUndo. rewrite Hw.
  cbn [workingState undoStack redoStack savedState isDirty deepClone].
  split; [|split].
  - f_equal. rewrite mapMilestones_twice. apply mapMilestones_unchanged.
    intros p Hin Hpid.
    apply (deleteTaskByPath_after_add parentPath (milestones p)
             {| id := newId; color := "auto"; schedule := None; subtasks := [] |}).
    now apply Hfresh.
  - eexists. split; [reflexivity|]. now rewrite <- app_assoc.
  - reflexivity.
Qed.

Lemma undo_last (s : AppStore) (l : list AppData) (w : AppData) :
  undoStack s = l ++ [w] ->
  workingState (undo s) = Some w /\ undoStack (undo s) = l
  /\ savedState (undo s) = savedState s
  /\ redoStack (undo s) = match workingState s with
                          | Some c => redoStack s ++ [c]
                          | None => redoStack s
                          end.
Proof.
  intros H. unfold undo. rewrite H, rev_app_distr. cbn [rev app].
  cbn [workingState undoStack savedState redoStack]. now rewrite removelast_last.
Qed.


Lemma handleTaskScheduleUpdate_stack (pid : string) (u : Update) s w :
  workingState s = Some w ->
  exists w1, workingState (handleTaskScheduleUpdate pid u s) = Some w1
             /\ undoStack (handleTaskScheduleUpdate pid u s) = undoStack s ++ [w]
             /\ savedState (handleTaskScheduleUpdate pid u s) = savedState s.
Proof.
  intros Hw. unfold handleTaskScheduleUpdate, updateTask, taskAction, _pushUndo.
  rewrite Hw. cbn [workingState undoStack savedState deepClone]. eexists. eauto.
Qed.

(** X24. Every schedule change of the timeline can be undone: after the
    store has taken any list of updates from the timeline, as many undos as
    there were updates bring back the working state and the undo stack from
    before the first of them, and leave the saved state alone. *)
Theorem undo_reverts_deliveries (pid : string) (us : list Update) :
  forall s w,
    workingState s = Some w ->
    let s' := Nat.iter (List.length us) undo (deliver pid us s) in
    workingState s' = Some w
    /\ undoStack s' = undoStack s
    /\ savedState s' = savedState s.
Proof.
  induction us as [|u us IH]; intros s w Hw; cbn zeta.
  - cbn. auto.
  - cbn [List.length Nat.iter deliver fold_left].
    destruct (handleTaskScheduleUpdate_stack pid u s w Hw) as (w1 & Hw1 & Hstack & Hsaved).
    specialize (IH _ _ Hw1). cbn zeta in IH. unfold deliver in IH.
    destruct IH as (Hwork & Hundo & Hsave).
    rewrite Hstack in Hundo.
    destruct (undo_last _ _ _ Hundo) as (Ha & Hb & Hc & _).
    split; [exact Ha | split; [exact Hb |]].
    exact (eq_trans Hc (eq_trans Hsave Hsaved)).
Qed.

(** X25. Undo and redo are inverse to each other: with a working state and a
    non-empty undo stack, redo after undo gives back the working state and
    both stacks; with a non-empty redo stack, undo after redo does the same.
    The saved state is never touched and the store is left marked dirty. *)
Theorem undo_redo_round_trip (s : AppStore) (w : AppData) :
  workingState s = Some w ->
  (undoStack s <> [] ->
   redo (undo s) = {| savedState := savedState s; workingState := Some w; isDirty := true;
                      undoStack := undoStack s; redoStack := redoStack s |})
  /\ (redoStack s <> [] ->
      undo (redo s) = {| savedState := savedState s; workingState := Some w; isDirty := true;
                         undoStack := undoStack s; redoStack := redoStack s |}).
Proof.
  intros Hw. split; intros Hne.
  - destruct (exists_last Hne) as (l & p & Hl).
    unfold undo. rewrite Hl, rev_app_distr. cbn [rev app]. rewrite removelast_last, Hw.
    unfold redo. cbn [redoStack workingState undoStack savedState].
    rewrite rev_app_distr. cbn [rev app]. now rewrite removelast_last.
  - destruct (exists_last Hne) as (l & p & Hl).
    unfold redo. rewrite Hl, rev_app_distr. cbn [rev app]. rewrite removelast_last, Hw.
    unfold undo. cbn [redoStack workingState undoStack savedState].
    rewrite rev_app_distr. cbn [rev app]. now rewrite removelast_last.
Qed.

(** X26. An update that matches no task is still recorded: when no
    milestone of the project has the first id of the path, [updateTask]
    leaves the working data as it was, yet marks the store dirty, pushes the
    unchanged data on the undo stack and empties the redo stack. *)
Theorem update_of_unknown_task_is_recorded (pid c : string) (rest : list string)
    updates s w :
  workingState s = Some w ->
  (forall p, In p (projects w) -> project_id p = pid ->
             forall t, In t (milestones p) -> id t <> c) ->
  let s' := updateTask pid (c :: rest) updates s in
  workingState s' = Some w
  /\ isDirty s' = true
  /\ undoStack s' = undoStack s ++ [w]
  /\ redoStack s' = [].
Proof.
  intros Hw Hno s'. subst s'. unfold updateTask, taskAction, _pushUndo. rewrite Hw.
  cbn [workingState undoStack redoStack isDirty deepClone].
  repeat split. f_equal. apply mapMilestones_unchanged. intros p Hin Hpid.
  cbn [updateTaskByPath]. apply map_unchanged. intros t Ht.
  specialize (Hno p Hin Hpid t Ht). apply String.eqb_neq in Hno. now rewrite Hno.
Qed.

(** ** Expansion *)

(** X27. A click on a task toggles its expansion and touches nothing else:
    for a task of the list with a non-empty id and sub-tasks, found by its id,
    the click collapses it when it was the expanded one and makes it the
    expanded task otherwise; a click on a task without sub-tasks that is not
    expanded changes nothing; a background click without a pan collapses. *)
Theorem click_toggles_expansion (tasks : list Task) (task : Task) (v : ViewState) :
  id task <> ""%string ->
  find (hasId (Some (id task))) tasks = Some task ->
  let v' := handleTaskClick task v in
  zoomLevel v' = zoomLevel v /\ panOffset v' = panOffset v
  /\ focusedTaskId v' = focusedTaskId v
  /\ (expandedTaskId v = Some (id task) -> expandedTask tasks v' = None)
  /\ (expandedTaskId v <> Some (id task) -> subtasks task <> [] ->
      expandedTask tasks v' = Some task)
  /\ (expandedTaskId v <> Some (id task) -> subtasks task = [] -> v' = v)
  /\ expandedTask tasks (handleContainerClick false true v') = None.
Proof.
  intros Hid Hfind v'. subst v'. unfold handleTaskClick, hasId.
  assert (Hnone : forall w, expandedTask tasks (setExpandedTaskId None w) = None)
    by reflexivity.
  destruct (expandedTaskId v) as [e|] eqn:He.
  - destruct (String.eqb (id task) e) eqn:Heq.
    + apply String.eqb_eq in Heq. subst e.
      repeat split; try reflexivity; intros; try congruence.
    + apply String.eqb_neq in Heq.
      destruct (subtasks task) as [|s l] eqn:Hs; cbn [List.length Nat.ltb Nat.leb].
      * repeat split; try reflexivity; intros; try congruence.
      * repeat split; try reflexivity; intros; try congruence.
        unfold expandedTask. cbn [setExpandedTaskId expandedTaskId truthy].
        apply String.eqb_neq in Hid. rewrite Hid. cbn [negb]. exact Hfind.
  - destruct (subtasks task) as [|s l] eqn:Hs; cbn [List.length Nat.ltb Nat.leb].
    + repeat split; try reflexivity; intros; try congruence.
    + repeat split; try reflexivity; intros; try congruence.
      unfold expandedTask. cbn [setExpandedTaskId expandedTaskId truthy].
      apply String.eqb_neq in Hid. rewrite Hid. cbn [negb]. exact Hfind.
Qed.

(** ** Touch sessions *)

(** X29. A long press arms the drag whatever the direction: after a touch
    starts on a scheduled task of a locked timeline, the long-press timer
    fires and the finger moves, exactly one call is made, with the schedule
    dragged by the horizontal distance alone; a touch end first makes every
    later event silent; and on an unlocked timeline a touch starts nothing. *)
Theorem long_press_then_move_drags (z : ZoomLevel) (task : Task) (mode : Mode)
    (sch : Schedule) (x0 y0 x y : Q) :
  schedule task = Some sch ->
  let started := handleTaskTouchStart true task mode x0 y0 touchIdle in
  snd (touchRun true z [LongPress; TouchMove x y] started)
  = [(id task, draggedSchedule z mode sch (snappedDeltaMs z (x - x0)))]
  /\ (forall hasCallback evs,
        touchRun hasCallback z (TouchEnd :: evs) started = (touchIdle, []))
  /\ (forall hasCallback evs,
        touchRun hasCallback z evs (handleTaskTouchStart false task mode x0 y0 touchIdle)
        = (touchIdle, [])).
Proof.
  intros Hs started. subst started. unfold handleTaskTouchStart. rewrite Hs.
  cbn [negb]. split; [|split].
  - reflexivity.
  - intros hasCallback evs. cbn [touchRun touchStep].
    change (handleTouchEnd _) with touchIdle. now rewrite touchRun_idle.
  - intros hasCallback evs. apply touchRun_idle.
Qed.

(** ** Instances of the further properties *)

Lemma keyboard_moves_only_focused_task_witness :
  focusedTaskId (focusedOn "t1" days) = Some "t1"%string
  /\ fst (handleKeyDown true true [scheduledTask]
            {| key := ArrowLeft; shiftKey := true |} (focusedOn "t1" days))
     = focusedOn "t1" days.
Proof.
  pose proof (keyboard_moves_only_focused_task true true [scheduledTask]
                {| key := ArrowLeft; shiftKey := true |} (focusedOn "t1" days)
                ("t1"%string, shiftedSchedule nineHours (snapInterval days))
                (or_introl eq_refl)) as P.
  destruct P as (_ & _ & _ & P1 & P2 & _). split; [exact P1 | exact P2].
Defined.

Lemma keyboard_left_right_round_trip_witness :
  handleKeyDown true true
    (updateTaskByPath [scheduledTask] ["t1"%string]
       (scheduleUpdate (shiftedSchedule nineHours (snapInterval days))))
    {| key := ArrowRight; shiftKey := true |} (focusedOn "t1" days)
  = (focusedOn "t1" days, [("t1"%string, nineHours)]).
Proof.
  assert (Hne : "t1"%string <> ""%string) by discriminate.
  destruct (keyboard_left_right_round_trip [scheduledTask] (focusedOn "t1" days)
              "t1" scheduledTask nineHours true eq_refl Hne eq_refl eq_refl)
    as (moved & _ & -> & P).
  exact P.
Defined.

Lemma arrow_keys_round_trip_witness :
  focusedTaskId
    (fst (handleKeyDown true true fourTasks {| key := ArrowDown; shiftKey := false |}
            (fst (handleKeyDown true true fourTasks
                    {| key := ArrowUp; shiftKey := false |} (focusedOn "visible" days)))))
  = Some "visible"%string.
Proof.
  apply (arrow_keys_round_trip true fourTasks (focusedOn "visible" days)
           (nth 0 fourTasks scheduledTask) true).
  - cbn. repeat constructor; cbn; intuition discriminate.
  - cbn. repeat constructor; discriminate.
  - left. reflexivity.
  - discriminate.
  - reflexivity.
Defined.

Lemma shrink_never_inverts_witness :
  exists currentStart currentEnd,
    schedule scheduledTask = Some (ScheduleRange currentStart currentEnd)
    /\ ("t1"%string, ScheduleRange 0 28800000)
       = (id scheduledTask,
          ScheduleRange currentStart (currentEnd - tickInterval (ZOOM_CONFIGS hours)))
    /\ (currentStart < currentEnd - tickInterval (ZOOM_CONFIGS hours))%Z.
Proof.
  apply (shrink_never_inverts true hours scheduledTask
           ("t1"%string, ScheduleRange 0 28800000)).
  left. reflexivity.
Defined.

Lemma expand_then_shrink_round_trip_witness :
  exists longer,
    handleExpandTask true hours scheduledTask = [(id scheduledTask, longer)]
    /\ longer = ScheduleRange 0 (32400000 + tickInterval (ZOOM_CONFIGS hours))
    /\ handleShrinkTask true hours (mergeTask scheduledTask (scheduleUpdate longer))
       = [(id scheduledTask, ScheduleRange 0 32400000)].
Proof.
  apply (expand_then_shrink_round_trip hours scheduledTask 0 32400000).
  - reflexivity.
  - reflexivity.
Defined.

Lemma snap_aligned_duration_is_kept_witness :
  snapAligned days halfDay
  /\ snapAligned days
       (snd ("t1"%string,
             draggedSchedule days move halfDay (snappedDeltaMs days (-10 - 0)))).
Proof.
  assert (Ha : snapAligned days halfDay) by (exists 2%Z; reflexivity).
  split; [exact Ha|].
  apply (proj1 (snap_aligned_duration_is_kept days halfDay Ha) move (-10 - 0)).
  apply (mouse_emits _ _ _ _ _ true
           {| drag_taskId := "t1"; drag_mode := move; startMouseX := 0;
              drag_originalSchedule := halfDay |} (-10)); try reflexivity.
  simpl. left. reflexivity.
Defined.

Lemma navigation_position_after_navigate_witness :
  exists j s,
    navIndex fourTasks january2026 (1768000000000 + 60000)
      (navigateToTask fourTasks january2026 1768000000000 (Z.of_nat 2) (initialView weeks))
    = Z.of_nat j
    /\ nth_error (sortedScheduledTasks fourTasks) j = Some s
    /\ time s = 1400000000%Z
    /\ (j <= 2)%nat.
Proof.
  assert (Hn : nth_error (sortedScheduledTasks fourTasks) 2
               = Some {| sched_task := nth 1 fourTasks scheduledTask;
                         time := 1400000000 |}) by reflexivity.
  assert (Hgap : driftBelowGaps (sortedScheduledTasks fourTasks) january2026
                   1768000000000 (1768000000000 + 60000) 1400000000).
  { intros s Hin Hne. cbn in Hin.
    destruct Hin as [<- | [<- | [<- | []]]]; cbn in Hne |- *;
      [reflexivity | reflexivity | contradiction]. }
  destruct (navigation_position_after_navigate fourTasks january2026 1768000000000
              (1768000000000 + 60000) 2 _ (initialView weeks) Hn)
    as (_ & _ & j & s & P1 & P2 & _ & P3).
  destruct (P3 Hgap) as (P4 & P5 & _).
  exists j, s. repeat split; assumption.
Defined.

Lemma next_and_previous_step_by_one_witness :
  focusedTaskId
    (navigateToNextTask fourTasks january2026 (1768000000000 + 60000)
       (navigateToTask fourTasks january2026 1768000000000 (Z.of_nat 1)
          (initialView weeks)))
  = Some "left"%string.
Proof.
  assert (Hd : NoDup (map time (sortedScheduledTasks fourTasks))).
  { cbn. repeat constructor; cbn; intuition discriminate. }
  assert (Hn : nth_error (sortedScheduledTasks fourTasks) 1
               = Some {| sched_task := nth 0 fourTasks scheduledTask; time := 0 |})
    by reflexivity.
  assert (Hnext : nth_error (sortedScheduledTasks fourTasks) (1 + 1)
                  = Some {| sched_task := nth 1 fourTasks scheduledTask;
                            time := 1400000000 |}) by reflexivity.
  assert (Hgap : driftBelowGaps (sortedScheduledTasks fourTasks) january2026
                   1768000000000 (1768000000000 + 60000) 0).
  { intros s Hin Hne. cbn in Hin.
    destruct Hin as [<- | [<- | [<- | []]]]; cbn in Hne |- *;
      [reflexivity | contradiction | reflexivity]. }
  pose proof (next_and_previous_step_by_one fourTasks january2026 1768000000000
                (1768000000000 + 60000) 1 _ (initialView weeks) Hd Hn Hgap) as P.
  cbv zeta in P. destruct P as (P & _).
  exact (proj1 (proj2 (P _ Hnext))).
Defined.



Lemma updateTask_then_lookup_witness :
  exists p',
    useProject "p1" (handleTaskScheduleUpdate "p1" ("left"%string, nineHours) oneProjectStore)
    = Some p'
    /\ time_range p' = january2026
    /\ option_map schedule (findTaskByPath (milestones p') ["left"%string])
       = Some (Some nineHours).
Proof.
  destruct (updateTask_then_lookup "p1" ["left"%string] (scheduleUpdate nineHours)
              oneProjectStore
              {| project_id := "p1"; time_range := january2026; milestones := fourTasks |}
              (nth 1 fourTasks scheduledTask) eq_refl eq_refl eq_refl)
    as (p' & P1 & _ & P2 & P3 & _).
  exists p'. split; [exact P1 | split; [exact P2 |]].
  rewrite P3. reflexivity.
Defined.

Lemma delete_after_add_round_trip_witness :
  workingState (deleteTask "p1" (["visible"%string] ++ ["new"%string])
                  (addTask "new" "p1" ["visible"%string] oneProjectStore))
  = Some oneProject.
Proof.
  assert (Hfresh : forall p, In p (projects oneProject) -> project_id p = "p1"%string ->
                             ~ In "new"%string (flat_map taskIds (milestones p))).
  { intros p [<- | []] _. cbn. intuition discriminate. }
  exact (proj1 (delete_after_add_round_trip "new" "p1" ["visible"%string]
                  oneProjectStore oneProject eq_refl Hfresh)).
Defined.

Lemma undo_reverts_deliveries_witness :
  workingState
    (Nat.iter 2 undo
       (deliver "p1" [("visible"%string, nineHours); ("left"%string, halfDay)]
          oneProjectStore))
  = Some oneProject.
Proof.
  exact (proj1 (undo_reverts_deliveries "p1"
                  [("visible"%string, nineHours); ("left"%string, halfDay)]
                  oneProjectStore oneProject eq_refl)).
Defined.

Lemma undo_redo_round_trip_witness :
  let s := handleTaskScheduleUpdate "p1" ("left"%string, nineHours) oneProjectStore in
  workingState (redo (undo s)) = workingState s
  /\ undoStack (redo (undo s)) = undoStack s.
Proof.
  intros s.
  assert (Hne : undoStack s <> []) by discriminate.
  pose proof (proj1 (undo_redo_round_trip s _ eq_refl) Hne) as P.
  rewrite P. split; reflexivity.
Defined.

Lemma update_of_unknown_task_is_recorded_witness :
  workingState (updateTask "p1" ["ghost"%string] (scheduleUpdate nineHours) oneProjectStore)
  = Some oneProject
  /\ undoStack (updateTask "p1" ["ghost"%string] (scheduleUpdate nineHours) oneProjectStore)
     = [oneProject].
Proof.
  assert (Hno : forall p, In p (projects oneProject) -> project_id p = "p1"%string ->
                          forall t, In t (milestones p) -> id t <> "ghost"%string).
  { intros p [<- | []] _ t Ht. cbn in Ht.
    destruct Ht as [<- | [<- | [<- | [<- | []]]]]; discriminate. }
  pose proof (update_of_unknown_task_is_recorded "p1" "ghost" [] (scheduleUpdate nineHours)
                oneProjectStore oneProject eq_refl Hno) as P.
  cbv zeta in P. destruct P as (P1 & _ & P2 & _). split; [exact P1 | exact P2].
Defined.

Lemma click_toggles_expansion_witness :
  expandedTask [parentTask] (handleTaskClick parentTask (initialView days)) = Some parentTask
  /\ expandedTask [parentTask]
       (handleTaskClick parentTask (handleTaskClick parentTask (initialView days))) = None.
Proof.
  assert (Hne : id parentTask <> ""%string) by discriminate.
  split.
  - pose proof (click_toggles_expansion [parentTask] parentTask (initialView days)
                  Hne eq_refl) as P.
    cbv zeta in P. destruct P as (_ & _ & _ & _ & P & _).
    apply P; discriminate.
  - pose proof (click_toggles_expansion [parentTask] parentTask
                  (handleTaskClick parentTask (initialView days)) Hne eq_refl) as P.
    cbv zeta in P. destruct P as (_ & _ & _ & P & _).
    apply P. reflexivity.
Defined.

Lemma long_press_then_move_drags_witness :
  snd (touchRun true days [LongPress; TouchMove 0 20] touchedCell)
  = [("t1"%string, draggedSchedule days move nineHours (snappedDeltaMs days (0 - 0)))].
Proof.
  exact (proj1 (long_press_then_move_drags days scheduledTask move nineHours 0 0 0 20
                  eq_refl)).
Defined.
